(** * Canonical linear representation of Pyomo expressions

    A shallow embedding of [pyomo/repn/linear.py] (the [LinearRepn] data
    type, the before-child classifiers, the exit-node handlers and
    [LinearRepnVisitor]) and of [ScaleModel._get_float_scaling_factor] from
    [pyomo/core/plugins/transform/scaling.py], with the properties that the
    specification states about them. *)

From Stdlib Require Import QArith.
From stdpp Require Import gmap strings list fin_maps.

Local Open Scope string_scope.
Local Open Scope list_scope.
Local Open Scope nat_scope.

(** ** Python numbers

    The numeric values the visitor computes with.  Finite values are kept
    exact (rounding is not modelled); the two infinities and NaN follow the
    IEEE rules that Python floats obey. *)

Inductive num :=
| Fin (q : Q)
| Inf (negative : bool)
| NaN.

Definition num_0 : num := Fin 0.
Definition num_1 : num := Fin 1.
Definition num_m1 : num := Fin (-1).
Definition of_Z (z : Z) : num := Fin (inject_Z z).

(** [x != x], true for NaN only. *)
Definition is_nan (x : num) : bool :=
  match x with NaN => true | _ => false end.

(** [not x]: a number is falsy exactly when it compares equal to zero. *)
Definition is_zero (x : num) : bool :=
  match x with Fin q => Qeq_bool q 0 | _ => false end.

(** [if x:] *)
Definition truthy (x : num) : bool := negb (is_zero x).

(** [x == y] *)
Definition num_eqb (x y : num) : bool :=
  match x, y with
  | Fin p, Fin q => Qeq_bool p q
  | Inf a, Inf b => Bool.eqb a b
  | _, _ => false
  end.

Definition q_negative (q : Q) : bool := (Qnum q <? 0)%Z.

Definition num_mul (x y : num) : num :=
  match x, y with
  | NaN, _ | _, NaN => NaN
  | Fin p, Fin q => Fin (p * q)
  | Fin p, Inf s | Inf s, Fin p =>
      if Qeq_bool p 0 then NaN else Inf (xorb s (q_negative p))
  | Inf a, Inf b => Inf (xorb a b)
  end.

Definition num_add (x y : num) : num :=
  match x, y with
  | NaN, _ | _, NaN => NaN
  | Fin p, Fin q => Fin (p + q)
  | Fin _, Inf s | Inf s, Fin _ => Inf s
  | Inf a, Inf b => if Bool.eqb a b then Inf a else NaN
  end.

(** Exceptions that the modelled code can raise. *)
Inductive exn :=
| ZeroDivisionError
| NameError (name : string)
| TypeError
| ValueError (msg : string)
| KeyError
| AttributeError
| AssertionError
| OverflowError
| EvaluationError.

(** [x / y]: Python raises [ZeroDivisionError] for every zero divisor. *)
Definition num_div (x y : num) : exn + num :=
  if is_zero y then inl ZeroDivisionError
  else inr match x, y with
           | NaN, _ | _, NaN => NaN
           | Fin p, Fin q => Fin (p / q)
           | Fin _, Inf _ => Fin 0
           | Inf s, Fin q => Inf (xorb s (q_negative q))
           | Inf _, Inf _ => NaN
           end.

(** ** Insertion-ordered dictionaries

    [LinearRepn.linear] is a Python [dict]: unique keys, insertion order
    kept, an update of an existing key keeps its position. *)

Definition dict := list (nat * num).

Fixpoint dict_get (k : nat) (d : dict) : option num :=
  match d with
  | [] => None
  | (k', v) :: d' => if Nat.eqb k k' then Some v else dict_get k d'
  end.

Definition dict_mem (k : nat) (d : dict) : bool :=
  match dict_get k d with Some _ => true | None => false end.

(** [d[k] = v] *)
Fixpoint dict_set (k : nat) (v : num) (d : dict) : dict :=
  match d with
  | [] => [(k, v)]
  | (k', v') :: d' =>
      if Nat.eqb k k' then (k', v) :: d' else (k', v') :: dict_set k v d'
  end.

(** [del d[k]] *)
Fixpoint dict_del (k : nat) (d : dict) : dict :=
  match d with
  | [] => []
  | (k', v') :: d' =>
      if Nat.eqb k k' then d' else (k', v') :: dict_del k d'
  end.

Definition dict_keys (d : dict) : list nat := map fst d.

(** ** Expression trees *)

#[warnings="-register-all"]
Inductive expr :=
| Native (v : num)                         (* int / float literal *)
| Var (v : nat)                            (* variable, named by identity *)
| Param (p : num)                          (* non-variable leaf *)
| Negation (a : expr)
| Product (a b : expr)
| Division (a b : expr)
| Pow (a b : expr)
| Unary (f : string) (a : expr)            (* unary function and abs *)
| Expr_if (c t f : expr)
| Monomial (c : expr) (v : nat)            (* coefficient * variable *)
| Linear (args : list expr)                (* LinearExpression *)
| Sum (args : list expr)                   (* SumExpression *)
| Named (id : nat) (e : expr)              (* named / shared subexpression *)
| External (f : string) (args : list expr).

(** [node.args] *)
Definition args (e : expr) : list expr :=
  match e with
  | Native _ | Var _ | Param _ => []
  | Negation a | Unary _ a | Named _ a => [a]
  | Product a b | Division a b | Pow a b => [a; b]
  | Expr_if c t f => [c; t; f]
  | Monomial c v => [c; Var v]
  | Linear l | Sum l | External _ l => l
  end.

(** The classification tags of [pyomo.repn.util.ExprType]. *)
Inductive ExprType := CONSTANT | LINEAR | GENERAL.

(** The second component of a classification: a bare number, or a
    reference to a [LinearRepn] object.  Objects live in a store and are
    named by their address, so that in-place updates and sharing are
    visible. *)
Inductive payload :=
| PNum (x : num)
| PRef (r : nat).

(** What the surrounding model supplies: the current state of every
    variable, the numeric kernels of the operators that the expression
    system evaluates ([_apply_operation]), and
    [pyomo.repn.util.apply_node_operation]. *)
Record env := {
  var_fixed : nat -> bool;
  var_value : nat -> num;
  apply_operation : string -> list num -> exn + num;
  apply_node_operation : expr -> list (num + (ExprType * payload)) -> exn + num;
}.

(** Modelled from the spec: [is_potentially_variable] of the expression
    system, which decides whether a node is of one of the [NPV_] classes:
    a node is potentially variable when a variable occurs in it; named
    expressions, monomial terms and linear expressions always are. *)
Fixpoint is_potentially_variable (e : expr) : bool :=
  match e with
  | Native _ | Param _ => false
  | Var _ => true
  | Negation a | Unary _ a => is_potentially_variable a
  | Product a b | Division a b | Pow a b =>
      is_potentially_variable a || is_potentially_variable b
  | Expr_if c t f =>
      is_potentially_variable c || is_potentially_variable t
      || is_potentially_variable f
  | Monomial _ _ | Linear _ | Named _ _ => true
  | Sum l | External _ l =>
      (fix any (l : list expr) : bool :=
         match l with
         | [] => false
         | x :: l' => is_potentially_variable x || any l'
         end) l
  end.

(** Modelled from the spec: [is_fixed] of the expression system: every
    variable occurring in the expression is currently fixed. *)
Fixpoint is_fixed (E : env) (e : expr) : bool :=
  match e with
  | Native _ | Param _ => true
  | Var v => var_fixed E v
  | Negation a | Unary _ a | Named _ a => is_fixed E a
  | Product a b | Division a b | Pow a b => is_fixed E a && is_fixed E b
  | Expr_if c t f => is_fixed E c && is_fixed E t && is_fixed E f
  | Monomial c v => is_fixed E c && var_fixed E v
  | Linear l | Sum l | External _ l =>
      (fix all (l : list expr) : bool :=
         match l with
         | [] => true
         | x :: l' => is_fixed E x && all l'
         end) l
  end.

Definition bind_r {A B} (x : exn + A) (f : A -> exn + B) : exn + B :=
  match x with inl e => inl e | inr a => f a end.

(** Modelled from the spec: numeric evaluation of an expression with the
    current variable values, the body of [child()] on a component or an
    expression node.  Evaluation raises where Python does. *)
Fixpoint value (E : env) (e : expr) : exn + num :=
  let values :=
    fix values (l : list expr) : exn + list num :=
      match l with
      | [] => inr []
      | x :: l' =>
          bind_r (value E x) (fun v =>
          bind_r (values l') (fun vs => inr (v :: vs)))
      end in
  match e with
  | Native v => inr v
  | Var v => inr (var_value E v)
  | Param p => inr p
  | Negation a => bind_r (value E a) (fun x => inr (num_mul num_m1 x))
  | Product a b =>
      bind_r (value E a) (fun x => bind_r (value E b) (fun y => inr (num_mul x y)))
  | Division a b =>
      bind_r (value E a) (fun x => bind_r (value E b) (fun y => num_div x y))
  | Pow a b =>
      bind_r (value E a) (fun x =>
      bind_r (value E b) (fun y => apply_operation E "pow" [x; y]))
  | Unary f a => bind_r (value E a) (fun x => apply_operation E f [x])
  | Expr_if c t f =>
      bind_r (value E c) (fun x =>
      bind_r (value E t) (fun y =>
      bind_r (value E f) (fun z => inr (if truthy x then y else z))))
  | Monomial c v =>
      bind_r (value E c) (fun x => inr (num_mul x (var_value E v)))
  | Linear l | Sum l =>
      bind_r (values l) (fun vs => inr (fold_left num_add vs num_0))
  | Named _ a => value E a
  | External f l => bind_r (values l) (fun vs => apply_operation E f vs)
  end.

(** [child()]: calling a native number is a [TypeError]. *)
Definition call (E : env) (e : expr) : exn + num :=
  match e with
  | Native _ => inl TypeError
  | _ => value E e
  end.

(** ** The canonical result and the visitor state *)

Record LinearRepn := mkRepn {
  multiplier : num;
  constant : num;
  linear : dict;
  nonlinear : option expr;
}.

(** [LinearRepn()] *)
Definition Result : LinearRepn := mkRepn num_1 num_0 [] None.

Definition set_multiplier (x : num) (o : LinearRepn) : LinearRepn :=
  mkRepn x (constant o) (linear o) (nonlinear o).
Definition set_constant (x : num) (o : LinearRepn) : LinearRepn :=
  mkRepn (multiplier o) x (linear o) (nonlinear o).
Definition set_linear (d : dict) (o : LinearRepn) : LinearRepn :=
  mkRepn (multiplier o) (constant o) d (nonlinear o).
Definition set_nonlinear (n : option expr) (o : LinearRepn) : LinearRepn :=
  mkRepn (multiplier o) (constant o) (linear o) n.

Definition res : Type := ExprType * payload.

Record visitor := mkVisitor {
  heap : list LinearRepn;
  var_map : gmap nat nat;
  var_order : gmap nat nat;
  subexpression_cache : gmap nat res;
}.

Definition set_heap (h : list LinearRepn) (s : visitor) : visitor :=
  mkVisitor h (var_map s) (var_order s) (subexpression_cache s).
Definition set_cache (c : gmap nat res) (s : visitor) : visitor :=
  mkVisitor (heap s) (var_map s) (var_order s) c.
Definition set_vars (m o : gmap nat nat) (s : visitor) : visitor :=
  mkVisitor (heap s) m o (subexpression_cache s).

(** A driver as [LinearRepnVisitor({}, {}, {})] creates it. *)
Definition new_visitor : visitor := mkVisitor [] ∅ ∅ ∅.

(** ** Computations: visitor state and exceptions

    A raised exception keeps the state reached so far, as the registry and
    the cache do in Python. *)

Inductive outcome (A : Type) :=
| Ok (a : A) (s : visitor)
| Raise (e : exn) (s : visitor).
Arguments Ok {A} a s.
Arguments Raise {A} e s.

Definition M (A : Type) : Type := visitor -> outcome A.

Definition ret {A} (a : A) : M A := fun s => Ok a s.
Definition raise {A} (e : exn) : M A := fun s => Raise e s.
Definition bind {A B} (m : M A) (k : A -> M B) : M B :=
  fun s => match m s with
           | Ok a s' => k a s'
           | Raise e s' => Raise e s'
           end.
(** [try: m except: h] *)
Definition try_ {A} (m : M A) (h : exn -> M A) : M A :=
  fun s => match m s with
           | Ok a s' => Ok a s'
           | Raise e s' => h e s'
           end.
Definition lift {A} (x : exn + A) : M A :=
  match x with inl e => raise e | inr a => ret a end.
Definition get : M visitor := fun s => Ok s s.
Definition put (s : visitor) : M unit := fun _ => Ok tt s.

Notation "'do' x <- m ; k" := (bind m (fun x => k))
  (at level 10, x name, m at level 100, k at level 200).
Notation "'do' ' p <- m ; k" := (bind m (fun x => match x with p => k end))
  (at level 10, p pattern, m at level 100, k at level 200).

(** Object creation, attribute read and attribute write. *)
Definition alloc (o : LinearRepn) : M nat :=
  fun s => Ok (length (heap s)) (set_heap (heap s ++ [o]) s).
Definition load (r : nat) : M LinearRepn :=
  fun s => match heap s !! r with
           | Some o => Ok o s
           | None => Raise AttributeError s
           end.
Definition store (r : nat) (o : LinearRepn) : M unit :=
  fun s => Ok tt (set_heap (<[r := o]> (heap s)) s).
Definition update (r : nat) (f : LinearRepn -> LinearRepn) : M unit :=
  do o <- load r; store r (f o).

(** Using a payload as an object, and as a number. *)
Definition as_repn (p : payload) : M nat :=
  match p with PRef r => ret r | PNum _ => raise AttributeError end.
Definition as_num (p : payload) : M num :=
  match p with PNum x => ret x | PRef _ => raise TypeError end.

(** ** Expression-building operators

    Modelled from the spec: the overloaded [+], [*], [/] and [**] of the
    expression system.  On two native numbers they are arithmetic; as soon
    as one operand is an expression they build the operator node. *)

Definition expr_add (a b : expr) : expr :=
  match a, b with
  | Native x, Native y => Native (num_add x y)
  | _, _ => Sum [a; b]
  end.

Definition expr_mul (a b : expr) : expr :=
  match a, b with
  | Native x, Native y => Native (num_mul x y)
  | _, _ => Product a b
  end.

Definition expr_div (a b : expr) : exn + expr :=
  match a, b with
  | Native x, Native y => bind_r (num_div x y) (fun z => inr (Native z))
  | _, _ => inr (Division a b)
  end.

Definition expr_pow (E : env) (a b : expr) : exn + expr :=
  match a, b with
  | Native x, Native y =>
      bind_r (apply_operation E "pow" [x; y]) (fun z => inr (Native z))
  | _, _ => inr (Pow a b)
  end.

(** ** [LinearRepn] methods *)

Fixpoint _merge_dict_1 (self_dict other_dict : dict) : dict :=
  match other_dict with
  | [] => self_dict
  | (vid, coef) :: rest =>
      _merge_dict_1
        match dict_get vid self_dict with
        | Some c => dict_set vid (num_add c coef) self_dict
        | None => dict_set vid coef self_dict
        end rest
  end.

Fixpoint _merge_dict_m (mult : num) (self_dict other_dict : dict) : dict :=
  match other_dict with
  | [] => self_dict
  | (vid, coef) :: rest =>
      _merge_dict_m mult
        match dict_get vid self_dict with
        | Some c => dict_set vid (num_add c (num_mul mult coef)) self_dict
        | None => dict_set vid (num_mul mult coef) self_dict
        end rest
  end.

Definition _merge_dict (mult : num) (self_dict other_dict : dict) : dict :=
  if num_eqb mult num_1 then _merge_dict_1 self_dict other_dict
  else _merge_dict_m mult self_dict other_dict.

Definition walker_exitNode (self : nat) : M res :=
  do o <- load self;
  match nonlinear o with
  | Some _ => ret (GENERAL, PRef self)
  | None =>
      match linear o with
      | _ :: _ => ret (LINEAR, PRef self)
      | [] => ret (CONSTANT, PNum (num_mul (multiplier o) (constant o)))
      end
  end.

Definition duplicate (self : nat) : M nat :=
  do o <- load self;
  alloc (mkRepn (multiplier o) (constant o) (linear o) (nonlinear o)).

(** The monomial terms of [to_expression]: one per entry with a truthy
    coefficient, the variable looked up in [visitor.var_map]. *)
Fixpoint monomial_terms (vm : gmap nat nat) (d : dict) : exn + list expr :=
  match d with
  | [] => inr []
  | (vid, coef) :: rest =>
      if truthy coef then
        match vm !! vid with
        | Some v =>
            bind_r (monomial_terms vm rest) (fun ts =>
            inr (Monomial (Native coef) v :: ts))
        | None => inl KeyError
        end
      else monomial_terms vm rest
  end.

Definition to_expression_repn (self : nat) : M expr :=
  do o <- load self;
  do s <- get;
  do ans <-
    match linear o with
    | _ :: _ =>
        do ts <- lift (monomial_terms (var_map s) (linear o));
        ret (expr_add (Linear ts) (Native (constant o)))
    | [] => ret (Native (constant o))
    end;
  let ans := match nonlinear o with
             | Some nl => expr_add ans nl
             | None => ans
             end in
  ret (if negb (num_eqb (multiplier o) num_1)
       then expr_mul ans (Native (multiplier o))
       else ans).

Definition append (self : nat) (other : res) : M unit :=
  let '(_type, other) := other in
  match _type with
  | CONSTANT =>
      do x <- as_num other;
      update self (fun o => set_constant (num_add (constant o) x) o)
  | _ =>
      do r <- as_repn other;
      do oth <- load r;
      let mult := multiplier oth in
      do _ <- update self (fun o =>
                set_constant (num_add (constant o) (num_mul mult (constant oth))) o);
      do _ <- match linear oth with
              | _ :: _ =>
                  update self (fun o =>
                    set_linear (_merge_dict mult (linear o) (linear oth)) o)
              | [] => ret tt
              end;
      match nonlinear oth with
      | Some onl =>
          let nl := if negb (num_eqb mult num_1)
                    then expr_mul (Native mult) onl else onl in
          update self (fun o =>
            set_nonlinear
              match nonlinear o with
              | None => Some nl
              | Some snl => Some (expr_add snl nl)
              end o)
      | None => ret tt
      end
  end.

(** The [to_expression] table, keyed by the classification. *)
Definition _to_expression_CONST (arg : res) : M expr :=
  match snd arg with
  | PNum x => ret (Native x)
  | PRef _ => raise TypeError
  end.
Definition _to_expression_LINEAR (arg : res) : M expr :=
  do r <- as_repn (snd arg); to_expression_repn r.
Definition _to_expression_GENERAL (arg : res) : M expr :=
  do r <- as_repn (snd arg); to_expression_repn r.

Definition to_expression (arg : res) : M expr :=
  match fst arg with
  | CONSTANT => _to_expression_CONST arg
  | LINEAR => _to_expression_LINEAR arg
  | GENERAL => _to_expression_GENERAL arg
  end.

(** ** Exit-node handlers *)

Definition _handle_negation_constant (arg : res) : M res :=
  do x <- as_num (snd arg);
  ret (CONSTANT, PNum (num_mul num_m1 x)).

Definition _handle_negation_ANY (arg : res) : M res :=
  do r <- as_repn (snd arg);
  do _ <- update r (fun o => set_multiplier (num_mul (multiplier o) num_m1) o);
  ret arg.

Definition _handle_product_constant_constant (arg1 arg2 : res) : M res :=
  do x <- as_num (snd arg1);
  do y <- as_num (snd arg2);
  ret (fst arg2, PNum (num_mul x y)).

Definition _handle_product_constant_ANY (arg1 arg2 : res) : M res :=
  do x <- as_num (snd arg1);
  if negb (truthy x) || is_nan x then
    (* This catches both 0*arg2 and nan*arg2 *)
    ret (CONSTANT, PNum x)
  else
    do r <- as_repn (snd arg2);
    do _ <- update r (fun o => set_multiplier (num_mul (multiplier o) x) o);
    ret arg2.

Definition _handle_product_ANY_constant (arg1 arg2 : res) : M res :=
  do y <- as_num (snd arg2);
  if negb (truthy y) || is_nan y then
    (* This catches both arg1*0 and arg1*nan *)
    ret (CONSTANT, PNum y)
  else
    do r <- as_repn (snd arg1);
    do _ <- update r (fun o => set_multiplier (num_mul (multiplier o) y) o);
    ret arg1.

Definition _handle_product_nonlinear (arg1 arg2 : res) : M res :=
  do ans <- alloc Result;
  do e1 <- to_expression arg1;
  do e2 <- to_expression arg2;
  do _ <- update ans (set_nonlinear (Some (expr_mul e1 e2)));
  ret (GENERAL, PRef ans).

Definition _handle_division_constant_constant (arg1 arg2 : res) : M res :=
  do x <- as_num (snd arg1);
  do y <- as_num (snd arg2);
  do z <- lift (num_div x y);
  ret (fst arg2, PNum z).

Definition _handle_division_ANY_constant (arg1 arg2 : res) : M res :=
  do y <- as_num (snd arg2);
  if is_nan y then
    (* This catches arg1/nan *)
    ret (CONSTANT, PNum y)
  else
    do r <- as_repn (snd arg1);
    do o <- load r;
    do m <- lift (num_div (multiplier o) y);
    do _ <- store r (set_multiplier m o);
    ret arg1.

Definition _handle_division_nonlinear (arg1 arg2 : res) : M res :=
  do ans <- alloc Result;
  do e1 <- to_expression arg1;
  do e2 <- to_expression arg2;
  do e <- lift (expr_div e1 e2);
  do _ <- update ans (set_nonlinear (Some e));
  ret (GENERAL, PRef ans).

Definition _handle_pow_constant_constant
    (E : env) (node : expr) (args : list res) : M res :=
  do z <- lift (apply_node_operation E node (map inr args));
  ret (CONSTANT, PNum z).

Definition _handle_pow_nonlinear (E : env) (arg1 arg2 : res) : M res :=
  do ans <- alloc Result;
  do e1 <- to_expression arg1;
  do e2 <- to_expression arg2;
  do e <- lift (expr_pow E e1 e2);
  do _ <- update ans (set_nonlinear (Some e));
  ret (GENERAL, PRef ans).

(** [p == 1]; an object is not equal to a number. *)
Definition payload_is_1 (p : payload) : bool :=
  match p with PNum y => num_eqb y num_1 | PRef _ => false end.

Definition _handle_pow_ANY_constant (E : env) (arg1 arg2 : res) : M res :=
  if payload_is_1 (snd arg2) then ret arg1
  else _handle_pow_nonlinear E arg1 arg2.

Definition _handle_unary_constant (E : env) (node : expr) (arg : res) : M res :=
  do x <- as_num (snd arg);
  do z <- lift (apply_node_operation E node [inl x]);
  ret (CONSTANT, PNum z).

(** [node.create_node_with_local_data((e,))]: the same function applied
    to the new argument. *)
Definition create_node_with_local_data (node : expr) (e : expr) : expr :=
  match node with
  | Unary f _ => Unary f e
  | _ => node
  end.

Definition _handle_unary_nonlinear (node : expr) (arg : res) : M res :=
  do ans <- alloc Result;
  do e <- to_expression arg;
  do _ <- update ans (set_nonlinear (Some (create_node_with_local_data node e)));
  ret (GENERAL, PRef ans).

(** [visitor.subexpression_cache[id(node)] = arg1] *)
Definition cache_put (id : nat) (arg1 : res) : M unit :=
  fun s => Ok tt (set_cache (<[id := arg1]> (subexpression_cache s)) s).

Definition _handle_named_constant (id : nat) (arg1 : res) : M res :=
  (* Record this common expression *)
  do _ <- cache_put id arg1;
  ret arg1.

Definition _handle_named_ANY (id : nat) (arg1 : res) : M res :=
  (* Record this common expression *)
  do _ <- cache_put id arg1;
  let '(_type, arg1) := arg1 in
  do r <- as_repn arg1;
  do d <- duplicate r;
  ret (_type, PRef d).

Definition _handle_expr_if_nonlinear (arg1 arg2 arg3 : res) : M res :=
  do ans <- alloc Result;
  do e1 <- to_expression arg1;
  do e2 <- to_expression arg2;
  do e3 <- to_expression arg3;
  do _ <- update ans (set_nonlinear (Some (Expr_if e1 e2 e3)));
  ret (GENERAL, PRef ans).

(** [if p:] and [p != p] on a payload; an object is truthy and equal to
    itself. *)
Definition payload_truthy (p : payload) : bool :=
  match p with PNum x => truthy x | PRef _ => true end.
Definition payload_is_nan (p : payload) : bool :=
  match p with PNum x => is_nan x | PRef _ => false end.

Definition _handle_expr_if_const (arg1 arg2 arg3 : res) : M res :=
  let '(_type, _test) := arg1 in
  match _type with
  | CONSTANT =>
      if payload_truthy _test then
        if payload_is_nan _test then _handle_expr_if_nonlinear arg1 arg2 arg3
        else ret arg2
      else ret arg3
  | _ => _handle_expr_if_nonlinear arg1 arg2 arg3
  end.

(** [exit_node_dispatcher[(node.__class__, *tags)](self, node, *data)]:
    the table built from [_exit_node_handlers]; the [NPV_] classes share
    the entries of their base class, and a key that is not in the table
    is a [KeyError]. *)
Definition exit_node_dispatcher (E : env) (node : expr) (data : list res) : M res :=
  match node, data with
  | Negation _, [a] =>
      match fst a with
      | CONSTANT => _handle_negation_constant a
      | _ => _handle_negation_ANY a
      end
  | Product _ _, [a; b] =>
      match fst a, fst b with
      | CONSTANT, CONSTANT => _handle_product_constant_constant a b
      | CONSTANT, _ => _handle_product_constant_ANY a b
      | _, CONSTANT => _handle_product_ANY_constant a b
      | _, _ => _handle_product_nonlinear a b
      end
  | Division _ _, [a; b] =>
      match fst a, fst b with
      | CONSTANT, CONSTANT => _handle_division_constant_constant a b
      | CONSTANT, _ => _handle_division_nonlinear a b
      | _, CONSTANT => _handle_division_ANY_constant a b
      | _, _ => _handle_division_nonlinear a b
      end
  | Pow _ _, [a; b] =>
      match fst a, fst b with
      | CONSTANT, CONSTANT => _handle_pow_constant_constant E node [a; b]
      | CONSTANT, _ => _handle_pow_nonlinear E a b
      | _, CONSTANT => _handle_pow_ANY_constant E a b
      | _, _ => _handle_pow_nonlinear E a b
      end
  | Unary _ _, [a] =>
      match fst a with
      | CONSTANT => _handle_unary_constant E node a
      | _ => _handle_unary_nonlinear node a
      end
  | Named id _, [a] =>
      match fst a with
      | CONSTANT => _handle_named_constant id a
      | _ => _handle_named_ANY id a
      end
  | Expr_if _ _ _, [a; b; c] =>
      match fst a with
      | CONSTANT => _handle_expr_if_const a b c
      | _ => _handle_expr_if_nonlinear a b c
      end
  | _, _ => raise KeyError
  end.

(** ** Before-child classifiers

    Each returns the pair of the source: [(False, (tag, payload))] when the
    child is classified without descent, [(True, None)] to descend. *)

Definition before : Type := bool * option res.

Definition _before_native (child : num) : M before :=
  ret (false, Some (CONSTANT, PNum child)).

(** [visitor.var_map[_id] = child; visitor.var_order[_id] = len(var_order)] *)
Definition register_var (v : nat) : M unit :=
  fun s => Ok tt (set_vars (<[v := v]> (var_map s))
                           (<[v := size (var_order s)]> (var_order s)) s).

Definition _before_var (E : env) (child : nat) : M before :=
  do s <- get;
  let linear_ans :=
    do ans <- alloc Result;
    do _ <- update ans (fun o => set_linear (dict_set child num_1 (linear o)) o);
    ret (false, Some (LINEAR, PRef ans)) in
  match var_map s !! child with
  | None =>
      if var_fixed E child then
        ret (false, Some (CONSTANT, PNum (var_value E child)))
      else
        do _ <- register_var child;
        linear_ans
  | Some _ => linear_ans
  end.

(** The evaluation never yields a complex number in this model, so the
    [complex] test of the source does not appear. *)
Definition _before_npv (E : env) (child : expr) : M before :=
  try_ (do tmp <- lift (call E child);
        ret (false, Some (CONSTANT, PNum tmp)))
       (fun _ => ret (true, None)).

(** [arg1 = arg1()] unless [arg1] is of a native type. *)
Definition coef_value (E : env) (arg1 : expr) : exn + num :=
  match arg1 with
  | Native x => inr x
  | _ => call E arg1
  end.

Definition _before_monomial (E : env) (arg1 : expr) (arg2 : nat) : M before :=
  match coef_value E arg1 with
  | inl _ => ret (true, None)
  | inr arg1 =>
      (* Trap multiplication by 0 and nan. *)
      if negb (truthy arg1) || is_nan arg1 then
        ret (false, Some (CONSTANT, PNum arg1))
      else
        do s <- get;
        let linear_ans :=
          do ans <- alloc Result;
          do _ <- update ans (fun o => set_linear (dict_set arg2 arg1 (linear o)) o);
          ret (false, Some (LINEAR, PRef ans)) in
        match var_map s !! arg2 with
        | None =>
            if var_fixed E arg2 then
              ret (false, Some (CONSTANT, PNum (num_mul arg1 (var_value E arg2))))
            else
              do _ <- register_var arg2;
              linear_ans
        | Some _ => linear_ans
        end
  end.

(** The locals of the loop of [_before_linear].  [var_map] and
    [var_order] are the visitor's own dictionaries, so what the loop
    registers stays registered when it gives up. *)
Record linear_loop := mkLoop {
  ll_const : num;
  ll_linear : dict;
  ll_next_i : nat;
  ll_var_map : gmap nat nat;
  ll_var_order : gmap nat nat;
}.

(** One iteration; the flag is false at the [return True, None] of the
    source. *)
Definition _before_linear_arg (E : env) (arg : expr) (st : linear_loop)
    : linear_loop * bool :=
  match arg with
  | Monomial arg1 arg2 =>
      match coef_value E arg1 with
      | inl _ => (st, false)
      | inr arg1 =>
          if negb (truthy arg1) then (st, true)
          else if is_nan arg1 then
            (mkLoop (num_add (ll_const st) arg1) (ll_linear st) (ll_next_i st)
                    (ll_var_map st) (ll_var_order st), true)
          else
            match ll_var_map st !! arg2 with
            | None =>
                if var_fixed E arg2 then
                  (mkLoop (num_add (ll_const st) (num_mul arg1 (var_value E arg2)))
                          (ll_linear st) (ll_next_i st)
                          (ll_var_map st) (ll_var_order st), true)
                else
                  (mkLoop (ll_const st) (dict_set arg2 arg1 (ll_linear st))
                          (S (ll_next_i st))
                          (<[arg2 := arg2]> (ll_var_map st))
                          (<[arg2 := ll_next_i st]> (ll_var_order st)), true)
            | Some _ =>
                match dict_get arg2 (ll_linear st) with
                | Some c =>
                    (mkLoop (ll_const st)
                            (dict_set arg2 (num_add c arg1) (ll_linear st))
                            (ll_next_i st) (ll_var_map st) (ll_var_order st), true)
                | None =>
                    (mkLoop (ll_const st) (dict_set arg2 arg1 (ll_linear st))
                            (ll_next_i st) (ll_var_map st) (ll_var_order st), true)
                end
            end
      end
  | Native x =>
      (mkLoop (num_add (ll_const st) x) (ll_linear st) (ll_next_i st)
              (ll_var_map st) (ll_var_order st), true)
  | _ =>
      match call E arg with
      | inl _ => (st, false)
      | inr x =>
          (mkLoop (num_add (ll_const st) x) (ll_linear st) (ll_next_i st)
                  (ll_var_map st) (ll_var_order st), true)
      end
  end.

Fixpoint _before_linear_loop (E : env) (l : list expr) (st : linear_loop)
    : linear_loop * bool :=
  match l with
  | [] => (st, true)
  | arg :: l' =>
      match _before_linear_arg E arg st with
      | (st', true) => _before_linear_loop E l' st'
      | (st', false) => (st', false)
      end
  end.

(** The loop runs on its locals; [ans], allocated before the loop as in
    the source, receives the linear map and the constant when the result
    is LINEAR, and is dropped otherwise. *)
Definition _before_linear (E : env) (child_args : list expr) : M before :=
  do s <- get;
  do ans <- alloc Result;
  let '(st, finished) :=
    _before_linear_loop E child_args
      (mkLoop num_0 [] (size (var_order s)) (var_map s) (var_order s)) in
  do _ <- (fun s' => Ok tt (set_vars (ll_var_map st) (ll_var_order st) s'));
  if finished then
    match ll_linear st with
    | _ :: _ =>
        do _ <- update ans (fun o =>
                  set_constant (ll_const st) (set_linear (ll_linear st) o));
        ret (false, Some (LINEAR, PRef ans))
    | [] => ret (false, Some (CONSTANT, PNum (ll_const st)))
    end
  else ret (true, None).

Definition _before_named_expression (id : nat) : M before :=
  do s <- get;
  match subexpression_cache s !! id with
  | Some (_type, expr) =>
      match _type with
      | CONSTANT => ret (false, Some (_type, expr))
      | _ =>
          do r <- as_repn expr;
          do d <- duplicate r;
          ret (false, Some (_type, PRef d))
      end
  | None => ret (true, None)
  end.

(** Once the test has been evaluated, the source builds the nested visitor
    from [self.subexpression_cache]; the function has no [self] (its
    parameter is [visitor]), so evaluating that name raises [NameError]
    and the rest of the body is never run. *)
Definition _before_expr_if (E : env) (test t f : expr) : M before :=
  if is_fixed E test then
    match call E test with
    | inl _ => ret (true, None)
    | inr test => raise (NameError "self")
    end
  else ret (true, None).

(** [ans.constant = test()] names a [test] that is neither a local nor a
    global: the [NameError] is raised inside the [try] and swallowed by
    its bare [except]. *)
Definition _before_external (E : env) (child : expr) : M before :=
  do ans <- alloc Result;
  do early <-
    (if forallb (is_fixed E) (args child) then
       try_ (do x <- raise (NameError "test");
             do _ <- update ans (set_constant x);
             ret (Some (false, Some (CONSTANT, PRef ans))))
            (fun _ => ret None)
     else ret None);
  match early with
  | Some r => ret r
  | None =>
      do _ <- update ans (set_nonlinear (Some child));
      ret (false, Some (GENERAL, PRef ans))
  end.

Definition _before_general_expression : M before := ret (true, None).

(** [_before_child_dispatcher[child.__class__](self, child)].  The table
    is keyed by the class of the child; a class met for the first time is
    registered by [_register_new_before_child_dispatcher], which sends
    variables to [_before_var] and every non-potentially-variable leaf or
    node (the [NPV_] classes) to [_before_npv]. *)
Definition beforeChild (E : env) (child : expr) : M before :=
  match child with
  | Native v => _before_native v
  | Var v => _before_var E v
  | Param _ => _before_npv E child
  | Monomial c v => _before_monomial E c v
  | Linear l => _before_linear E l
  | Named id _ => _before_named_expression id
  | Expr_if c t f =>
      if is_potentially_variable child then _before_expr_if E c t f
      else _before_npv E child
  | External _ _ =>
      if is_potentially_variable child then _before_external E child
      else _before_npv E child
  | Negation _ | Product _ _ | Division _ _ | Pow _ _ | Unary _ _ | Sum _ =>
      if is_potentially_variable child then _before_general_expression
      else _before_npv E child
  end.

(** ** The visitor *)

(** The accumulator of a node: the list of its children's results, or the
    [LinearRepn] that a sum folds them into. *)
Inductive data :=
| DList (l : list res)
| DResult (r : nat).

Definition enterNode (node : expr) : M (list expr * data) :=
  match node with
  | Sum _ =>
      if is_potentially_variable node then
        (* node.__class__ is SumExpression *)
        do r <- alloc Result; ret (args node, DResult r)
      else ret (args node, DList [])
  | _ => ret (args node, DList [])
  end.

Definition exitNode (E : env) (node : expr) (d : data) : M res :=
  match d with
  | DResult r => walker_exitNode r
  | DList l => exit_node_dispatcher E node l
  end.

(** [data.append(child_result)]: a list, or [LinearRepn.append]. *)
Definition acceptChildResult (d : data) (child_result : res) : M data :=
  match d with
  | DList l => ret (DList (l ++ [child_result]))
  | DResult r => do _ <- append r child_result; ret d
  end.

(** [if coef: linear[vid] = coef * mult] *)
Definition scale_entry (mult : num) (kv : nat * num) : nat * num :=
  if truthy (snd kv) then (fst kv, num_mul (snd kv) mult) else kv.

(** The keys collected in [zeros]: those whose coefficient is falsy. *)
Definition zeros (d : dict) : list nat :=
  map fst (List.filter (fun kv => negb (truthy (snd kv))) d).

(** [for vid in zeros: del linear[vid]] *)
Definition del_all (ks : list nat) (d : dict) : dict :=
  fold_left (fun d k => dict_del k d) ks d.

(** Both branches of the source end without a write to [ans.constant] or
    to [ans.multiplier]. *)
Definition finalizeResult (result : res) : M nat :=
  match snd result with
  | PRef ans =>
      do o <- load ans;
      let mult := multiplier o in
      if num_eqb mult num_1 then
        do _ <- store ans (set_linear (del_all (zeros (linear o)) (linear o)) o);
        ret ans
      else
        let scaled := map (scale_entry mult) (linear o) in
        let kept := del_all (zeros (linear o)) scaled in
        do _ <- store ans
                  (set_nonlinear
                     match nonlinear o with
                     | Some nl => Some (expr_mul nl (Native mult))
                     | None => None
                     end
                     (set_linear kept o));
        ret ans
  | PNum x =>
      do ans <- alloc Result;
      match fst result with
      | CONSTANT =>
          do _ <- update ans (set_constant x);
          ret ans
      | _ => raise AssertionError
      end
  end.

(** Modelled from the spec: the generic post-order walk of
    [StreamBasedExpressionVisitor.walk_expression], which is not part of
    [linear.py].  The walker keeps a stack of the nodes it has entered,
    each with the children still to visit and its accumulator. *)
Record frame := mkFrame {
  f_node : expr;
  f_todo : list expr;
  f_data : data;
}.

Inductive control :=
| Visit (child : expr)      (* about to call [beforeChild] *)
| Next                      (* continue with the innermost entered node *)
| Return (r : res).         (* a child has been classified *)

Record config := mkConfig {
  stack : list frame;
  ctl : control;
}.

(** One step of the walk; [inr ans] is the finalized result. *)
Definition step (E : env) (c : config) : M (config + nat) :=
  match ctl c with
  | Visit child =>
      do '(walk, result) <- beforeChild E child;
      if walk : bool then
        do '(todo, d) <- enterNode child;
        ret (inl (mkConfig (mkFrame child todo d :: stack c) Next))
      else
        match result with
        | Some r => ret (inl (mkConfig (stack c) (Return r)))
        | None => raise TypeError
        end
  | Next =>
      match stack c with
      | [] => raise AssertionError
      | fr :: rest =>
          match f_todo fr with
          | child :: todo =>
              ret (inl (mkConfig (mkFrame (f_node fr) todo (f_data fr) :: rest)
                                 (Visit child)))
          | [] =>
              do r <- exitNode E (f_node fr) (f_data fr);
              ret (inl (mkConfig rest (Return r)))
          end
      end
  | Return r =>
      match stack c with
      | [] => do ans <- finalizeResult r; ret (inr ans)
      | fr :: rest =>
          do d <- acceptChildResult (f_data fr) r;
          ret (inl (mkConfig (mkFrame (f_node fr) (f_todo fr) d :: rest) Next))
      end
  end.

(** At most [n] steps. *)
Fixpoint run (E : env) (n : nat) (c : config) : M (config + nat) :=
  match n with
  | 0 => ret (inl c)
  | S n' =>
      do x <- step E c;
      match x with
      | inl c' => run E n' c'
      | inr ans => ret (inr ans)
      end
  end.

(** [initializeWalker] calls [beforeChild] on the root and finalizes a
    root that needs no descent; otherwise the walk enters the root. *)
Definition walk_expression (E : env) (n : nat) (e : expr) : M (config + nat) :=
  run E n (mkConfig [] (Visit e)).

(** ** The scaling transformation: the scaling factor of a component *)

(** The values a suffix can hold. *)
Inductive pyval :=
| PyNone
| PyNum (x : num)            (* a float *)
| PyInt (z : Z)              (* an int *)
| PyStr (s : string)
| PyObj (repr : string).     (* an object that [float] does not accept:
                                a list, a dict, ... *)

(** The key of a suffix entry: a component, or [None]. *)
Inductive suffix_key :=
| KComp (c : nat)
| KNone.

Definition suffix_key_eqb (a b : suffix_key) : bool :=
  match a, b with
  | KComp x, KComp y => Nat.eqb x y
  | KNone, KNone => true
  | _, _ => false
  end.

Definition suffix := list (suffix_key * pyval).

(** [s[k]] when [k in s] *)
Fixpoint suffix_get (k : suffix_key) (s : suffix) : option pyval :=
  match s with
  | [] => None
  | (k', v) :: s' => if suffix_key_eqb k k' then Some v else suffix_get k s'
  end.

(** A block, as far as the search looks at it: its component of the
    requested name, if any, with whether that component is a [Suffix]. *)
Record block := mkBlock {
  block_component : option (bool * suffix);
}.

Record component_data := mkComponent {
  cd_id : nat;
  cd_parent_component : nat;      (* the container; itself for a scalar *)
  cd_str : string;                (* [str(component_data)] *)
  cd_blocks : list block;         (* [parent_block()] and its ancestors *)
}.

(** The first loop of [_suffix_finder]: the suffixes met on the way up. *)
Fixpoint collect_suffixes (bs : list block) : list suffix :=
  match bs with
  | [] => []
  | b :: bs' =>
      match block_component b with
      | Some (true, s) => s :: collect_suffixes bs'
      | _ => collect_suffixes bs'
      end
  end.

(** [for s in l: if k in s: return s[k]] *)
Fixpoint first_match (k : suffix_key) (l : list suffix) : option pyval :=
  match l with
  | [] => None
  | s :: l' =>
      match suffix_get k s with
      | Some v => Some v
      | None => first_match k l'
      end
  end.

(** [_suffix_finder(component_data, suffix_name)] with [root=None]. *)
Definition _suffix_finder (cd : component_data) : pyval :=
  let suffixes := collect_suffixes (cd_blocks cd) in
  (* Pass 1: look for the component_data, working root to leaf *)
  match first_match (KComp (cd_id cd)) (rev suffixes) with
  | Some v => v
  | None =>
      (* Pass 2: look for the component container, working root to leaf *)
      match
        (if negb (Nat.eqb (cd_parent_component cd) (cd_id cd))
         then first_match (KComp (cd_parent_component cd)) (rev suffixes)
         else None)
      with
      | Some v => v
      | None =>
          (* Pass 3: look for None, working leaf to root *)
          match first_match KNone suffixes with
          | Some v => v
          | None => PyNone
          end
      end
  end.

Section FloatScalingFactor.

(** Python's [float] on a string and on an int, and [str] on a value, are
    taken as given: [float] of an int rounds it to the nearest float, and
    has no result for an int beyond the range of the floats. *)
Variable parse_float : string -> option num.
Variable float_of_int : Z -> option num.
Variable py_str : pyval -> string.

(** [float(v)]: a float converts to itself, an int converts or raises
    [OverflowError], a string converts or raises [ValueError], [None] and
    any other object raise [TypeError]. *)
Definition py_float (v : pyval) : exn + num :=
  match v with
  | PyNum x => inr x
  | PyInt z =>
      match float_of_int z with
      | Some x => inr x
      | None => inl OverflowError
      end
  | PyStr s =>
      match parse_float s with
      | Some x => inr x
      | None => inl (ValueError "could not convert string to float")
      end
  | PyNone | PyObj _ => inl TypeError
  end.

Definition scaling_factor_message (v : pyval) (cd : component_data) : string :=
  ("Suffix 'scaling_factor' has a value " ++ py_str v ++
   " for component " ++ cd_str cd ++
   " that cannot be converted to a float. Floating point values are required for this suffix in the ScaleModel transformation.")%string.

Definition _get_float_scaling_factor (cd : component_data) : exn + num :=
  let scaling_factor := _suffix_finder cd in
  match scaling_factor with
  | PyNone =>
      (* If still no scaling factor, return 1.0 *)
      inr num_1
  | _ =>
      (* Make sure scaling factor is a float *)
      match py_float scaling_factor with
      | inr x => inr x
      | inl (ValueError _) =>
          inl (ValueError (scaling_factor_message scaling_factor cd))
      | inl e => inl e
      end
  end.

End FloatScalingFactor.

(** ** Concrete models used in the examples *)

(** No variable is fixed. *)
Definition free_env : env := {|
  var_fixed := fun _ => false;
  var_value := fun _ => num_0;
  apply_operation := fun _ _ => inl EvaluationError;
  apply_node_operation := fun _ _ => inl EvaluationError;
|}.

(** Every variable is fixed, at the value 5. *)
Definition fixed_env : env := {|
  var_fixed := fun _ => true;
  var_value := fun _ => of_Z 5;
  apply_operation := fun _ _ => inl EvaluationError;
  apply_node_operation := fun _ _ => inl EvaluationError;
|}.

(** [2 * (x + 3)] *)
Definition two_times_x_plus_3 : expr :=
  Product (Native (of_Z 2)) (Sum [Var 0; Native (of_Z 3)]).

(** Classify, reconstruct the result, classify the reconstruction. *)
Definition reclassify (E : env) (n : nat) (e : expr) : M (config + nat) :=
  do x <- walk_expression E n e;
  match x with
  | inr ans =>
      do e' <- to_expression_repn ans;
      walk_expression E n e'
  | inl c => ret (inl c)
  end.

(** The final [LinearRepn] of a finished walk. *)
Definition final_repn (x : outcome (config + nat)) : option LinearRepn :=
  match x with
  | Ok (inr ans) s => heap s !! ans
  | _ => None
  end.

Definition raised {A} (x : outcome A) : option exn :=
  match x with
  | Raise e _ => Some e
  | Ok _ _ => None
  end.

Definition final_state {A} (x : outcome A) : visitor :=
  match x with
  | Ok _ s | Raise _ s => s
  end.


(** [Expr_if(p, x, y)] with a parameter [p = 1] as the test, and the same
    with the native constant 1. *)
Definition if_param_x_y : expr := Expr_if (Param (of_Z 1)) (Var 0) (Var 1).
Definition if_native_x_y : expr := Expr_if (Native (of_Z 1)) (Var 0) (Var 1).

(** [p0 * (p1 / p0)] with parameters [p0 = 0] and [p1 = 1], and [nan * x]. *)
Definition zero_times_one_over_zero : expr :=
  Product (Param (of_Z 0)) (Division (Param (of_Z 1)) (Param (of_Z 0))).
Definition nan_times_x : expr := Product (Native NaN) (Var 0).

(** [x - x], as the sum of [x] and the monomial [-1 * x], and as the sum
    of [x] and the negation of [x]. *)
Definition x_minus_x : expr := Sum [Var 0; Monomial (Native (of_Z (-1))) 0].
Definition x_plus_neg_x : expr := Sum [Var 0; Negation (Var 0)].

(** [x*0 + x*nan], with monomial terms and with products. *)
Definition x_zero_plus_x_nan : expr :=
  Sum [Monomial (Native (of_Z 0)) 0; Monomial (Native NaN) 0].
Definition x_zero_plus_x_nan_products : expr :=
  Sum [Product (Var 0) (Native (of_Z 0)); Product (Var 0) (Native NaN)].

(** [3*x + 2*y - 3*x + 5] and [(x + 1)*(y + 1)], with [x] and [y] the
    variables 0 and 1. *)
Definition three_x_two_y_minus_three_x_plus_5 : expr :=
  Sum [Monomial (Native (of_Z 3)) 0; Monomial (Native (of_Z 2)) 1;
       Monomial (Native (of_Z (-3))) 0; Native (of_Z 5)].
Definition x_plus_1_times_y_plus_1 : expr :=
  Product (Sum [Var 0; Native (of_Z 1)]) (Sum [Var 1; Native (of_Z 1)]).

(** [x / inf] *)
Definition x_over_inf : expr := Division (Var 0) (Native (Inf false)).

(** The entries that finalization keeps: those with a truthy coefficient. *)
Definition nonzero_entries (d : dict) : dict :=
  List.filter (fun kv => truthy (snd kv)) d.

(** A component whose suffix value is a list, one whose value is a string
    that is no number, one whose value is the int [10 ** 400], one whose
    value is [None], and one with no suffix value. *)
Definition component_with_list : component_data :=
  mkComponent 7 7 "x"
    [mkBlock (Some (true, [(KComp 7, PyObj "[1, 2]")]))].
Definition component_with_huge_int : component_data :=
  mkComponent 7 7 "x"
    [mkBlock (Some (true, [(KComp 7, PyInt (10 ^ 400))]))].
Definition component_with_none : component_data :=
  mkComponent 7 7 "x"
    [mkBlock (Some (true, [(KComp 7, PyNone)]))].
Definition component_with_text : component_data :=
  mkComponent 7 7 "x"
    [mkBlock (Some (true, [(KComp 7, PyStr "fast")]))].
Definition component_without_suffix : component_data :=
  mkComponent 7 7 "x" [mkBlock None].

(** A [float] that accepts no string; [float] on an int, which gives the
    nearest float, a tie going to the even one, and has no result when
    that float would be [2 ** 1024] or more; and a [str] that shows
    strings and opaque objects by their text. *)
Definition no_parse (s : string) : option num := None.
Definition float_of_int_example (z : Z) : option num :=
  let a := Z.abs z in
  let e := (Z.log2 a - 52)%Z in
  let r :=
    if (e <=? 0)%Z then a
    else
      let q := (a / 2 ^ e)%Z in
      let rest := (a mod 2 ^ e)%Z in
      let half := (2 ^ (e - 1))%Z in
      let q := if (half <? rest)%Z || ((rest =? half)%Z && Z.odd q)
               then (q + 1)%Z else q in
      (q * 2 ^ e)%Z in
  if (2 ^ 1024 <=? r)%Z then None else Some (of_Z (Z.sgn z * r)).
Definition show_text (v : pyval) : string :=
  match v with
  | PyStr s | PyObj s => s
  | PyNone => "None"
  | PyNum _ | PyInt _ => "<number>"
  end.

(** Two states of the model agree on every variable that the registry does
    not hold yet. *)
Definition agree_unregistered (vm : gmap nat nat) (E E' : env) : Prop :=
  forall v, vm !! v = None ->
    var_fixed E v = var_fixed E' v /\ var_value E v = var_value E' v.

(** The arguments of a linear expression evaluate alike: the coefficient
    of each monomial term, and each term that is no monomial. *)
Definition same_evaluations (E E' : env) (l : list expr) : Prop :=
  forall arg, In arg l ->
    match arg with
    | Monomial c _ => coef_value E c = coef_value E' c
    | Native _ => True
    | _ => call E arg = call E' arg
    end.

(** The driver after [x] (variable 0) has been met as a free variable. *)
Definition visitor_with_x : visitor :=
  final_state (walk_expression free_env 20 (Var 0) new_visitor).

(** ** Invariants of a walk *)

(** The objects a classification, an accumulator and a configuration of
    the walker refer to. *)
Definition res_refs (r : res) : list nat :=
  match snd r with PRef l => [l] | PNum _ => [] end.

Definition data_refs (d : data) : list nat :=
  match d with
  | DList l => concat (map res_refs l)
  | DResult r => [r]
  end.

Definition data_results (d : data) : list res :=
  match d with
  | DList l => l
  | DResult _ => []
  end.

Definition ctl_results (c : control) : list res :=
  match c with Return r => [r] | _ => [] end.

Definition stack_refs (st : list frame) : list nat :=
  concat (map (fun f => data_refs (f_data f)) st).

Definition stack_results (st : list frame) : list res :=
  concat (map (fun f => data_results (f_data f)) st).

(** The objects that the walker still holds: the classification in hand
    and the accumulators of the entered nodes. *)
Definition live (c : config) : list nat :=
  concat (map res_refs (ctl_results (ctl c))) ++ stack_refs (stack c).

(** The classifications that the walker holds. *)
Definition results_of (c : config) : list res :=
  ctl_results (ctl c) ++ stack_results (stack c).

(** The tag of a classification fits its payload, in the store [h]. *)
Definition tag_ok (h : list LinearRepn) (r : res) : Prop :=
  match r with
  | (CONSTANT, PNum _) => True
  | (LINEAR, PRef l) =>
      exists o, h !! l = Some o /\ linear o <> [] /\ nonlinear o = None
  | (GENERAL, PRef l) =>
      exists o, h !! l = Some o /\ nonlinear o <> None
  | _ => False
  end.

(** The linear map and the nonlinear part of a payload; a bare number has
    an empty map and no nonlinear part. *)
Definition payload_parts (h : list LinearRepn) (p : payload)
    : option (dict * option expr) :=
  match p with
  | PNum _ => Some ([], None)
  | PRef l =>
      match h !! l with
      | Some o => Some (linear o, nonlinear o)
      | None => None
      end
  end.

(** The invariant of the data model, as the specification words it. *)
Definition classified (h : list LinearRepn) (r : res) : Prop :=
  exists lin nl,
    payload_parts h (snd r) = Some (lin, nl) /\
    (fst r = CONSTANT <-> lin = [] /\ nl = None) /\
    (fst r = LINEAR <-> lin <> [] /\ nl = None) /\
    (fst r = GENERAL <-> nl <> None) /\
    (fst r = CONSTANT -> exists x, snd r = PNum x).

(** [l] is the payload of an entry of the subexpression cache. *)
Definition cached_ref (s : visitor) (l : nat) : Prop :=
  exists id t, subexpression_cache s !! id = Some (t, PRef l).

Definition cache_ok (s : visitor) : Prop :=
  forall id r, subexpression_cache s !! id = Some r -> tag_ok (heap s) r.

(** What holds of the driver and the walker between two steps: every
    classification held or cached fits the store, the objects held are
    allocated and pairwise distinct, and no object of the cache is held. *)
Record config_ok (s : visitor) (c : config) : Prop := mkConfigOk {
  ok_cache : cache_ok s;
  ok_results : forall r, r ∈ results_of c -> tag_ok (heap s) r;
  ok_live : forall l, l ∈ live c -> l < length (heap s);
  ok_nodup : NoDup (live c);
  ok_sep : forall l, cached_ref s l -> l ∉ live c;
}.

(** The states of a driver: a new one, and the state that a walk leaves
    when it finishes or raises, whatever the expression and the state of
    the model. *)
Inductive driver_state : visitor -> Prop :=
| driver_new : driver_state new_visitor
| driver_walk s E n e ans s' :
    driver_state s ->
    walk_expression E n e s = Ok (inr ans) s' ->
    driver_state s'
| driver_failed_walk s E n e err s' :
    driver_state s ->
    walk_expression E n e s = Raise err s' ->
    driver_state s'.

(** How a computation may change the store: it only grows; its objects
    outside [F] and [G] are left as they are; those in [F] keep their
    linear map and nonlinear part. *)
Record heap_effect (F G : list nat) (h h' : list LinearRepn) : Prop :=
  mkHeapEffect {
  eff_len : length h <= length h';
  eff_frame : forall l, l < length h -> l ∉ F -> l ∉ G -> h' !! l = h !! l;
  eff_shape : forall l o, l ∈ F -> l ∉ G -> h !! l = Some o ->
      exists o', h' !! l = Some o' /\
                 linear o' = linear o /\ nonlinear o' = nonlinear o;
}.

Definition refs_of (l : list res) : list nat := concat (map res_refs l).

(** What an exit-node handler does with the classifications [args] it is
    given: it may update their multipliers and allocate; what it returns
    fits the store and is one of its arguments or a new object; if it
    writes the cache, it caches one of its arguments and returns a new
    object. *)
Definition handler_post (args : list res) (s : visitor) (x : outcome res) : Prop :=
  match x with
  | Ok r s' =>
      heap_effect (refs_of args) [] (heap s) (heap s') /\
      tag_ok (heap s') r /\
      (forall l, l ∈ res_refs r -> l ∈ refs_of args \/ length (heap s) <= l) /\
      (subexpression_cache s' = subexpression_cache s \/
       exists id a, a ∈ args /\
         subexpression_cache s' = <[id := a]> (subexpression_cache s) /\
         forall l, l ∈ res_refs r -> length (heap s) <= l)
  | Raise _ s' =>
      heap_effect (refs_of args) [] (heap s) (heap s') /\
      subexpression_cache s' = subexpression_cache s
  end.

(** What a before-child classifier does: it may allocate, and what it
    returns fits the store and is a new object. *)
Definition before_post (s : visitor) (x : outcome before) : Prop :=
  match x with
  | Ok (_, result) s' =>
      heap_effect [] [] (heap s) (heap s') /\
      subexpression_cache s' = subexpression_cache s /\
      forall r, result = Some r ->
        tag_ok (heap s') r /\
        forall l, l ∈ res_refs r -> length (heap s) <= l
  | Raise _ s' =>
      heap_effect [] [] (heap s) (heap s') /\
      subexpression_cache s' = subexpression_cache s
  end.

(** The store only grew, and its objects outside [L] are as they were. *)
Definition unchanged_outside (L : list nat) (h h' : list LinearRepn) : Prop :=
  length h <= length h' /\
  forall l, l < length h -> l ∉ L -> h' !! l = h !! l.

(** What a step of the walk does from a configuration that satisfies the
    invariants: the next configuration satisfies them and holds no old
    object that the walker did not hold before; and in every case, also
    when the walk finishes or the step raises, the cache fits the store
    and only objects that the walker held have changed. *)
Definition step_post (s : visitor) (c : config) (x : outcome (config + nat))
    : Prop :=
  match x with
  | Ok (inl c') s' =>
      config_ok s' c' /\
      unchanged_outside (live c) (heap s) (heap s') /\
      (forall l, l ∈ live c' -> l ∈ live c \/ length (heap s) <= l)
  | Ok (inr _) s' =>
      cache_ok s' /\ unchanged_outside (live c) (heap s) (heap s')
  | Raise _ s' =>
      cache_ok s' /\ unchanged_outside (live c) (heap s) (heap s')
  end.

(** A computation that changes the store within [F] and [G] at most, and
    leaves the cache as it is, whether it returns or raises. *)
Definition effect_only {A} (F G : list nat) (m : M A) : Prop :=
  forall s, match m s with
            | Ok _ s' | Raise _ s' =>
                heap_effect F G (heap s) (heap s') /\
                subexpression_cache s' = subexpression_cache s
            end.

(** A computation that leaves the state as it is, whether it returns or
    raises. *)
Definition readonly {A} (m : M A) : Prop :=
  forall s, match m s with Ok _ s' | Raise _ s' => s' = s end.

(** [e + x] and [e + y] for a named expression [e = 2*z] (variables 0, 1
    and 2 are [x], [y] and [z]; the named expression has identity 9). *)
Definition shared_e : expr := Named 9 (Product (Native (of_Z 2)) (Var 2)).
Definition e_plus_x : expr := Sum [shared_e; Var 0].
Definition e_plus_y : expr := Sum [shared_e; Var 1].

(** The driver after [e + x] has been walked. *)
Definition visitor_after_e_plus_x : visitor :=
  final_state (walk_expression free_env 30 e_plus_x new_visitor).

(** ** Proof automation *)

(** Unfold the monadic plumbing of a computation. *)
Ltac munfold :=
  cbv beta iota delta
    [bind ret raise try_ lift get put alloc load store update as_num as_repn
     cache_put register_var fst snd].


(** ** The scaling transformation: bounds and values *)

(** [x < y] on numbers; a comparison with NaN is false. *)
Definition num_ltb (x y : num) : bool :=
  match x, y with
  | Fin p, Fin q => negb (Qle_bool q p)
  | Inf true, Fin _ | Fin _, Inf false | Inf true, Inf false => true
  | _, _ => false
  end.

(** What [_apply_to] reads and writes of a variable: its bounds and its
    value, each possibly [None]. *)
Record var_data := mkVarData {
  vd_lb : option num;
  vd_ub : option num;
  vd_value : option num;
}.

Definition setlb (b : option num) (v : var_data) : var_data :=
  mkVarData b (vd_ub v) (vd_value v).
Definition setub (b : option num) (v : var_data) : var_data :=
  mkVarData (vd_lb v) b (vd_value v).
Definition set_value (x : option num) (v : var_data) : var_data :=
  mkVarData (vd_lb v) (vd_ub v) x.

(** [x * scaling_factor] on a bound or a value that is not [None]. *)
Definition scaled (scaling_factor : num) (b : option num) : option num :=
  match b with
  | Some x => Some (num_mul x scaling_factor)
  | None => None
  end.

(** The body of the loop of [_apply_to] over the variables, for one
    variable and its scaling factor.

    Modelled from the spec: the quotient [v / scaling_factor] that the
    body starts with is built by the expression system, which raises
    [ZeroDivisionError] for a divisor equal to zero; the quotient itself
    goes into the substitution map and is not part of the variable. *)
Definition scale_variable (scaling_factor : num) (v : var_data)
    : exn + var_data :=
  (* variable_substitution_map[v] = v / scaling_factor *)
  if is_zero scaling_factor then inl ZeroDivisionError
  else
    let v := match vd_lb v with
             | Some lb => setlb (Some (num_mul lb scaling_factor)) v
             | None => v
             end in
    let v := match vd_ub v with
             | Some ub => setub (Some (num_mul ub scaling_factor)) v
             | None => v
             end in
    let v := if num_ltb scaling_factor num_0 then
               let temp := vd_lb v in
               setub temp (setlb (vd_ub v) v)
             else v in
    inr match vd_value v with
        | Some x => set_value (Some (num_mul x scaling_factor)) v
        | None => v
        end.

(** What [_apply_to] does with the right-hand sides and the dual of a
    constraint: both sides scaled, exchanged for a negative factor; the
    dual divided by the factor; then the new sides set, an equality
    keeping the lower one for both.  [dual] is the value of the constraint
    in [model.dual] when that suffix exists and holds a value other than
    [None] for the constraint.  When the division raises, [set_value] is
    not reached and the constraint keeps its sides. *)
Definition scale_constraint
    (scaling_factor : num) (lower upper : option num) (equality : bool)
    (dual : option num)
    : exn + (option num * option num * option num) :=
  let lower := match lower with
               | Some x => Some (num_mul x scaling_factor)
               | None => None
               end in
  let upper := match upper with
               | Some x => Some (num_mul x scaling_factor)
               | None => None
               end in
  let '(lower, upper) :=
    if num_ltb scaling_factor num_0 then (upper, lower) else (lower, upper) in
  bind_r match dual with
         | Some dual_value =>
             bind_r (num_div dual_value scaling_factor) (fun x => inr (Some x))
         | None => inr None
         end (fun dual =>
  inr (if equality then (lower, lower, dual) else (lower, upper, dual))).

(** [lb <= ub] for two bounds that are both present and finite. *)
Definition ordered_bounds (lb ub : option num) : Prop :=
  match lb, ub with
  | Some (Fin p), Some (Fin q) => (p <= q)%Q
  | _, _ => False
  end.

(** A block with no component of the requested name, or with one that is
    no [Suffix]. *)
Definition no_suffix (b : block) : Prop :=
  match block_component b with
  | Some (true, _) => False
  | _ => True
  end.

(** No [Suffix] of the blocks [bs] has the key [k]. *)
Definition key_absent (k : suffix_key) (bs : list block) : Prop :=
  forall b s, In b bs -> block_component b = Some (true, s) ->
    suffix_get k s = None.

(** A component [x[7]] of the indexed variable [x] (identity 3), on a
    block whose suffix holds values for the component and as default, in a
    model whose suffix holds values for the component and its container. *)
Definition inner_block : block :=
  mkBlock (Some (true, [(KComp 7, PyNum (of_Z 2)); (KNone, PyNum (of_Z 9))])).
Definition outer_block : block :=
  mkBlock (Some (true, [(KComp 7, PyNum (of_Z 5)); (KComp 3, PyNum (of_Z 4))])).
Definition indexed_component : component_data :=
  mkComponent 7 3 "x[7]" [inner_block; outer_block].

(** The same component when only its container and a default have
    values, and when only a default has. *)
Definition container_block : block :=
  mkBlock (Some (true, [(KComp 3, PyNum (of_Z 4)); (KNone, PyNum (of_Z 8))])).
Definition default_block : block :=
  mkBlock (Some (true, [(KNone, PyNum (of_Z 9))])).
Definition component_with_container_value : component_data :=
  mkComponent 7 3 "x[7]" [default_block; container_block].
Definition component_with_defaults : component_data :=
  mkComponent 7 3 "x[7]" [default_block; mkBlock (Some (true, [(KNone, PyNum (of_Z 8))]))].

(** A component under a block whose [scaling_factor] is no [Suffix]. *)
Definition component_under_plain_blocks : component_data :=
  mkComponent 7 3 "x[7]"
    [mkBlock None; mkBlock (Some (false, [(KComp 7, PyNum (of_Z 5))]))].

(** A variable with the bounds [-5, 5] and the value 1. *)
Definition var_minus5_5 : var_data :=
  mkVarData (Some (of_Z (-5))) (Some (of_Z 5)) (Some (of_Z 1)).

(** ** The linear map of a merge *)

(** What [_merge_dict] adds for an entry of [other_dict]: the coefficient
    itself under the test [mult == 1], its product with [mult] otherwise. *)
Definition merged_coef (mult coef : num) : num :=
  if num_eqb mult num_1 then coef else num_mul mult coef.

(** One iteration of either loop of [_merge_dict]. *)
Definition merge_entry (mult : num) (self_dict : dict) (kv : nat * num) : dict :=
  match dict_get (fst kv) self_dict with
  | Some c => dict_set (fst kv) (num_add c (merged_coef mult (snd kv))) self_dict
  | None => dict_set (fst kv) (merged_coef mult (snd kv)) self_dict
  end.

(** [3x + 2y] merged with [-3x + 4z] (variables 0, 1 and 2). *)
Definition dict_3x_2y : dict := [(0, of_Z 3); (1, of_Z 2)].
Definition dict_m3x_4z : dict := [(0, of_Z (-3)); (2, of_Z 4)].

(** ** The variable registry and the linear maps of the store *)

(** The two dictionaries of the registry fit each other: they have the
    same keys, and [var_order] numbers them 0, 1, ..., each number once. *)
Record registry_ok (vm vo : gmap nat nat) : Prop := mkRegistryOk {
  reg_dom : forall v, is_Some (vm !! v) <-> is_Some (vo !! v);
  reg_bound : forall v i, vo !! v = Some i -> i < size vo;
  reg_inj : forall v w i, vo !! v = Some i -> vo !! w = Some i -> v = w;
  reg_surj : forall i, i < size vo -> exists v, vo !! v = Some i;
}.

(** Every entry of the registry [s] is an entry of the registry [s']. *)
Definition registry_extends (s s' : visitor) : Prop :=
  var_map s ⊆ var_map s' /\ var_order s ⊆ var_order s'.

(** A linear map has each key once, and each key is registered. *)
Definition dict_ok (vm : gmap nat nat) (d : dict) : Prop :=
  NoDup (dict_keys d) /\ forall k, k ∈ dict_keys d -> is_Some (vm !! k).

Definition store_ok (s : visitor) : Prop :=
  forall l o, heap s !! l = Some o -> dict_ok (var_map s) (linear o).

Definition visitor_ok (s : visitor) : Prop :=
  registry_ok (var_map s) (var_order s) /\ store_ok s.

(** From [s] to [s'] the registry was extended, and a registry and a store
    that were well formed still are. *)
Definition grows (s s' : visitor) : Prop :=
  visitor_ok s -> visitor_ok s' /\ registry_extends s s'.

Definition growing {A} (m : M A) : Prop :=
  forall s, match m s with Ok _ s' | Raise _ s' => grows s s' end.

(** The linear map of [o] is empty or the linear map of an object of the
    store of [s0]. *)
Definition known (s0 : visitor) (o : LinearRepn) : Prop :=
  linear o = [] \/ exists l0 o0, heap s0 !! l0 = Some o0 /\ linear o = linear o0.

(** [s] has the registry of [s0] and no linear map that [s0] has not. *)
Definition same_linear (s0 s : visitor) : Prop :=
  var_map s = var_map s0 /\ var_order s = var_order s0 /\
  forall l o, heap s !! l = Some o -> known s0 o.

(** A computation that neither touches the registry nor builds a linear
    map, whether it returns or raises. *)
Definition keeps_linear_from {A} (s0 : visitor) (m : M A) : Prop :=
  forall s, same_linear s0 s ->
    match m s with Ok _ s' | Raise _ s' => same_linear s0 s' end.

Definition keeps_linear {A} (m : M A) : Prop :=
  forall s0, keeps_linear_from s0 m.

(** The locals of the loop of [_before_linear] are well formed. *)
Definition loop_ok (st : linear_loop) : Prop :=
  registry_ok (ll_var_map st) (ll_var_order st) /\
  ll_next_i st = size (ll_var_order st) /\
  dict_ok (ll_var_map st) (ll_linear st).

(** The accumulator of every sum that the walker has entered has the
    multiplier 1. *)
Definition accumulators_plain (s : visitor) (st : list frame) : Prop :=
  forall fr r, fr ∈ st -> f_data fr = DResult r ->
    exists o, heap s !! r = Some o /\ multiplier o = num_1.

(** ** Nodes without exit handler *)

(** A frame of a monomial term or of a linear expression:
    [_exit_node_handlers] has no entry for either class. *)
Definition unhandled (fr : frame) : Prop :=
  match f_node fr, f_data fr with
  | Monomial _ _, DList _ | Linear _, DList _ => True
  | _, _ => False
  end.

(** The evaluation that [_before_linear] attempts for [arg] raises. *)
Definition evaluation_fails (E : env) (arg : expr) : Prop :=
  match arg with
  | Monomial c _ => exists err, coef_value E c = inl err
  | Native _ => False
  | _ => exists err, call E arg = inl err
  end.

(** [(1/0) * x] with parameters 1 and 0, alone and as the second term of a
    linear expression. *)
Definition one_over_zero_times_x : expr :=
  Monomial (Division (Param (of_Z 1)) (Param (of_Z 0))) 0.
Definition y_plus_one_over_zero_times_x : expr :=
  Linear [Monomial (Native (of_Z 1)) 1; one_over_zero_times_x].

(** A driver that holds [x] with the coefficient 3, and a cache entry for
    the named expression 9. *)
Definition visitor_with_3x : visitor :=
  set_heap [mkRepn num_1 num_0 [(0, of_Z 3)] None] visitor_with_x.
Definition visitor_with_cached_3x : visitor :=
  set_cache (<[9 := (LINEAR, PRef 0)]> ∅) visitor_with_3x.

(** ** The length of a walk *)

Fixpoint expr_size (e : expr) : nat :=
  match e with
  | Native _ | Var _ | Param _ => 1
  | Negation a | Unary _ a | Named _ a => S (expr_size a)
  | Product a b | Division a b | Pow a b => S (expr_size a + expr_size b)
  | Expr_if c t f => S (expr_size c + expr_size t + expr_size f)
  | Monomial c _ => S (S (expr_size c))
  | Linear l | Sum l | External _ l =>
      S ((fix sizes (l : list expr) : nat :=
            match l with
            | [] => 0
            | x :: l' => expr_size x + sizes l'
            end) l)
  end.

(** The walk is over: it has returned a result or raised. *)
Definition finished (x : outcome (config + nat)) : Prop :=
  match x with
  | Ok (inl _) _ => False
  | _ => True
  end.

(** The visit of a child is over: it raised, or its classification is
    handed to the nodes [st] that were entered before it. *)
Definition returns_to (st : list frame) (x : outcome (config + nat)) : Prop :=
  match x with
  | Ok (inl c) _ => exists r, c = mkConfig st (Return r)
  | Ok (inr _) _ => False
  | Raise _ _ => True
  end.

(** ** The entries of the cache *)

(** A computation that leaves the cache as it is, whether it returns or
    raises. *)
Definition keeps_cache {A} (m : M A) : Prop :=
  forall s, match m s with
            | Ok _ s' | Raise _ s' => subexpression_cache s' = subexpression_cache s
            end.

(** The cache of [s] holds every entry of [cache0], and no node that the
    walker has entered is a named expression with an entry in [cache0]. *)
Definition cache_kept (cache0 : gmap nat res) (s : visitor) (c : config) : Prop :=
  cache0 ⊆ subexpression_cache s /\
  forall fr id e, fr ∈ stack c -> f_node fr = Named id e -> cache0 !! id = None.

(** The terms of the linear expressions [3*x + y + 5] and
    [3*x + (1/0)*x] (variables 0 and 1 are [x] and [y]). *)
Definition three_x_plus_y_plus_5 : list expr :=
  [Monomial (Native (of_Z 3)) 0; Monomial (Native (of_Z 1)) 1; Native (of_Z 5)].
Definition three_x_plus_failing_term : list expr :=
  [Monomial (Native (of_Z 3)) 0; one_over_zero_times_x].
(** ** Store lemmas *)

Lemma insert_fresh_cell (h : list LinearRepn) (o o' : LinearRepn) :
  <[length h := o']> (h ++ [o]) = h ++ [o'].
Proof.
  rewrite insert_app_r_alt by lia.
  replace (length h - length h) with 0 by lia. reflexivity.
Qed.

Lemma lookup_fresh_cell (h : list LinearRepn) (o : LinearRepn) :
  (h ++ [o]) !! length h = Some o.
Proof.
  rewrite lookup_app_r by lia.
  replace (length h - length h) with 0 by lia. reflexivity.
Qed.

(** ** Finalization *)

Lemma finalizeResult_keeps_multiplier_and_constant t r s o :
  heap s !! r = Some o ->
  exists s' o',
    finalizeResult (t, PRef r) s = Ok r s' /\
    heap s' !! r = Some o' /\
    multiplier o' = multiplier o /\ constant o' = constant o.
Proof.
  intros Hr. unfold finalizeResult. munfold.
  rewrite Hr.
  assert (Hlt : r < length (heap s)) by (eapply lookup_lt_Some; eauto).
  destruct (num_eqb (multiplier o) num_1); eexists _, _;
    (split; [reflexivity|]); simpl;
    rewrite list_lookup_insert_eq by assumption; auto.
Qed.

(** C1: walking [2 * (x + 3)] returns a result whose multiplier is still 2
    and whose constant is still 3: finalization scaled the coefficient of
    [x] but neither the constant nor the multiplier itself. *)
Theorem finalizeResult_leaves_multiplier_pending :
  final_repn (walk_expression free_env 20 two_times_x_plus_3 new_visitor)
  = Some (mkRepn (of_Z 2) (of_Z 3) [(0, of_Z 2)] None).
Proof. vm_compute. reflexivity. Qed.

(** ** Conditionals with a fixed test *)

Lemma _before_expr_if_raises E test t f s v :
  is_fixed E test = true ->
  call E test = inr v ->
  _before_expr_if E test t f s = Raise (NameError "self") s.
Proof. intros Hf Hc. unfold _before_expr_if. rewrite Hf, Hc. reflexivity. Qed.

(** C2: with a test that evaluates to true, the walk of
    [Expr_if(test, x, y)] does not classify the selected branch: it raises
    [NameError] before anything is registered; and when the test is a
    native constant the node is descended into and both [x] and [y] are
    registered. *)
Theorem before_expr_if_does_not_select_branch :
  let a := walk_expression free_env 20 if_param_x_y new_visitor in
  let b := walk_expression free_env 20 if_native_x_y new_visitor in
  raised a = Some (NameError "self") /\
  var_map (final_state a) !! 0 = None /\
  (exists ans, b = Ok (inr ans) (final_state b)) /\
  var_map (final_state b) !! 0 = Some 0 /\
  var_map (final_state b) !! 1 = Some 1.
Proof. vm_compute. repeat split; eauto. Qed.

(** ** External functions *)

Lemma _before_external_eq E child s :
  _before_external E child s =
  Ok (false, Some (GENERAL, PRef (length (heap s))))
     (set_heap (heap s ++ [set_nonlinear (Some child) Result]) s).
Proof.
  unfold _before_external. munfold.
  destruct (forallb (is_fixed E) (args child)); simpl;
    rewrite lookup_fresh_cell; simpl; rewrite insert_fresh_cell; reflexivity.
Qed.

(** C3: [_before_external] never descends, and whatever the arguments
    are, fixed or not, it classifies the call GENERAL with the call itself
    as the nonlinear part; the CONSTANT classification is never
    produced. *)
Theorem before_external_always_general E child s :
  _before_external E child s =
  Ok (false, Some (GENERAL, PRef (length (heap s))))
     (set_heap (heap s ++ [set_nonlinear (Some child) Result]) s).
Proof. apply _before_external_eq. Qed.

(** A call whose only argument is a fixed variable. *)
Example before_external_fixed_argument :
  forallb (is_fixed fixed_env) (args (External "f" [Var 0])) = true /\
  _before_external fixed_env (External "f" [Var 0]) new_visitor =
  Ok (false, Some (GENERAL, PRef 0))
     (set_heap [mkRepn num_1 num_0 [] (Some (External "f" [Var 0]))] new_visitor).
Proof. split; reflexivity. Qed.

(** ** Products with a constant operand *)

Lemma _handle_product_constant_ANY_short_circuit t x arg2 s :
  is_zero x = true \/ is_nan x = true ->
  _handle_product_constant_ANY (t, PNum x) arg2 s = Ok (CONSTANT, PNum x) s.
Proof.
  intros H. unfold _handle_product_constant_ANY, truthy. munfold.
  destruct H as [H|H]; rewrite H; simpl; [reflexivity|].
  rewrite orb_true_r. reflexivity.
Qed.

Lemma _handle_product_ANY_constant_short_circuit t y arg1 s :
  is_zero y = true \/ is_nan y = true ->
  _handle_product_ANY_constant arg1 (t, PNum y) s = Ok (CONSTANT, PNum y) s.
Proof.
  intros H. unfold _handle_product_ANY_constant, truthy. munfold.
  destruct H as [H|H]; rewrite H; simpl; [reflexivity|].
  rewrite orb_true_r. reflexivity.
Qed.

Lemma _handle_product_constant_ANY_scales t x t2 r s o :
  is_zero x = false -> is_nan x = false ->
  heap s !! r = Some o ->
  _handle_product_constant_ANY (t, PNum x) (t2, PRef r) s =
  Ok (t2, PRef r)
     (set_heap (<[r := set_multiplier (num_mul (multiplier o) x) o]> (heap s)) s).
Proof.
  intros Hz Hn Hr.
  unfold _handle_product_constant_ANY, truthy. munfold.
  rewrite Hz, Hn; simpl. rewrite Hr. reflexivity.
Qed.

(** C4: a zero or NaN constant operand short-circuits the product to that
    constant and leaves the other operand untouched, any other constant
    scales the other operand's multiplier, and [nan * x] classifies as the
    constant NaN; but the walk of [0 * (1/0)] does not return: the
    division of the two constants raises [ZeroDivisionError]. *)
Theorem product_by_constant_and_zero_times_one_over_zero :
  (forall t x arg2 s, is_zero x = true \/ is_nan x = true ->
     _handle_product_constant_ANY (t, PNum x) arg2 s = Ok (CONSTANT, PNum x) s) /\
  (forall t x t2 r s o, is_zero x = false -> is_nan x = false ->
     heap s !! r = Some o ->
     _handle_product_constant_ANY (t, PNum x) (t2, PRef r) s =
     Ok (t2, PRef r)
        (set_heap (<[r := set_multiplier (num_mul (multiplier o) x) o]> (heap s)) s)) /\
  final_repn (walk_expression free_env 20 nan_times_x new_visitor)
    = Some (mkRepn num_1 NaN [] None) /\
  raised (walk_expression free_env 20 zero_times_one_over_zero new_visitor)
    = Some ZeroDivisionError.
Proof.
  split; [|split; [|split]].
  - intros. by apply _handle_product_constant_ANY_short_circuit.
  - intros. by apply _handle_product_constant_ANY_scales.
  - vm_compute. reflexivity.
  - vm_compute. reflexivity.
Qed.

(** ** Zero-coefficient pruning *)

Lemma del_all_cons_notin ks kv (d : dict) :
  fst kv ∉ ks -> del_all ks (kv :: d) = kv :: del_all ks d.
Proof.
  revert kv d. induction ks as [|k ks IH]; intros kv d Hn; [reflexivity|].
  unfold del_all in *; simpl. destruct kv as [k' v']; simpl in *.
  destruct (Nat.eqb_spec k k') as [->|Hne].
  - exfalso. apply Hn. left.
  - apply IH. intros Hin. apply Hn. right. exact Hin.
Qed.

Lemma zeros_keys (d : dict) k : k ∈ zeros d -> k ∈ dict_keys d.
Proof.
  unfold zeros, dict_keys. induction d as [|[k' v'] d IH]; simpl; [done|].
  destruct (negb (truthy v')); simpl; rewrite ?elem_of_cons; intros H.
  - destruct H; [by left | right; auto].
  - right; auto.
Qed.

Lemma del_all_zeros (g : nat * num -> nat * num) (d : dict) :
  (forall kv, fst (g kv) = fst kv) ->
  NoDup (dict_keys d) ->
  del_all (zeros d) (map g d) = map g (nonzero_entries d).
Proof.
  intros Hg. induction d as [|[k v] d IH]; intros Hnd; [reflexivity|].
  apply NoDup_cons in Hnd as [Hk Hnd].
  unfold zeros, nonzero_entries in *; simpl.
  destruct (truthy v) eqn:Hv; simpl.
  - rewrite del_all_cons_notin.
    + f_equal. by apply IH.
    + rewrite Hg. simpl. intros Hin. apply Hk. by apply zeros_keys.
  - unfold del_all at 1; simpl.
    pose proof (Hg (k, v)) as Hgk. destruct (g (k, v)) as [k' v'] eqn:Hgkv.
    simpl in Hgk. subst k'. rewrite Nat.eqb_refl. by apply IH.
Qed.

Lemma dict_get_notin (k : nat) (d : dict) :
  k ∉ dict_keys d -> dict_get k d = None.
Proof.
  induction d as [|[k' v'] d IH]; simpl; [done|]. intros Hn.
  destruct (Nat.eqb_spec k k') as [->|Hne].
  - exfalso. apply Hn. left.
  - apply IH. intros Hin. apply Hn. by right.
Qed.

Lemma nonzero_entries_keys (g : nat * num -> nat * num) (d : dict) k :
  (forall kv, fst (g kv) = fst kv) ->
  k ∈ dict_keys (map g (nonzero_entries d)) -> k ∈ dict_keys d.
Proof.
  intros Hg. unfold dict_keys, nonzero_entries.
  induction d as [|[k' v'] d IH]; simpl; [done|].
  destruct (truthy v'); simpl; rewrite ?elem_of_cons; intros H.
  - destruct H as [H|H]; [left | right; auto].
    rewrite Hg in H. exact H.
  - right; auto.
Qed.

Lemma dict_get_zero_dropped (g : nat * num -> nat * num) (d : dict) k c :
  (forall kv, fst (g kv) = fst kv) ->
  NoDup (dict_keys d) ->
  dict_get k d = Some c -> is_zero c = true ->
  dict_get k (map g (nonzero_entries d)) = None.
Proof.
  intros Hg. induction d as [|[k' v'] d IH]; simpl; [done|].
  intros Hnd Hget Hz. apply NoDup_cons in Hnd as [Hk Hnd].
  unfold nonzero_entries; simpl.
  destruct (Nat.eqb_spec k k') as [->|Hne].
  - injection Hget as ->. unfold truthy. rewrite Hz. simpl.
    apply dict_get_notin. intros Hin. apply Hk.
    eapply nonzero_entries_keys; eauto.
  - destruct (truthy v'); simpl.
    + pose proof (Hg (k', v')) as Hgk. destruct (g (k', v')) as [k2 v2].
      simpl in Hgk. subst k2.
      destruct (Nat.eqb_spec k k'); [contradiction|]. by apply IH.
    + by apply IH.
Qed.

Lemma dict_get_nonzero_kept (g : nat * num -> nat * num) (d : dict) k c :
  (forall kv, fst (g kv) = fst kv) ->
  dict_get k d = Some c -> truthy c = true ->
  dict_get k (map g (nonzero_entries d)) = Some (snd (g (k, c))).
Proof.
  intros Hg. induction d as [|[k' v'] d IH]; simpl; [done|].
  intros Hget Hz. unfold nonzero_entries; simpl.
  destruct (Nat.eqb_spec k k') as [->|Hne].
  - injection Hget as ->. rewrite Hz. simpl.
    pose proof (Hg (k', c)) as Hgk. destruct (g (k', c)) as [k2 v2].
    simpl in *. subst k2. by rewrite Nat.eqb_refl.
  - destruct (truthy v'); simpl.
    + pose proof (Hg (k', v')) as Hgk. destruct (g (k', v')) as [k2 v2].
      simpl in Hgk. subst k2.
      destruct (Nat.eqb_spec k k'); [contradiction|]. by apply IH.
    + by apply IH.
Qed.

Lemma scale_entry_key mult kv : fst (scale_entry mult kv) = fst kv.
Proof. unfold scale_entry. by destruct (truthy (snd kv)). Qed.

(** What finalization leaves in the linear map. *)
Lemma finalizeResult_linear t r s o :
  heap s !! r = Some o ->
  NoDup (dict_keys (linear o)) ->
  exists s' o',
    finalizeResult (t, PRef r) s = Ok r s' /\
    heap s' !! r = Some o' /\
    linear o' =
      if num_eqb (multiplier o) num_1 then nonzero_entries (linear o)
      else map (scale_entry (multiplier o)) (nonzero_entries (linear o)).
Proof.
  intros Hr Hnd. unfold finalizeResult. munfold. rewrite Hr.
  assert (Hlt : r < length (heap s)) by (eapply lookup_lt_Some; eauto).
  destruct (num_eqb (multiplier o) num_1); eexists _, _;
    (split; [reflexivity|]); simpl;
    rewrite list_lookup_insert_eq by assumption; (split; [reflexivity|]); simpl.
  - rewrite <- (map_id (nonzero_entries (linear o))).
    rewrite <- (map_id (linear o)) at 2.
    by apply del_all_zeros.
  - apply del_all_zeros; [apply scale_entry_key | exact Hnd].
Qed.

(** C5, as amended: finalization drops every entry whose stored coefficient
    is exactly zero and keeps every entry whose coefficient is NaN (with
    multiplier 1 it keeps exactly the entries with a nonzero coefficient,
    in their order); [x - x] yields the constant 0 with an empty linear
    map; [x*0 + x*nan] yields the constant NaN with an empty linear map,
    the NaN being carried by the constant. *)
Theorem finalizeResult_prunes_zero_coefficients :
  (forall t r s o,
     heap s !! r = Some o ->
     NoDup (dict_keys (linear o)) ->
     exists s' o',
       finalizeResult (t, PRef r) s = Ok r s' /\
       heap s' !! r = Some o' /\
       (forall k c, dict_get k (linear o) = Some c -> is_zero c = true ->
                    dict_get k (linear o') = None) /\
       (forall k, dict_get k (linear o) = Some NaN ->
                  dict_get k (linear o') = Some NaN) /\
       (num_eqb (multiplier o) num_1 = true ->
        linear o' = nonzero_entries (linear o))) /\
  final_repn (walk_expression free_env 20 x_minus_x new_visitor)
    = Some (mkRepn num_1 num_0 [] None) /\
  final_repn (walk_expression free_env 20 x_plus_neg_x new_visitor)
    = Some (mkRepn num_1 num_0 [] None) /\
  final_repn (walk_expression free_env 20 x_zero_plus_x_nan new_visitor)
    = Some (mkRepn num_1 NaN [] None) /\
  final_repn (walk_expression free_env 30 x_zero_plus_x_nan_products new_visitor)
    = Some (mkRepn num_1 NaN [] None).
Proof.
  split; [|repeat split; vm_compute; reflexivity].
  intros t r s o Hr Hnd.
  destruct (finalizeResult_linear t r s o Hr Hnd) as (s' & o' & Hf & Ho' & Hl).
  exists s', o'. repeat split; try assumption.
  - intros k c Hk Hz. rewrite Hl.
    destruct (num_eqb (multiplier o) num_1).
    + rewrite <- (map_id (nonzero_entries (linear o))).
      eapply dict_get_zero_dropped; eauto.
    + eapply dict_get_zero_dropped; eauto using scale_entry_key.
  - intros k Hk. rewrite Hl.
    destruct (num_eqb (multiplier o) num_1).
    + rewrite <- (map_id (nonzero_entries (linear o))).
      by rewrite (dict_get_nonzero_kept id _ k NaN).
    + rewrite (dict_get_nonzero_kept _ _ k NaN); auto using scale_entry_key.
  - intros Hm. by rewrite Hl, Hm.
Qed.

Lemma finalizeResult_prunes_zero_coefficients_witness :
  exists s' o',
    finalizeResult (LINEAR, PRef 0)
      (set_heap [mkRepn num_1 num_0 [(0, num_0); (1, NaN)] None] new_visitor)
    = Ok 0 s' /\
    heap s' !! 0 = Some o' /\ linear o' = [(1, NaN)].
Proof.
  destruct (proj1 finalizeResult_prunes_zero_coefficients LINEAR 0
              (set_heap [mkRepn num_1 num_0 [(0, num_0); (1, NaN)] None] new_visitor)
              (mkRepn num_1 num_0 [(0, num_0); (1, NaN)] None))
    as (s' & o' & Hf & Ho & _ & _ & Hl).
  - reflexivity.
  - apply NoDup_ListNoDup. simpl. repeat constructor; simpl; lia.
  - exists s', o'. repeat split; try assumption. by apply Hl.
Defined.

(** C5, as stated, fails on [x*0 + x*nan]: the result has no entry for
    [x] in its linear map, NaN or otherwise. *)
Lemma nan_term_is_not_kept_in_linear_map :
  ~ (exists o c,
       final_repn (walk_expression free_env 20 x_zero_plus_x_nan new_visitor)
         = Some o /\
       dict_get 0 (linear o) = Some c /\ is_nan c = true).
Proof.
  intros (o & c & Ho & Hc & _). vm_compute in Ho.
  injection Ho as <-. discriminate Hc.
Qed.

(** With [x / inf] the multiplier becomes zero, and the entry of [x] is
    kept with the final coefficient zero. *)
Example zero_multiplier_keeps_entry :
  final_repn (walk_expression free_env 20 x_over_inf new_visitor)
  = Some (mkRepn num_0 num_0 [(0, num_0)] None).
Proof. vm_compute. reflexivity. Qed.

(** The two end-to-end examples of the specification. *)
Example affine_example :
  final_repn (walk_expression free_env 30 three_x_two_y_minus_three_x_plus_5
                new_visitor)
  = Some (mkRepn num_1 (of_Z 5) [(1, of_Z 2)] None).
Proof. vm_compute. reflexivity. Qed.

Example product_of_sums_example :
  final_repn (walk_expression free_env 30 x_plus_1_times_y_plus_1 new_visitor)
  = Some (mkRepn num_1 num_0 []
            (Some (Product
                     (Sum [Linear [Monomial (Native num_1) 0]; Native (of_Z 1)])
                     (Sum [Linear [Monomial (Native num_1) 1]; Native (of_Z 1)])))).
Proof. vm_compute. reflexivity. Qed.

(** ** Reconstruction and re-classification *)

(** C7: the result of [2 * (x + 3)] has the linear map [{x: 2}]; the
    expression reconstructed from it classifies with the linear map
    [{x: 4}], because the multiplier that finalization left in the result
    is applied a second time. *)
Theorem reclassification_scales_coefficients_again :
  final_repn (walk_expression free_env 20 two_times_x_plus_3 new_visitor)
    = Some (mkRepn (of_Z 2) (of_Z 3) [(0, of_Z 2)] None) /\
  final_repn (reclassify free_env 20 two_times_x_plus_3 new_visitor)
    = Some (mkRepn (of_Z 2) (of_Z 3) [(0, of_Z 4)] None).
Proof. split; vm_compute; reflexivity. Qed.

(** ** The scaling factor of a component *)

Lemma scaling_factor_default parse_float float_of_int py_str cd :
  _suffix_finder cd = PyNone ->
  _get_float_scaling_factor parse_float float_of_int py_str cd = inr num_1.
Proof. intros H. unfold _get_float_scaling_factor. by rewrite H. Qed.

Lemma scaling_factor_value_error parse_float float_of_int py_str cd m :
  py_float parse_float float_of_int (_suffix_finder cd) = inl (ValueError m) ->
  _get_float_scaling_factor parse_float float_of_int py_str cd =
  inl (ValueError (scaling_factor_message py_str (_suffix_finder cd) cd)).
Proof.
  intros H. unfold _get_float_scaling_factor.
  destruct (_suffix_finder cd); simpl in *; try discriminate.
  - by destruct (float_of_int z).
  - by destruct (parse_float s).
Qed.

Lemma scaling_factor_other_error parse_float float_of_int py_str cd e :
  _suffix_finder cd <> PyNone ->
  py_float parse_float float_of_int (_suffix_finder cd) = inl e ->
  (forall m, e <> ValueError m) ->
  _get_float_scaling_factor parse_float float_of_int py_str cd = inl e.
Proof.
  intros Hn He Hv. unfold _get_float_scaling_factor.
  destruct (_suffix_finder cd); try done; rewrite He; destruct e; try done;
    by destruct (Hv msg).
Qed.

(** C9, as amended: the scaling factor is 1.0 when no suffix value is
    found or the value found is [None]; a value that converts is returned
    converted; a value whose conversion raises [ValueError] (a string that
    is no number) is rejected on the spot with a [ValueError] whose
    message shows the value and the component; every other error of the
    conversion is raised on the spot as it is, without that message:
    [TypeError] for a value, other than [None], of a type that [float]
    does not accept, [OverflowError] for an int beyond the range of the
    floats. *)
Theorem get_float_scaling_factor_cases parse_float float_of_int py_str :
  (forall cd, _suffix_finder cd = PyNone ->
     _get_float_scaling_factor parse_float float_of_int py_str cd = inr num_1) /\
  (forall cd x, _suffix_finder cd <> PyNone ->
     py_float parse_float float_of_int (_suffix_finder cd) = inr x ->
     _get_float_scaling_factor parse_float float_of_int py_str cd = inr x) /\
  (forall cd m,
     py_float parse_float float_of_int (_suffix_finder cd) = inl (ValueError m) ->
     exists msg pre mid post,
       _get_float_scaling_factor parse_float float_of_int py_str cd
         = inl (ValueError msg) /\
       msg = (pre ++ py_str (_suffix_finder cd) ++ mid ++ cd_str cd ++ post)%string) /\
  (forall cd e, _suffix_finder cd <> PyNone ->
     py_float parse_float float_of_int (_suffix_finder cd) = inl e ->
     (forall m, e <> ValueError m) ->
     _get_float_scaling_factor parse_float float_of_int py_str cd = inl e) /\
  (forall cd repr, _suffix_finder cd = PyObj repr ->
     _get_float_scaling_factor parse_float float_of_int py_str cd = inl TypeError) /\
  (forall cd z, _suffix_finder cd = PyInt z -> float_of_int z = None ->
     _get_float_scaling_factor parse_float float_of_int py_str cd
       = inl OverflowError).
Proof.
  split; [|split; [|split; [|split; [|split]]]].
  - intros. by apply scaling_factor_default.
  - intros cd x Hn Hx. unfold _get_float_scaling_factor.
    destruct (_suffix_finder cd); try done; by rewrite Hx.
  - intros cd m H. eexists _, _, _, _. split.
    + eapply scaling_factor_value_error; eauto.
    + unfold scaling_factor_message. reflexivity.
  - intros. by eapply scaling_factor_other_error.
  - intros cd repr H. unfold _get_float_scaling_factor. by rewrite H.
  - intros cd z H Hz. unfold _get_float_scaling_factor. rewrite H. simpl.
    by rewrite Hz.
Qed.

Lemma get_float_scaling_factor_cases_witness :
  _get_float_scaling_factor no_parse float_of_int_example show_text
    component_without_suffix = inr num_1 /\
  _get_float_scaling_factor no_parse float_of_int_example show_text
    component_with_none = inr num_1 /\
  (exists msg pre mid post,
     _get_float_scaling_factor no_parse float_of_int_example show_text
       component_with_text = inl (ValueError msg) /\
     msg = (pre ++ "fast" ++ mid ++ "x" ++ post)%string) /\
  _get_float_scaling_factor no_parse float_of_int_example show_text
    component_with_list = inl TypeError /\
  _get_float_scaling_factor no_parse float_of_int_example show_text
    component_with_huge_int = inl OverflowError.
Proof.
  destruct (get_float_scaling_factor_cases no_parse float_of_int_example show_text)
    as (H1 & _ & H3 & H4 & _ & H6).
  split; [|split; [|split; [|split]]].
  - apply H1. reflexivity.
  - apply H1. reflexivity.
  - apply (H3 component_with_text "could not convert string to float").
    reflexivity.
  - apply (H4 component_with_list TypeError); [done | reflexivity | done].
  - apply (H6 component_with_huge_int (10 ^ 400)%Z); [reflexivity|].
    vm_compute. reflexivity.
Defined.

(** C9, as stated, fails for a suffix value that is a list: it cannot be
    converted, and the error raised is not the descriptive [ValueError]. *)
Lemma list_scaling_factor_raises_type_error :
  py_float no_parse float_of_int_example (_suffix_finder component_with_list)
    = inl TypeError /\
  ~ (exists msg,
       _get_float_scaling_factor no_parse float_of_int_example show_text
         component_with_list
       = inl (ValueError msg)).
Proof.
  split; [reflexivity|]. intros [msg H]. vm_compute in H. discriminate H.
Qed.

(** ** Variables that are already registered *)

Lemma _before_var_registered E v s :
  is_Some (var_map s !! v) ->
  _before_var E v s =
  Ok (false, Some (LINEAR, PRef (length (heap s))))
     (set_heap (heap s ++ [mkRepn num_1 num_0 [(v, num_1)] None]) s).
Proof.
  intros [x Hx]. unfold _before_var. munfold. rewrite Hx. simpl.
  rewrite lookup_fresh_cell. simpl. rewrite insert_fresh_cell. reflexivity.
Qed.

Lemma _before_monomial_registered E c v s x :
  is_Some (var_map s !! v) ->
  coef_value E c = inr x -> is_zero x = false -> is_nan x = false ->
  _before_monomial E c v s =
  Ok (false, Some (LINEAR, PRef (length (heap s))))
     (set_heap (heap s ++ [mkRepn num_1 num_0 [(v, x)] None]) s).
Proof.
  intros [y Hy] Hc Hz Hn. unfold _before_monomial, truthy. munfold.
  rewrite Hc, Hz, Hn. simpl. rewrite Hy. simpl.
  rewrite lookup_fresh_cell. simpl. rewrite insert_fresh_cell. reflexivity.
Qed.

Lemma dict_mem_set k v d : dict_mem k (dict_set k v d) = true.
Proof.
  unfold dict_mem. induction d as [|[k' v'] d IH]; simpl.
  - by rewrite Nat.eqb_refl.
  - destruct (Nat.eqb_spec k k') as [->|Hne]; simpl.
    + by rewrite Nat.eqb_refl.
    + destruct (Nat.eqb_spec k k'); [contradiction|]. exact IH.
Qed.

Lemma dict_mem_set_mono k k' v d :
  dict_mem k d = true -> dict_mem k (dict_set k' v d) = true.
Proof.
  unfold dict_mem. induction d as [|[k2 v2] d IH]; simpl; [done|].
  destruct (Nat.eqb_spec k k2) as [->|Hne]; simpl.
  - destruct (Nat.eqb k' k2); simpl; by rewrite Nat.eqb_refl.
  - intros H. destruct (Nat.eqb k' k2); simpl;
      destruct (Nat.eqb_spec k k2); try contradiction; auto.
Qed.

(** An iteration of the loop of [_before_linear] never removes a key from
    the linear map nor a variable from the registry. *)
Lemma _before_linear_arg_mono E arg st st' b v :
  _before_linear_arg E arg st = (st', b) ->
  (dict_mem v (ll_linear st) = true -> dict_mem v (ll_linear st') = true) /\
  (is_Some (ll_var_map st !! v) -> is_Some (ll_var_map st' !! v)).
Proof.
  unfold _before_linear_arg. intros H.
  repeat match type of H with
         | context [match ?x with _ => _ end] => destruct x eqn:?
         | context [if ?x then _ else _] => destruct x eqn:?
         end;
    injection H as <- <-; simpl; split; auto using dict_mem_set_mono.
  intros Hs. destruct (decide (v = v0)) as [->|Hne].
  - rewrite lookup_insert_eq. eauto.
  - by rewrite lookup_insert_ne.
Qed.

Lemma _before_linear_loop_mono E l st st' b v :
  _before_linear_loop E l st = (st', b) ->
  (dict_mem v (ll_linear st) = true -> dict_mem v (ll_linear st') = true) /\
  (is_Some (ll_var_map st !! v) -> is_Some (ll_var_map st' !! v)).
Proof.
  revert st. induction l as [|arg l IH]; simpl; intros st H.
  - injection H as <- <-. auto.
  - destruct (_before_linear_arg E arg st) as [st1 [|]] eqn:Harg.
    + destruct (_before_linear_arg_mono _ _ _ _ _ v Harg) as [H1 H2].
      destruct (IH _ H) as [H3 H4]. auto.
    + injection H as <- <-.
      exact (_before_linear_arg_mono _ _ _ _ _ v Harg).
Qed.

Lemma _before_linear_arg_registered E c v st x :
  is_Some (ll_var_map st !! v) ->
  coef_value E c = inr x -> is_zero x = false -> is_nan x = false ->
  exists st', _before_linear_arg E (Monomial c v) st = (st', true) /\
              dict_mem v (ll_linear st') = true.
Proof.
  intros [y Hy] Hc Hz Hn. unfold _before_linear_arg, truthy.
  rewrite Hc, Hz, Hn, Hy. simpl.
  destruct (dict_get v (ll_linear st)); eexists; split; try reflexivity;
    simpl; apply dict_mem_set.
Qed.

Lemma _before_linear_loop_registered E l c v st st' x :
  In (Monomial c v) l ->
  is_Some (ll_var_map st !! v) ->
  coef_value E c = inr x -> is_zero x = false -> is_nan x = false ->
  _before_linear_loop E l st = (st', true) ->
  dict_mem v (ll_linear st') = true.
Proof.
  intros Hin Hreg Hc Hz Hn. revert st Hreg.
  induction l as [|arg l IH]; simpl in *; [done|]. intros st Hreg H.
  destruct (_before_linear_arg E arg st) as [st1 [|]] eqn:Harg; [|discriminate].
  destruct Hin as [->|Hin].
  - destruct (_before_linear_arg_registered E c v st x Hreg Hc Hz Hn)
      as (st2 & H2 & Hm).
    rewrite H2 in Harg. injection Harg as ->.
    by apply (_before_linear_loop_mono _ _ _ _ _ v H).
  - apply (IH Hin st1); [|exact H].
    by apply (_before_linear_arg_mono _ _ _ _ _ v Harg).
Qed.

Lemma _before_linear_registered E l c v s s' x r :
  In (Monomial c v) l ->
  is_Some (var_map s !! v) ->
  coef_value E c = inr x -> is_zero x = false -> is_nan x = false ->
  _before_linear E l s = Ok (false, Some r) s' ->
  exists a o, r = (LINEAR, PRef a) /\ heap s' !! a = Some o /\
              dict_mem v (linear o) = true.
Proof.
  intros Hin Hreg Hc Hz Hn. unfold _before_linear. munfold.
  destruct (_before_linear_loop E l _) as [st fin] eqn:Hloop.
  destruct fin; [|discriminate].
  assert (Hm : dict_mem v (ll_linear st) = true).
  { eapply _before_linear_loop_registered;
      [exact Hin | | exact Hc | exact Hz | exact Hn | exact Hloop].
    exact Hreg. }
  destruct (ll_linear st) as [|kv d] eqn:Hl; [discriminate Hm|].
  simpl. rewrite lookup_fresh_cell. simpl. rewrite insert_fresh_cell.
  intros H. injection H as <- <-.
  eexists _, _. split; [reflexivity|]. simpl.
  rewrite lookup_fresh_cell. split; [reflexivity|]. exact Hm.
Qed.

(** The classifiers read the state of a variable only when the registry
    does not hold it. *)
Lemma _before_var_agree E E' v s :
  agree_unregistered (var_map s) E E' ->
  _before_var E v s = _before_var E' v s.
Proof.
  intros Ha. unfold _before_var. munfold.
  destruct (var_map s !! v) eqn:Hv; [reflexivity|].
  destruct (Ha v Hv) as [-> ->]. reflexivity.
Qed.

Lemma _before_monomial_agree E E' c v s :
  agree_unregistered (var_map s) E E' ->
  coef_value E c = coef_value E' c ->
  _before_monomial E c v s = _before_monomial E' c v s.
Proof.
  intros Ha Hc. unfold _before_monomial. munfold. rewrite Hc.
  destruct (coef_value E' c); [reflexivity|].
  destruct (negb (truthy n) || is_nan n); [reflexivity|].
  destruct (var_map s !! v) eqn:Hv; [reflexivity|].
  destruct (Ha v Hv) as [-> ->]. reflexivity.
Qed.

Lemma _before_linear_arg_agree E E' arg st :
  agree_unregistered (ll_var_map st) E E' ->
  same_evaluations E E' [arg] ->
  _before_linear_arg E arg st = _before_linear_arg E' arg st.
Proof.
  intros Ha Hs. specialize (Hs arg (or_introl eq_refl)).
  unfold _before_linear_arg.
  destruct arg; try (rewrite Hs; reflexivity); try reflexivity.
  rewrite Hs. destruct (coef_value E' arg); [reflexivity|].
  destruct (negb (truthy n)); [reflexivity|].
  destruct (is_nan n); [reflexivity|].
  destruct (ll_var_map st !! v) eqn:Hv; [reflexivity|].
  destruct (Ha v Hv) as [-> ->]. reflexivity.
Qed.

Lemma _before_linear_loop_agree E E' l st :
  agree_unregistered (ll_var_map st) E E' ->
  same_evaluations E E' l ->
  _before_linear_loop E l st = _before_linear_loop E' l st.
Proof.
  revert st. induction l as [|arg l IH]; intros st Ha Hs; [reflexivity|].
  simpl. rewrite <- (_before_linear_arg_agree E E' arg st Ha).
  2:{ intros a [<-|[]]. apply Hs. by left. }
  destruct (_before_linear_arg E arg st) as [st1 [|]] eqn:Harg; [|reflexivity].
  apply IH.
  - intros v Hv. apply Ha.
    destruct (ll_var_map st !! v) eqn:Hst; [|reflexivity].
    destruct (proj2 (_before_linear_arg_mono _ _ _ _ _ v Harg)) as [y Hy]; eauto.
    congruence.
  - intros a Hin. apply Hs. by right.
Qed.

Lemma _before_linear_agree E E' l s :
  agree_unregistered (var_map s) E E' ->
  same_evaluations E E' l ->
  _before_linear E l s = _before_linear E' l s.
Proof.
  intros Ha Hs. unfold _before_linear. munfold.
  by rewrite (_before_linear_loop_agree E E' l
                (mkLoop num_0 [] (size (var_order s)) (var_map s) (var_order s))
                Ha Hs).
Qed.

Lemma _before_linear_loop_fails E l st arg :
  arg ∈ l -> evaluation_fails E arg ->
  snd (_before_linear_loop E l st) = false.
Proof.
  revert st. induction l as [|a l IH]; intros st Hin Hfail.
  - by apply elem_of_nil in Hin.
  - simpl. destruct (_before_linear_arg E a st) as [st1 [|]] eqn:Ha; [|done].
    apply elem_of_cons in Hin as [->|Hin]; [|by apply IH].
    exfalso. unfold _before_linear_arg, evaluation_fails in *.
    destruct a; try done; destruct Hfail as [err Herr]; by rewrite Herr in Ha.
Qed.

Lemma _before_linear_arg_total E arg st :
  ~ evaluation_fails E arg -> snd (_before_linear_arg E arg st) = true.
Proof.
  intros Hok. unfold _before_linear_arg, evaluation_fails in *.
  destruct arg; try done;
    try (destruct (call E _) eqn:Hc; [exfalso; apply Hok; by eexists | done]).
  destruct (coef_value E arg) as [err|x] eqn:Hc; [exfalso; apply Hok; by eexists|].
  destruct (negb (truthy x)); [done|]. destruct (is_nan x); [done|].
  destruct (ll_var_map st !! v); [by destruct (dict_get v (ll_linear st))|].
  by destruct (var_fixed E v).
Qed.

Lemma _before_linear_loop_total E l st :
  (forall arg, In arg l -> ~ evaluation_fails E arg) ->
  snd (_before_linear_loop E l st) = true.
Proof.
  revert st. induction l as [|a l IH]; intros st Hok; [done|]. simpl.
  pose proof (_before_linear_arg_total E a st (Hok a (or_introl eq_refl))) as Ha.
  destruct (_before_linear_arg E a st) as [st1 fin]. simpl in Ha. subst fin.
  apply IH. intros arg Hin. apply Hok. by right.
Qed.

Lemma _before_linear_registered_total E l c v s x :
  In (Monomial c v) l ->
  is_Some (var_map s !! v) ->
  coef_value E c = inr x -> is_zero x = false -> is_nan x = false ->
  (forall arg, In arg l -> ~ evaluation_fails E arg) ->
  exists a o s',
    _before_linear E l s = Ok (false, Some (LINEAR, PRef a)) s' /\
    heap s' !! a = Some o /\ dict_mem v (linear o) = true.
Proof.
  intros Hin Hreg Hc Hz Hn Hok.
  pose proof (_before_linear_loop_total E l
    (mkLoop num_0 [] (size (var_order s)) (var_map s) (var_order s)) Hok) as Hfin.
  destruct (_before_linear E l s) as [[walk result] s'|err s'] eqn:Hb.
  - revert Hb. unfold _before_linear. munfold.
    destruct (_before_linear_loop E l _) as [st fin] eqn:Hloop.
    simpl in Hfin. subst fin.
    assert (Hm : dict_mem v (ll_linear st) = true).
    { eapply _before_linear_loop_registered;
        [exact Hin | | exact Hc | exact Hz | exact Hn | exact Hloop].
      exact Hreg. }
    destruct (ll_linear st) as [|kv d] eqn:Hl; [discriminate Hm|].
    simpl. rewrite lookup_fresh_cell. simpl. rewrite insert_fresh_cell.
    intros H. injection H as <- <- <-.
    eexists _, _, _. split; [reflexivity|]. simpl.
    rewrite lookup_fresh_cell. split; [reflexivity|]. exact Hm.
  - exfalso. revert Hb. unfold _before_linear. munfold.
    destruct (_before_linear_loop E l _) as [st fin]. simpl in Hfin. subst fin.
    destruct (ll_linear st); simpl; [done|].
    by rewrite lookup_fresh_cell.
Qed.

Lemma _before_linear_descends E l arg s :
  In arg l -> evaluation_fails E arg ->
  exists s', _before_linear E l s = Ok (true, None) s'.
Proof.
  intros Hin Hfail. apply list_elem_of_In in Hin.
  pose proof (_before_linear_loop_fails E l
    (mkLoop num_0 [] (size (var_order s)) (var_map s) (var_order s))
    arg Hin Hfail) as Hloop.
  unfold _before_linear. munfold.
  destruct (_before_linear_loop E l _) as [st fin]. simpl in Hloop. subst fin.
  by eexists.
Qed.

(** C10, as amended: the classifiers of a variable leaf, of a monomial
    term and of a linear expression read whether a variable is fixed (and
    its value) only when the registry does not hold the variable; for a
    registered variable the leaf classifies LINEAR with the entry
    [{v: 1}], a monomial term whose coefficient is neither zero nor NaN
    classifies LINEAR with the entry [{v: coefficient}], and a linear
    expression that holds such a term and whose terms can all be
    evaluated classifies LINEAR with an entry for [v], whatever the state
    of the variable; a linear expression with a term whose evaluation
    raises is not classified but descended into. *)
Theorem registered_variable_is_never_reevaluated :
  (forall E E' v s, agree_unregistered (var_map s) E E' ->
     _before_var E v s = _before_var E' v s) /\
  (forall E E' c v s, agree_unregistered (var_map s) E E' ->
     coef_value E c = coef_value E' c ->
     _before_monomial E c v s = _before_monomial E' c v s) /\
  (forall E E' l s, agree_unregistered (var_map s) E E' ->
     same_evaluations E E' l ->
     _before_linear E l s = _before_linear E' l s) /\
  (forall E v s, is_Some (var_map s !! v) ->
     _before_var E v s =
     Ok (false, Some (LINEAR, PRef (length (heap s))))
        (set_heap (heap s ++ [mkRepn num_1 num_0 [(v, num_1)] None]) s)) /\
  (forall E c v s x, is_Some (var_map s !! v) ->
     coef_value E c = inr x -> is_zero x = false -> is_nan x = false ->
     _before_monomial E c v s =
     Ok (false, Some (LINEAR, PRef (length (heap s))))
        (set_heap (heap s ++ [mkRepn num_1 num_0 [(v, x)] None]) s)) /\
  (forall E l c v s x, In (Monomial c v) l ->
     is_Some (var_map s !! v) ->
     coef_value E c = inr x -> is_zero x = false -> is_nan x = false ->
     (forall arg, In arg l -> ~ evaluation_fails E arg) ->
     exists a o s',
       _before_linear E l s = Ok (false, Some (LINEAR, PRef a)) s' /\
       heap s' !! a = Some o /\ dict_mem v (linear o) = true) /\
  (forall E l arg s, In arg l -> evaluation_fails E arg ->
     exists s', _before_linear E l s = Ok (true, None) s').
Proof.
  split; [|split; [|split; [|split; [|split; [|split]]]]].
  - apply _before_var_agree.
  - apply _before_monomial_agree.
  - apply _before_linear_agree.
  - apply _before_var_registered.
  - apply _before_monomial_registered.
  - apply _before_linear_registered_total.
  - apply _before_linear_descends.
Qed.

Lemma registered_variable_is_never_reevaluated_witness :
  _before_var fixed_env 0 visitor_with_x =
    Ok (false, Some (LINEAR, PRef 1))
       (set_heap (heap visitor_with_x ++ [mkRepn num_1 num_0 [(0, num_1)] None])
                 visitor_with_x) /\
  _before_monomial fixed_env (Native (of_Z 3)) 0 visitor_with_x =
    Ok (false, Some (LINEAR, PRef 1))
       (set_heap (heap visitor_with_x ++ [mkRepn num_1 num_0 [(0, of_Z 3)] None])
                 visitor_with_x) /\
  (exists a o s',
     _before_linear fixed_env three_x_plus_y_plus_5 visitor_with_x
       = Ok (false, Some (LINEAR, PRef a)) s' /\
     heap s' !! a = Some o /\ dict_mem 0 (linear o) = true) /\
  (exists s',
     _before_linear fixed_env three_x_plus_failing_term visitor_with_x
       = Ok (true, None) s').
Proof.
  destruct registered_variable_is_never_reevaluated
    as (_ & _ & _ & Hv & Hm & Hl & Hd).
  split; [|split; [|split]].
  - apply (Hv fixed_env 0 visitor_with_x). by exists 0.
  - apply (Hm fixed_env (Native (of_Z 3)) 0 visitor_with_x (of_Z 3));
      [by exists 0 | reflexivity | reflexivity | reflexivity].
  - apply (Hl fixed_env three_x_plus_y_plus_5 (Native (of_Z 3)) 0 visitor_with_x
             (of_Z 3));
      [by left | by exists 0 | reflexivity | reflexivity | reflexivity |].
    intros arg [<-|[<-|[<-|[]]]]; simpl.
    + intros [err H]. discriminate H.
    + intros [err H]. discriminate H.
    + intros [].
  - apply (Hd fixed_env three_x_plus_failing_term one_over_zero_times_x
             visitor_with_x).
    + right. by left.
    + exists ZeroDivisionError. reflexivity.
Defined.

(** C10, as stated, fails for a term with the coefficient zero: with [x]
    registered and fixed in the meantime, the monomial [0*x] and the
    linear expression that holds only it classify CONSTANT. *)
Lemma registered_variable_with_zero_coefficient :
  is_Some (var_map visitor_with_x !! 0) /\
  _before_monomial fixed_env (Native num_0) 0 visitor_with_x
    = Ok (false, Some (CONSTANT, PNum num_0)) visitor_with_x /\
  (forall r s', _before_linear fixed_env [Monomial (Native num_0) 0] visitor_with_x
                <> Ok (false, Some (LINEAR, PRef r)) s').
Proof.
  split; [by exists 0|]. split; [reflexivity|].
  intros r s' H. vm_compute in H. discriminate H.
Qed.

(** ** The tag invariant and the store *)

Lemma tag_ok_classified h r : tag_ok h r <-> classified h r.
Proof.
  destruct r as [t [x|l]]; unfold classified, tag_ok; simpl.
  - split.
    + destruct t; try done. intros _. exists [], None.
      repeat split; try done; eauto; intros [? ?]; done.
    + intros (lin & nl & Hp & Hc & Hl & Hg & _). injection Hp as <- <-.
      destruct t; try done.
      * destruct Hl as [Hl _]. by destruct (Hl eq_refl).
      * destruct Hg as [Hg _]. by destruct (Hg eq_refl).
  - destruct (h !! l) as [o|] eqn:Ho.
    + split.
      * destruct t; try done.
        -- intros (o' & [= <-] & Hl & Hn). exists (linear o), (nonlinear o).
           rewrite Hn. repeat split; try done; try (intros [? ?]; done).
        -- intros (o' & [= <-] & Hn). exists (linear o), (nonlinear o).
           repeat split; try done; intros [? ?]; done.
      * intros (lin & nl & [= <- <-] & Hc & Hl & Hg & Hx). destruct t.
        -- destruct (Hx eq_refl); discriminate.
        -- exists o. destruct Hl as [Hl _]. destruct (Hl eq_refl). auto.
        -- exists o. destruct Hg as [Hg _]. auto.
    + split.
      * destruct t; try done; intros (o & ? & _); discriminate.
      * intros (lin & nl & ? & _). discriminate.
Qed.

Lemma tag_ok_allocated h r l : tag_ok h r -> l ∈ res_refs r -> l < length h.
Proof.
  destruct r as [t [x|l']]; unfold res_refs; simpl; [by rewrite elem_of_nil|].
  rewrite list_elem_of_singleton. intros H ->.
  destruct t; try done.
  - destruct H as (o & Ho & _). by eapply lookup_lt_Some.
  - destruct H as (o & Ho & _). by eapply lookup_lt_Some.
Qed.

Lemma heap_effect_refl F G h : heap_effect F G h h.
Proof. split; eauto. Qed.

Lemma heap_effect_app F G h l : heap_effect F G h (h ++ l).
Proof.
  split.
  - rewrite length_app. lia.
  - intros. by rewrite lookup_app_l.
  - intros k o _ _ Ho. exists o. split; [|done].
    rewrite lookup_app_l; [done|]. by eapply lookup_lt_Some.
Qed.

Lemma heap_effect_insert_shape F G h l o o' :
  l ∈ F ->
  h !! l = Some o ->
  linear o' = linear o -> nonlinear o' = nonlinear o ->
  heap_effect F G h (<[l := o']> h).
Proof.
  intros HF Hl H1 H2.
  assert (Hlt : l < length h) by (by eapply lookup_lt_Some).
  split.
  - by rewrite length_insert.
  - intros k Hk HkF HkG. rewrite list_lookup_insert_ne; [done|]. by intros ->.
  - intros k ok HkF HkG Hk. destruct (decide (l = k)) as [->|Hne].
    + rewrite list_lookup_insert_eq by done. exists o'.
      rewrite Hl in Hk. injection Hk as <-. auto.
    + rewrite list_lookup_insert_ne by done. eauto.
Qed.

Lemma heap_effect_insert_any F G h l o' :
  l ∈ G ->
  heap_effect F G h (<[l := o']> h).
Proof.
  intros HG. split.
  - by rewrite length_insert.
  - intros k Hk HkF HkG. rewrite list_lookup_insert_ne; [done|]. by intros ->.
  - intros k ok HkF HkG Hk. rewrite list_lookup_insert_ne; [eauto|].
    by intros ->.
Qed.

Lemma heap_effect_trans F G h1 h2 h3 :
  heap_effect F G h1 h2 -> heap_effect F G h2 h3 -> heap_effect F G h1 h3.
Proof.
  intros [L1 Fr1 Sh1] [L2 Fr2 Sh2]. split.
  - lia.
  - intros l Hl HF HG. rewrite Fr2 by (try done; lia). by apply Fr1.
  - intros l o HF HG Ho. destruct (Sh1 l o HF HG Ho) as (o1 & Ho1 & E1 & E2).
    destruct (Sh2 l o1 HF HG Ho1) as (o2 & Ho2 & E3 & E4).
    exists o2. split; [done|]. split; congruence.
Qed.

(** A classification whose object is not in [G] still fits the store. *)
Lemma tag_ok_effect F G h h' r :
  heap_effect F G h h' ->
  (forall l, l ∈ res_refs r -> l ∉ G) ->
  tag_ok h r -> tag_ok h' r.
Proof.
  intros [L Fr Sh] HG. destruct r as [t [x|l]]; [done|].
  assert (HlG : l ∉ G) by (apply HG; unfold res_refs; simpl; by left).
  assert (Hkeep : forall o, h !! l = Some o ->
            exists o', h' !! l = Some o' /\
                       linear o' = linear o /\ nonlinear o' = nonlinear o).
  { intros o Ho. destruct (decide (l ∈ F)) as [HF|HF].
    - by apply Sh.
    - exists o. split; [|done]. rewrite Fr; try done. by eapply lookup_lt_Some. }
  destruct t; simpl; try done.
  - intros (o & Ho & H1 & H2). destruct (Hkeep o Ho) as (o' & Ho' & E1 & E2).
    exists o'. split; [done|]. split; congruence.
  - intros (o & Ho & H1). destruct (Hkeep o Ho) as (o' & Ho' & E1 & E2).
    exists o'. split; [done|]. congruence.
Qed.

(** ** Read-only computations *)

Lemma readonly_ret {A} (a : A) : readonly (ret a).
Proof. by intros s. Qed.

Lemma readonly_raise {A} e : readonly (@raise A e).
Proof. by intros s. Qed.

Lemma readonly_lift {A} (x : exn + A) : readonly (lift x).
Proof. intros s. by destruct x. Qed.

Lemma readonly_get : readonly get.
Proof. by intros s. Qed.

Lemma readonly_load r : readonly (load r).
Proof. intros s. unfold load. by destruct (heap s !! r). Qed.

Lemma readonly_as_num p : readonly (as_num p).
Proof. intros s. by destruct p. Qed.

Lemma readonly_as_repn p : readonly (as_repn p).
Proof. intros s. by destruct p. Qed.

Lemma readonly_bind {A B} (m : M A) (k : A -> M B) :
  readonly m -> (forall a, readonly (k a)) -> readonly (bind m k).
Proof.
  intros Hm Hk s. unfold bind. specialize (Hm s).
  destruct (m s) as [a s1|e s1]; subst; [apply Hk | done].
Qed.

Lemma readonly_to_expression_repn r : readonly (to_expression_repn r).
Proof.
  unfold to_expression_repn.
  apply readonly_bind; [apply readonly_load|]. intros o.
  apply readonly_bind; [apply readonly_get|]. intros s.
  apply readonly_bind; [|intros; apply readonly_ret].
  destruct (linear o); [apply readonly_ret|].
  apply readonly_bind; [apply readonly_lift|]. intros; apply readonly_ret.
Qed.

Lemma readonly_to_expression a : readonly (to_expression a).
Proof.
  unfold to_expression, _to_expression_CONST, _to_expression_LINEAR,
    _to_expression_GENERAL.
  destruct (fst a).
  - destruct (snd a); [apply readonly_ret | apply readonly_raise].
  - apply readonly_bind; [apply readonly_as_repn|].
    intros; apply readonly_to_expression_repn.
  - apply readonly_bind; [apply readonly_as_repn|].
    intros; apply readonly_to_expression_repn.
Qed.

(** Run a read-only call of [to_expression] that the goal is stuck on. *)
Ltac ro_step :=
  match goal with
  | |- context [to_expression ?a ?s] =>
      let R := fresh "R" in
      pose proof (R := readonly_to_expression a s);
      destruct (to_expression a s) as [? ?|? ?]; subst
  end.

(** ** Exit-node handlers keep the invariants *)

Lemma tag_ok_fresh_general h (o : LinearRepn) :
  nonlinear o <> None -> tag_ok (h ++ [o]) (GENERAL, PRef (length h)).
Proof. intros H. exists o. split; [apply lookup_fresh_cell | done]. Qed.

Lemma tag_ok_fresh_linear h (o : LinearRepn) :
  linear o <> [] -> nonlinear o = None ->
  tag_ok (h ++ [o]) (LINEAR, PRef (length h)).
Proof. intros H1 H2. exists o. split; [apply lookup_fresh_cell | done]. Qed.

Lemma res_refs_fresh t (n l : nat) :
  l ∈ res_refs (t, PRef n) -> l = n.
Proof. unfold res_refs; simpl. by rewrite list_elem_of_singleton. Qed.


Lemma tag_ok_insert_shape h t l o o' :
  tag_ok h (t, PRef l) ->
  h !! l = Some o ->
  linear o' = linear o -> nonlinear o' = nonlinear o ->
  tag_ok (<[l := o']> h) (t, PRef l).
Proof.
  intros Ht Hl H1 H2.
  assert (Hlt : l < length h) by (by eapply lookup_lt_Some).
  destruct t; simpl in *; try done.
  - destruct Ht as (o1 & Ho1 & Hn & Hnl). rewrite Hl in Ho1. injection Ho1 as <-.
    exists o'. rewrite list_lookup_insert_eq by done. split; [done|].
    split; congruence.
  - destruct Ht as (o1 & Ho1 & Hnl). rewrite Hl in Ho1. injection Ho1 as <-.
    exists o'. rewrite list_lookup_insert_eq by done. split; [done|]. congruence.
Qed.

Lemma elem_of_refs_of l (args : list res) :
  l ∈ refs_of args <-> exists a, a ∈ args /\ l ∈ res_refs a.
Proof.
  unfold refs_of. induction args as [|a args IH]; simpl.
  - rewrite elem_of_nil. split; [done|]. intros (a & Ha & _).
    by apply elem_of_nil in Ha.
  - rewrite elem_of_app, IH. split.
    + intros [H|(b & Hb & H)]; [exists a | exists b]; split; auto;
        rewrite elem_of_cons; auto.
    + intros (b & Hb & H). apply elem_of_cons in Hb as [->|Hb]; eauto.
Qed.

Lemma refs_of_here l t (args : list res) :
  (t, PRef l) ∈ args -> l ∈ refs_of args.
Proof.
  intros Hin. apply elem_of_refs_of. exists (t, PRef l). split; [done|].
  unfold res_refs; simpl. by left.
Qed.

(** The handlers that scale the multiplier of one argument in place. *)
Lemma scaled_in_place_post (args : list res) t l o m s :
  (t, PRef l) ∈ args ->
  tag_ok (heap s) (t, PRef l) ->
  heap s !! l = Some o ->
  handler_post args s
    (Ok (t, PRef l) (set_heap (<[l := set_multiplier m o]> (heap s)) s)).
Proof.
  intros Hin Ht Hl. simpl. split; [|split; [|split]].
  - eapply heap_effect_insert_shape; eauto. by eapply refs_of_here.
  - by eapply tag_ok_insert_shape.
  - intros k ->%res_refs_fresh. left. by eapply refs_of_here.
  - by left.
Qed.

Lemma constant_post (args : list res) x s :
  handler_post args s (Ok (CONSTANT, PNum x) s).
Proof.
  simpl. split; [apply heap_effect_refl|]. split; [done|].
  split; [|by left]. intros l. unfold res_refs; simpl. by rewrite elem_of_nil.
Qed.

Lemma raise_post (args : list res) e s :
  handler_post args s (Raise e s).
Proof. simpl. split; [apply heap_effect_refl | done]. Qed.

Lemma passed_on_post (args : list res) a s :
  a ∈ args -> tag_ok (heap s) a ->
  handler_post args s (Ok a s).
Proof.
  intros Hin Ht. simpl. split; [apply heap_effect_refl|]. split; [done|].
  split; [|by left]. intros l Hl. left. apply elem_of_refs_of. eauto.
Qed.

Lemma _handle_negation_constant_post args a s :
  handler_post args s (_handle_negation_constant a s).
Proof.
  unfold _handle_negation_constant. munfold. destruct a as [t [x|l]].
  - apply constant_post.
  - apply raise_post.
Qed.

Lemma _handle_negation_ANY_post args a s :
  a ∈ args -> tag_ok (heap s) a ->
  handler_post args s (_handle_negation_ANY a s).
Proof.
  intros Hin Ht. unfold _handle_negation_ANY. munfold. destruct a as [t [x|l]].
  - apply raise_post.
  - destruct (heap s !! l) as [o|] eqn:Hl; [|apply raise_post].
    by apply scaled_in_place_post.
Qed.

Lemma _handle_product_constant_constant_post args a b s :
  tag_ok (heap s) b ->
  handler_post args s (_handle_product_constant_constant a b s).
Proof.
  intros Hb. unfold _handle_product_constant_constant. munfold.
  destruct a as [ta [x|l]]; [|apply raise_post].
  destruct b as [tb [y|l]]; [|apply raise_post].
  destruct tb; try done. apply constant_post.
Qed.

Lemma _handle_product_constant_ANY_post args a b s :
  b ∈ args -> tag_ok (heap s) b ->
  handler_post args s (_handle_product_constant_ANY a b s).
Proof.
  intros Hin Ht. unfold _handle_product_constant_ANY. munfold.
  destruct a as [ta [x|l]]; [|apply raise_post].
  destruct (negb (truthy x) || is_nan x); [apply constant_post|].
  destruct b as [tb [y|l]]; [apply raise_post|].
  destruct (heap s !! l) as [o|] eqn:Hl; [|apply raise_post].
  by apply scaled_in_place_post.
Qed.

Lemma _handle_product_ANY_constant_post args a b s :
  a ∈ args -> tag_ok (heap s) a ->
  handler_post args s (_handle_product_ANY_constant a b s).
Proof.
  intros Hin Ht. unfold _handle_product_ANY_constant. munfold.
  destruct b as [tb [y|l]]; [|apply raise_post].
  destruct (negb (truthy y) || is_nan y); [apply constant_post|].
  destruct a as [ta [x|l]]; [apply raise_post|].
  destruct (heap s !! l) as [o|] eqn:Hl; [|apply raise_post].
  by apply scaled_in_place_post.
Qed.

Lemma _handle_division_constant_constant_post args a b s :
  tag_ok (heap s) b ->
  handler_post args s (_handle_division_constant_constant a b s).
Proof.
  intros Hb. unfold _handle_division_constant_constant. munfold.
  destruct a as [ta [x|l]]; [|apply raise_post].
  destruct b as [tb [y|l]]; [|apply raise_post].
  destruct (num_div x y); [apply raise_post|].
  destruct tb; try done. apply constant_post.
Qed.

Lemma _handle_division_ANY_constant_post args a b s :
  a ∈ args -> tag_ok (heap s) a ->
  handler_post args s (_handle_division_ANY_constant a b s).
Proof.
  intros Hin Ht. unfold _handle_division_ANY_constant. munfold.
  destruct b as [tb [y|l]]; [|apply raise_post].
  destruct (is_nan y); [apply constant_post|].
  destruct a as [ta [x|l]]; [apply raise_post|].
  destruct (heap s !! l) as [o|] eqn:Hl; [|apply raise_post].
  destruct (num_div (multiplier o) y); [apply raise_post|].
  by apply scaled_in_place_post.
Qed.

(** Close the goal of a handler that wraps its arguments in a new
    nonlinear node, or that raised after it had allocated the node. *)
Ltac fresh_general :=
  simpl; rewrite ?lookup_fresh_cell; simpl; rewrite ?insert_fresh_cell;
  first
    [ split; [apply heap_effect_app|];
      split; [eexists; split; [apply lookup_fresh_cell | done]|];
      split; [intros ? ->%res_refs_fresh; right; lia | by left]
    | split; [apply heap_effect_app | done] ].

Lemma _handle_product_nonlinear_post args a b s :
  handler_post args s (_handle_product_nonlinear a b s).
Proof.
  unfold _handle_product_nonlinear. munfold.
  ro_step; [ro_step|]; fresh_general.
Qed.

Lemma _handle_division_nonlinear_post args a b s :
  handler_post args s (_handle_division_nonlinear a b s).
Proof.
  unfold _handle_division_nonlinear. munfold.
  ro_step; [ro_step|]; try fresh_general.
  destruct (expr_div _ _); fresh_general.
Qed.

Lemma _handle_pow_nonlinear_post E args a b s :
  handler_post args s (_handle_pow_nonlinear E a b s).
Proof.
  unfold _handle_pow_nonlinear. munfold.
  ro_step; [ro_step|]; try fresh_general.
  destruct (expr_pow E _ _); fresh_general.
Qed.

Lemma _handle_pow_constant_constant_post E args node l s :
  handler_post args s (_handle_pow_constant_constant E node l s).
Proof.
  unfold _handle_pow_constant_constant. munfold.
  destruct (apply_node_operation E node _); [apply raise_post | apply constant_post].
Qed.

Lemma _handle_pow_ANY_constant_post E args a b s :
  a ∈ args -> tag_ok (heap s) a ->
  handler_post args s (_handle_pow_ANY_constant E a b s).
Proof.
  intros Hin Ht. unfold _handle_pow_ANY_constant. munfold.
  destruct (payload_is_1 _); [by apply passed_on_post|].
  apply _handle_pow_nonlinear_post.
Qed.

Lemma _handle_unary_constant_post E args node a s :
  handler_post args s (_handle_unary_constant E node a s).
Proof.
  unfold _handle_unary_constant. munfold.
  destruct a as [t [x|l]]; [|apply raise_post].
  destruct (apply_node_operation E node _); [apply raise_post | apply constant_post].
Qed.

Lemma _handle_unary_nonlinear_post args node a s :
  handler_post args s (_handle_unary_nonlinear node a s).
Proof.
  unfold _handle_unary_nonlinear. munfold. ro_step; fresh_general.
Qed.

Lemma _handle_expr_if_nonlinear_post args a b c s :
  handler_post args s (_handle_expr_if_nonlinear a b c s).
Proof.
  unfold _handle_expr_if_nonlinear. munfold.
  ro_step; [ro_step; [ro_step|]|]; fresh_general.
Qed.

Lemma _handle_expr_if_const_post args a b c s :
  b ∈ args -> c ∈ args -> tag_ok (heap s) b -> tag_ok (heap s) c ->
  handler_post args s (_handle_expr_if_const a b c s).
Proof.
  intros Hb Hc Tb Tc. unfold _handle_expr_if_const.
  destruct a as [t p]. destruct t; try apply _handle_expr_if_nonlinear_post.
  munfold. destruct (payload_truthy p); [|by apply passed_on_post].
  destruct (payload_is_nan p); [apply _handle_expr_if_nonlinear_post|].
  by apply passed_on_post.
Qed.

Lemma _handle_named_constant_post args id a s :
  a ∈ args -> tag_ok (heap s) a -> fst a = CONSTANT ->
  handler_post args s (_handle_named_constant id a s).
Proof.
  intros Hin Ht Hc. unfold _handle_named_constant. munfold. simpl.
  split; [apply heap_effect_refl|]. split; [done|].
  destruct a as [t [x|l]]; simpl in *; subst; [|done].
  split.
  - intros l. unfold res_refs; simpl. by rewrite elem_of_nil.
  - right. exists id, (CONSTANT, PNum x). split; [done|]. split; [done|].
    intros l. unfold res_refs; simpl. by rewrite elem_of_nil.
Qed.

Lemma _handle_named_ANY_post args id a s :
  a ∈ args -> tag_ok (heap s) a -> fst a <> CONSTANT ->
  handler_post args s (_handle_named_ANY id a s).
Proof.
  intros Hin Ht Hc. unfold _handle_named_ANY, duplicate. munfold.
  destruct a as [t [x|l]]; simpl.
  - by destruct t.
  - assert (exists o, heap s !! l = Some o) as [o Ho].
    { destruct t; simpl in Ht; try done; destruct Ht as (o & Ho & _); eauto. }
    rewrite Ho. simpl. split; [apply heap_effect_app|]. split.
    + destruct t; simpl in *; try done.
      * destruct Ht as (o1 & Ho1 & H1 & H2). rewrite Ho in Ho1.
        injection Ho1 as <-. destruct o; simpl in *.
        by apply tag_ok_fresh_linear.
      * destruct Ht as (o1 & Ho1 & H1). rewrite Ho in Ho1.
        injection Ho1 as <-. destruct o; simpl in *.
        by apply tag_ok_fresh_general.
    + split.
      * intros k ->%res_refs_fresh. right. lia.
      * right. exists id, (t, PRef l). split; [done|]. split; [done|].
        intros k ->%res_refs_fresh. lia.
Qed.

(** Every entry of the dispatch table keeps the invariants. *)
Lemma exit_node_dispatcher_post E node (l : list res) s :
  (forall a, a ∈ l -> tag_ok (heap s) a) ->
  handler_post l s (exit_node_dispatcher E node l s).
Proof.
  intros Hl. unfold exit_node_dispatcher.
  destruct node; try apply raise_post;
    destruct l as [|a [|b [|c [|d l]]]]; try apply raise_post.
  - (* negation *)
    destruct (fst a);
      [apply _handle_negation_constant_post
      |apply _handle_negation_ANY_post; [by left | apply Hl; by left]..].
  - (* product *)
    assert (Ha : tag_ok (heap s) a) by (apply Hl; by left).
    assert (Hb : tag_ok (heap s) b) by (apply Hl; right; by left).
    destruct (fst a), (fst b);
      first [ by apply _handle_product_constant_constant_post
            | apply _handle_product_constant_ANY_post; [right; by left | done]
            | apply _handle_product_ANY_constant_post; [by left | done]
            | apply _handle_product_nonlinear_post ].
  - (* division *)
    assert (Ha : tag_ok (heap s) a) by (apply Hl; by left).
    assert (Hb : tag_ok (heap s) b) by (apply Hl; right; by left).
    destruct (fst a), (fst b);
      first [ by apply _handle_division_constant_constant_post
            | apply _handle_division_ANY_constant_post; [by left | done]
            | apply _handle_division_nonlinear_post ].
  - (* power *)
    assert (Ha : tag_ok (heap s) a) by (apply Hl; by left).
    destruct (fst a), (fst b);
      first [ apply _handle_pow_constant_constant_post
            | apply _handle_pow_ANY_constant_post; [by left | done]
            | apply _handle_pow_nonlinear_post ].
  - (* unary function *)
    destruct (fst a);
      [apply _handle_unary_constant_post | apply _handle_unary_nonlinear_post..].
  - (* conditional *)
    assert (Hb : tag_ok (heap s) b) by (apply Hl; right; by left).
    assert (Hc : tag_ok (heap s) c) by (apply Hl; right; right; by left).
    destruct (fst a);
      [apply _handle_expr_if_const_post;
         [right; by left | right; right; by left | done | done]
      |apply _handle_expr_if_nonlinear_post..].
  - (* named expression *)
    assert (Ha : tag_ok (heap s) a) by (apply Hl; by left).
    destruct (fst a) eqn:Hf;
      [apply _handle_named_constant_post; [by left | done | done]
      |apply _handle_named_ANY_post; [by left | done | congruence]..].
Qed.

(** ** Before-child classifiers keep the invariants *)

Lemma before_descend_post s : before_post s (Ok (true, None) s).
Proof. simpl. split; [apply heap_effect_refl|]. split; [done|]. done. Qed.

Lemma before_constant_post b x s :
  before_post s (Ok (b, Some (CONSTANT, PNum x)) s).
Proof.
  simpl. split; [apply heap_effect_refl|]. split; [done|].
  intros r [= <-]. split; [done|].
  intros l. unfold res_refs; simpl. by rewrite elem_of_nil.
Qed.

Lemma before_raise_post e s : before_post s (Raise e s).
Proof. simpl. split; [apply heap_effect_refl | done]. Qed.

(** Close the goal of a classifier that returns a new object. *)
Ltac fresh_before :=
  simpl; rewrite ?lookup_fresh_cell; simpl; rewrite ?insert_fresh_cell;
  split; [apply heap_effect_app|]; split; [done|];
  intros ? [= <-]; split;
    [ eexists; split; [apply lookup_fresh_cell | done]
    | intros ? ->%res_refs_fresh; lia ].

Lemma _before_var_post E v s : before_post s (_before_var E v s).
Proof.
  unfold _before_var. munfold.
  destruct (var_map s !! v); [fresh_before|].
  destruct (var_fixed E v); [apply before_constant_post | fresh_before].
Qed.

Lemma _before_npv_post E child s : before_post s (_before_npv E child s).
Proof.
  unfold _before_npv. munfold.
  destruct (call E child); [apply before_descend_post | apply before_constant_post].
Qed.

Lemma _before_monomial_post E c v s : before_post s (_before_monomial E c v s).
Proof.
  unfold _before_monomial. munfold.
  destruct (coef_value E c) as [|x]; [apply before_descend_post|].
  destruct (negb (truthy x) || is_nan x); [apply before_constant_post|].
  destruct (var_map s !! v); [fresh_before|].
  destruct (var_fixed E v); [apply before_constant_post | fresh_before].
Qed.

Lemma _before_linear_post E l s : before_post s (_before_linear E l s).
Proof.
  unfold _before_linear. munfold.
  destruct (_before_linear_loop E l _) as [st [|]]; simpl.
  - destruct (ll_linear st) eqn:Hl; simpl.
    + split; [apply heap_effect_app|]. split; [done|].
      intros r [= <-]. split; [done|].
      intros k. unfold res_refs; simpl. by rewrite elem_of_nil.
    + fresh_before.
  - split; [apply heap_effect_app|]. split; [done|]. done.
Qed.

Lemma _before_named_expression_post id s :
  cache_ok s -> before_post s (_before_named_expression id s).
Proof.
  intros Hc. unfold _before_named_expression, duplicate. munfold.
  destruct (subexpression_cache s !! id) as [[t p]|] eqn:Hid;
    [|apply before_descend_post].
  specialize (Hc _ _ Hid).
  destruct t, p as [x|l]; simpl in Hc; try done.
  - apply before_constant_post.
  - destruct Hc as (o & Ho & H1 & H2). rewrite Ho. destruct o; simpl in *.
    fresh_before.
  - destruct Hc as (o & Ho & H1). rewrite Ho. destruct o; simpl in *.
    fresh_before.
Qed.

Lemma _before_expr_if_post E c t f s : before_post s (_before_expr_if E c t f s).
Proof.
  unfold _before_expr_if.
  destruct (is_fixed E c); [|apply before_descend_post].
  destruct (call E c); [apply before_descend_post | apply before_raise_post].
Qed.

Lemma _before_external_post E child s : before_post s (_before_external E child s).
Proof. rewrite _before_external_eq. fresh_before. Qed.

Lemma _before_native_post v s : before_post s (_before_native v s).
Proof. apply before_constant_post. Qed.

Lemma _before_general_expression_post s :
  before_post s (_before_general_expression s).
Proof. apply before_descend_post. Qed.

Lemma beforeChild_post E child s :
  cache_ok s -> before_post s (beforeChild E child s).
Proof.
  intros Hc. unfold beforeChild.
  destruct child;
    try destruct (is_potentially_variable _);
    auto using _before_native_post, _before_general_expression_post,
      _before_var_post, _before_npv_post, _before_monomial_post,
      _before_linear_post, _before_named_expression_post,
      _before_expr_if_post, _before_external_post.
Qed.

(** ** Accumulation, exit of a sum, and finalization *)

Lemma effect_only_readonly {A} F G (m : M A) : readonly m -> effect_only F G m.
Proof.
  intros Hm s. specialize (Hm s).
  destruct (m s); subst; (split; [apply heap_effect_refl | done]).
Qed.

Lemma effect_only_bind {A B} F G (m : M A) (k : A -> M B) :
  effect_only F G m -> (forall a, effect_only F G (k a)) ->
  effect_only F G (bind m k).
Proof.
  intros Hm Hk s. unfold bind. specialize (Hm s).
  destruct (m s) as [a s1|e s1]; [|done]. destruct Hm as [H1 H2].
  specialize (Hk a s1). destruct (k a s1); destruct Hk as [H3 H4];
    (split; [by eapply heap_effect_trans | congruence]).
Qed.

Lemma effect_only_update F G acc f : acc ∈ G -> effect_only F G (update acc f).
Proof.
  intros HG s. unfold update. munfold.
  destruct (heap s !! acc); simpl.
  - split; [by apply heap_effect_insert_any | done].
  - split; [apply heap_effect_refl | done].
Qed.

Lemma effect_only_append acc r : effect_only [] [acc] (append acc r).
Proof.
  assert (Hacc : acc ∈ [acc]) by (by left).
  unfold append. destruct r as [t p].
  assert (Hrest : effect_only [] [acc]
    (do r <- as_repn p;
     do oth <- load r;
     do _ <- update acc (fun o =>
               set_constant
                 (num_add (constant o) (num_mul (multiplier oth) (constant oth))) o);
     do _ <- match linear oth with
             | _ :: _ =>
                 update acc (fun o =>
                   set_linear (_merge_dict (multiplier oth) (linear o) (linear oth)) o)
             | [] => ret tt
             end;
     match nonlinear oth with
     | Some onl =>
         update acc (fun o =>
           set_nonlinear
             match nonlinear o with
             | None =>
                 Some (if negb (num_eqb (multiplier oth) num_1)
                       then expr_mul (Native (multiplier oth)) onl else onl)
             | Some snl =>
                 Some (expr_add snl
                         (if negb (num_eqb (multiplier oth) num_1)
                          then expr_mul (Native (multiplier oth)) onl else onl))
             end o)
     | None => ret tt
     end)).
  { apply effect_only_bind;
      [apply effect_only_readonly, readonly_as_repn|]. intros r.
    apply effect_only_bind;
      [apply effect_only_readonly, readonly_load|]. intros oth.
    apply effect_only_bind; [by apply effect_only_update|]. intros _.
    apply effect_only_bind.
    - destruct (linear oth);
        [apply effect_only_readonly, readonly_ret | by apply effect_only_update].
    - intros _. destruct (nonlinear oth);
        [by apply effect_only_update | apply effect_only_readonly, readonly_ret]. }
  destruct t; try exact Hrest.
  apply effect_only_bind; [apply effect_only_readonly, readonly_as_num|].
  intros x. by apply effect_only_update.
Qed.

Lemma acceptChildResult_DResult acc r s :
  match acceptChildResult (DResult acc) r s with
  | Ok d s' =>
      d = DResult acc /\
      heap_effect [] [acc] (heap s) (heap s') /\
      subexpression_cache s' = subexpression_cache s
  | Raise _ s' =>
      heap_effect [] [acc] (heap s) (heap s') /\
      subexpression_cache s' = subexpression_cache s
  end.
Proof.
  unfold acceptChildResult, bind, ret.
  pose proof (effect_only_append acc r s) as H.
  destruct (append acc r s); tauto.
Qed.

Lemma walker_exitNode_post acc s :
  match walker_exitNode acc s with
  | Ok r s' =>
      s' = s /\ tag_ok (heap s) r /\ (forall l, l ∈ res_refs r -> l = acc)
  | Raise _ s' => s' = s
  end.
Proof.
  unfold walker_exitNode. munfold.
  destruct (heap s !! acc) as [o|] eqn:Ho; [|done].
  destruct (nonlinear o) eqn:Hn.
  - split; [done|]. split; [|by intros l ->%res_refs_fresh].
    exists o. split; [done|]. congruence.
  - destruct (linear o) eqn:Hl.
    + split; [done|]. split; [done|].
      intros l. unfold res_refs; simpl. by rewrite elem_of_nil.
    + split; [done|]. split; [|by intros l ->%res_refs_fresh].
      exists o. split; [done|]. split; [congruence | done].
Qed.

Lemma enterNode_post node s :
  exists todo d s',
    enterNode node s = Ok (todo, d) s' /\
    subexpression_cache s' = subexpression_cache s /\
    heap_effect [] [] (heap s) (heap s') /\
    data_results d = [] /\
    (forall l, l ∈ data_refs d -> length (heap s) <= l < length (heap s')) /\
    NoDup (data_refs d).
Proof.
  unfold enterNode.
  assert (Hlist : exists todo d s',
    ret (args node, DList []) s = Ok (todo, d) s' /\
    subexpression_cache s' = subexpression_cache s /\
    heap_effect [] [] (heap s) (heap s') /\
    data_results d = [] /\
    (forall l, l ∈ data_refs d -> length (heap s) <= l < length (heap s')) /\
    NoDup (data_refs d)).
  { eexists _, _, _. split; [reflexivity|]. simpl.
    split; [done|]. split; [apply heap_effect_refl|]. split; [done|].
    split; [|constructor]. intros l. by rewrite elem_of_nil. }
  destruct node; try exact Hlist.
  destruct (is_potentially_variable _); [|exact Hlist].
  munfold. eexists _, _, _. split; [reflexivity|]. simpl.
  split; [done|]. split; [apply heap_effect_app|]. split; [done|].
  split; [|apply NoDup_singleton].
  intros l ->%list_elem_of_singleton. rewrite length_app. simpl. lia.
Qed.

Lemma finalizeResult_post r s :
  match finalizeResult r s with
  | Ok _ s' | Raise _ s' =>
      heap_effect [] (res_refs r) (heap s) (heap s') /\
      subexpression_cache s' = subexpression_cache s
  end.
Proof.
  unfold finalizeResult. munfold. destruct r as [t [x|l]]; simpl.
  - destruct t; simpl; rewrite ?lookup_fresh_cell; simpl;
      rewrite ?insert_fresh_cell; (split; [apply heap_effect_app | done]).
  - destruct (heap s !! l) as [o|]; [|split; [apply heap_effect_refl | done]].
    destruct (num_eqb (multiplier o) num_1); simpl;
      (split; [apply heap_effect_insert_any; unfold res_refs; simpl; by left
              | done]).
Qed.

(** ** One step of the walk keeps the invariants *)

Lemma cached_ref_allocated s l :
  cache_ok s -> cached_ref s l -> l < length (heap s).
Proof.
  intros Hc (id & t & Hid). apply (tag_ok_allocated _ (t, PRef l)).
  - by eapply Hc.
  - unfold res_refs; simpl. by left.
Qed.

Lemma cache_ok_effect F G s s' :
  cache_ok s ->
  heap_effect F G (heap s) (heap s') ->
  subexpression_cache s' = subexpression_cache s ->
  (forall l, cached_ref s l -> l ∉ G) ->
  cache_ok s'.
Proof.
  intros Hc He Hsame HG id r Hid. rewrite Hsame in Hid.
  eapply tag_ok_effect; eauto.
  intros l Hl. apply HG. destruct r as [t [x|k]].
  - unfold res_refs in Hl; simpl in Hl. by apply elem_of_nil in Hl.
  - apply res_refs_fresh in Hl as ->. by exists id, t.
Qed.

Lemma elem_of_stack_refs l (st : list frame) :
  l ∈ stack_refs st <-> exists f, f ∈ st /\ l ∈ data_refs (f_data f).
Proof.
  unfold stack_refs. induction st as [|f st IH]; simpl.
  - rewrite elem_of_nil. split; [done|]. intros (f & Hf & _).
    by apply elem_of_nil in Hf.
  - rewrite elem_of_app, IH. split.
    + intros [H|(g & Hg & H)]; [exists f | exists g]; split; auto;
        rewrite elem_of_cons; auto.
    + intros (g & Hg & H). apply elem_of_cons in Hg as [->|Hg]; eauto.
Qed.

Lemma elem_of_stack_results r (st : list frame) :
  r ∈ stack_results st <-> exists f, f ∈ st /\ r ∈ data_results (f_data f).
Proof.
  unfold stack_results. induction st as [|f st IH]; simpl.
  - rewrite elem_of_nil. split; [done|]. intros (f & Hf & _).
    by apply elem_of_nil in Hf.
  - rewrite elem_of_app, IH. split.
    + intros [H|(g & Hg & H)]; [exists f | exists g]; split; auto;
        rewrite elem_of_cons; auto.
    + intros (g & Hg & H). apply elem_of_cons in Hg as [->|Hg]; eauto.
Qed.

Lemma data_result_ref d r l :
  r ∈ data_results d -> l ∈ res_refs r -> l ∈ data_refs d.
Proof.
  destruct d as [rs|acc]; simpl.
  - intros Hr Hl. apply elem_of_refs_of. eauto.
  - by rewrite elem_of_nil.
Qed.

Lemma stack_result_ref st r l :
  r ∈ stack_results st -> l ∈ res_refs r -> l ∈ stack_refs st.
Proof.
  rewrite elem_of_stack_results, elem_of_stack_refs.
  intros (f & Hf & Hr) Hl. exists f. split; [done|].
  by eapply data_result_ref.
Qed.

(** The pieces of [live] and [results_of], by the shape of a
    configuration. *)
Lemma live_visit st child : live (mkConfig st (Visit child)) = stack_refs st.
Proof. reflexivity. Qed.

Lemma live_next st : live (mkConfig st Next) = stack_refs st.
Proof. reflexivity. Qed.

Lemma live_return st r :
  live (mkConfig st (Return r)) = res_refs r ++ stack_refs st.
Proof. unfold live; simpl. by rewrite app_nil_r. Qed.

Lemma stack_refs_cons f st :
  stack_refs (f :: st) = data_refs (f_data f) ++ stack_refs st.
Proof. reflexivity. Qed.

Lemma stack_results_cons f st :
  stack_results (f :: st) = data_results (f_data f) ++ stack_results st.
Proof. reflexivity. Qed.

Lemma refs_of_app l1 l2 : refs_of (l1 ++ l2) = refs_of l1 ++ refs_of l2.
Proof. unfold refs_of. by rewrite map_app, concat_app. Qed.

Lemma refs_of_singleton r : refs_of [r] = res_refs r.
Proof. unfold refs_of; simpl. by rewrite app_nil_r. Qed.

(** A classification with at most one object. *)
Lemma res_refs_cases r : res_refs r = [] \/ exists l, res_refs r = [l].
Proof. destruct r as [t [x|l]]; unfold res_refs; simpl; eauto. Qed.

Lemma NoDup_res_refs r : NoDup (res_refs r).
Proof.
  destruct (res_refs_cases r) as [->|[l ->]]; [constructor | apply NoDup_singleton].
Qed.

Lemma heap_effect_unchanged F G L h h' :
  heap_effect F G h h' ->
  (forall l, l ∈ F -> l ∈ L) -> (forall l, l ∈ G -> l ∈ L) ->
  unchanged_outside L h h'.
Proof.
  intros [Len Fr _] HF HG. split; [done|].
  intros l Hl HL. apply Fr; auto.
Qed.

Lemma step_visit_post E st child s :
  config_ok s (mkConfig st (Visit child)) ->
  step_post s (mkConfig st (Visit child)) (step E (mkConfig st (Visit child)) s).
Proof.
  intros [Hcache Hres Hlive Hnd Hsep].
  rewrite live_visit in *. unfold results_of in Hres; simpl in Hres.
  pose proof (beforeChild_post E child s Hcache) as HB.
  unfold step, bind; simpl.
  destruct (beforeChild E child s) as [[walk result] s1|e s1]; simpl in HB.
  2:{ destruct HB as [He Hc1]. split.
      - eapply cache_ok_effect; eauto. intros l _ Hl. by apply elem_of_nil in Hl.
      - eapply heap_effect_unchanged; eauto;
          intros l Hl; by apply elem_of_nil in Hl. }
  destruct HB as (He & Hc1 & Hr).
  assert (Hcache1 : cache_ok s1).
  { eapply cache_ok_effect; eauto. intros l _ Hl. by apply elem_of_nil in Hl. }
  assert (Hkeep : forall r, tag_ok (heap s) r -> tag_ok (heap s1) r).
  { intros r. eapply tag_ok_effect; eauto. intros l _ Hl.
    by apply elem_of_nil in Hl. }
  assert (Hun : unchanged_outside (stack_refs st) (heap s) (heap s1)).
  { eapply heap_effect_unchanged; eauto; intros l Hl; by apply elem_of_nil in Hl. }
  assert (Hcr : forall l, cached_ref s1 l <-> cached_ref s l).
  { intros l. unfold cached_ref. by rewrite Hc1. }
  destruct walk.
  - (* descend: enter the child *)
    destruct (enterNode_post child s1)
      as (todo & d & s2 & Hen & Hc2 & He2 & Hdr & Hdl & Hdn).
    rewrite Hen. simpl.
    assert (Hlen : length (heap s) <= length (heap s1)) by apply He.
    split.
    + split.
      * eapply cache_ok_effect; eauto. intros l _ Hl. by apply elem_of_nil in Hl.
      * unfold results_of; simpl. rewrite stack_results_cons; simpl.
        rewrite Hdr. simpl. intros r Hin.
        eapply tag_ok_effect; eauto. intros l _ Hl. by apply elem_of_nil in Hl.
      * rewrite live_next, stack_refs_cons; simpl. intros l.
        rewrite elem_of_app. intros [Hl|Hl].
        -- apply Hdl in Hl. lia.
        -- apply Hlive in Hl. destruct He2 as [L2 _ _]. lia.
      * rewrite live_next, stack_refs_cons; simpl.
        apply NoDup_app. split; [done|]. split; [|done].
        intros l Hl Hl'. apply Hdl in Hl. apply Hlive in Hl'. lia.
      * rewrite live_next, stack_refs_cons; simpl. intros l Hl.
        assert (Hcl : cached_ref s l).
        { apply Hcr. unfold cached_ref in *. by rewrite <- Hc2. }
        rewrite elem_of_app. intros [H|H].
        -- apply Hdl in H. pose proof (cached_ref_allocated _ _ Hcache Hcl). lia.
        -- by apply (Hsep l).
    + split.
      * destruct Hun as [L1 F1]. destruct He2 as [L2 F2 _]. split; [lia|].
        intros l Hl Hout. rewrite F2; [by apply F1 | lia | | ];
          intros H; by apply elem_of_nil in H.
      * rewrite live_next, stack_refs_cons; simpl. intros l.
        rewrite elem_of_app. intros [Hl|Hl]; [|by left].
        apply Hdl in Hl. right. lia.
  - (* classified without descent *)
    destruct result as [r|]; [|by split]. simpl.
    destruct (Hr r eq_refl) as [Ht Hfresh].
    split; [|split; [done|]].
    2:{ rewrite live_return. intros l. rewrite elem_of_app.
        intros [Hl|Hl]; [right; by apply Hfresh | by left]. }
    split; [done| | | |].
    + unfold results_of; simpl. intros x. rewrite elem_of_cons.
      intros [->|Hx]; auto.
    + rewrite live_return. intros l. rewrite elem_of_app. intros [Hl|Hl].
      * by eapply tag_ok_allocated.
      * apply Hlive in Hl. destruct He as [L1 _ _]. lia.
    + rewrite live_return. apply NoDup_app.
      split; [apply NoDup_res_refs|]. split; [|done].
      intros l Hl Hl'. apply Hfresh in Hl. apply Hlive in Hl'. lia.
    + rewrite live_return. intros l Hl%Hcr. rewrite elem_of_app.
      intros [H|H].
      * apply Hfresh in H. pose proof (cached_ref_allocated _ _ Hcache Hl). lia.
      * by apply (Hsep l).
Qed.

Lemma unchanged_outside_refl L h : unchanged_outside L h h.
Proof. split; auto. Qed.

Lemma step_next_post E st s :
  config_ok s (mkConfig st Next) ->
  step_post s (mkConfig st Next) (step E (mkConfig st Next) s).
Proof.
  intros [Hcache Hres Hlive Hnd Hsep]. unfold step_post.
  rewrite live_next in *. unfold results_of in Hres; simpl in Hres.
  unfold step; simpl.
  destruct st as [|[node todo d] rest];
    [split; [done | apply unchanged_outside_refl]|].
  simpl. rewrite stack_refs_cons in *. rewrite stack_results_cons in Hres.
  simpl in *.
  destruct todo as [|child todo].
  2:{ (* visit the next child *)
      munfold. split; [by split|]. split; [apply unchanged_outside_refl|].
      intros l Hl. by left. }
  unfold bind, exitNode. destruct d as [l|acc]; simpl in *.
  - (* exit through the dispatch table *)
    assert (Hargs : forall a, a ∈ l -> tag_ok (heap s) a).
    { intros a Ha. apply Hres. rewrite elem_of_app. by left. }
    pose proof (exit_node_dispatcher_post E node l s Hargs) as HP.
    destruct (exit_node_dispatcher E node l s) as [r s1|e s1]; simpl in HP.
    2:{ destruct HP as [He Hc1]. split.
        - eapply cache_ok_effect; eauto.
          intros k _ Hk. by apply elem_of_nil in Hk.
        - eapply heap_effect_unchanged; eauto.
          + intros k Hk. rewrite elem_of_app. by left.
          + intros k Hk. by apply elem_of_nil in Hk. }
    destruct HP as (He & Ht & Hfrom & Hc1). simpl.
    assert (Hlen : length (heap s) <= length (heap s1)) by apply He.
    apply NoDup_app in Hnd as (Hnd1 & Hdisj & Hnd2).
    assert (Hrest : forall x, x ∈ stack_results rest -> tag_ok (heap s1) x).
    { intros x Hx. eapply tag_ok_effect; eauto.
      - intros k _ Hk. by apply elem_of_nil in Hk.
      - apply Hres. rewrite elem_of_app. by right. }
    assert (Hold : forall k t, subexpression_cache s !! k = Some t ->
                               tag_ok (heap s1) t).
    { intros k t Hk. eapply tag_ok_effect; eauto.
      intros k' _ Hk'. by apply elem_of_nil in Hk'. }
    split.
    2:{ split.
        - eapply heap_effect_unchanged; eauto.
          + intros k Hk. rewrite elem_of_app. by left.
          + intros k Hk. by apply elem_of_nil in Hk.
        - rewrite live_return. intros k. rewrite !elem_of_app.
          intros [Hk|Hk]; [|left; by right].
          destruct (Hfrom k Hk); [left; by left | by right]. }
    split.
    + (* the cache *)
      intros id t Hid. destruct Hc1 as [Hc1|(id' & a & Ha & Hc1 & _)].
      * rewrite Hc1 in Hid. eauto.
      * rewrite Hc1 in Hid. destruct (decide (id' = id)) as [->|Hne].
        -- rewrite lookup_insert_eq in Hid. injection Hid as <-.
           eapply tag_ok_effect; eauto. intros k _ Hk. by apply elem_of_nil in Hk.
        -- rewrite lookup_insert_ne in Hid by done. eauto.
    + unfold results_of; simpl. intros x. rewrite elem_of_cons.
      intros [->|Hx]; auto.
    + rewrite live_return. intros k. rewrite elem_of_app. intros [Hk|Hk].
      * by eapply tag_ok_allocated.
      * assert (k < length (heap s)); [|lia].
        apply Hlive. rewrite elem_of_app. by right.
    + rewrite live_return. apply NoDup_app.
      split; [apply NoDup_res_refs|]. split; [|done].
      intros k Hk Hk'. destruct (Hfrom k Hk) as [Hin|Hnew].
      * by apply (Hdisj k).
      * assert (k < length (heap s)); [|lia].
        apply Hlive. rewrite elem_of_app. by right.
    + rewrite live_return. intros k (id & t & Hid). rewrite elem_of_app.
      destruct Hc1 as [Hc1|(id' & a & Ha & Hc1 & Hnew)].
      * rewrite Hc1 in Hid.
        assert (Hck : cached_ref s k) by (by exists id, t).
        intros [Hk|Hk].
        -- destruct (Hfrom k Hk) as [Hin|Hfresh].
           ++ apply (Hsep k Hck). rewrite elem_of_app. by left.
           ++ pose proof (cached_ref_allocated _ _ Hcache Hck). lia.
        -- apply (Hsep k Hck). rewrite elem_of_app. by right.
      * rewrite Hc1 in Hid. destruct (decide (id' = id)) as [->|Hne].
        -- rewrite lookup_insert_eq in Hid. injection Hid as ->.
           assert (Hkl : k ∈ refs_of l) by (by eapply refs_of_here).
           intros [Hk|Hk].
           ++ apply Hnew in Hk.
              assert (k < length (heap s)); [|lia].
              apply Hlive. rewrite elem_of_app. by left.
           ++ by apply (Hdisj k).
        -- rewrite lookup_insert_ne in Hid by done.
           assert (Hck : cached_ref s k) by (by exists id, t).
           intros [Hk|Hk].
           ++ apply Hnew in Hk.
              pose proof (cached_ref_allocated _ _ Hcache Hck). lia.
           ++ apply (Hsep k Hck). rewrite elem_of_app. by right.
  - (* exit of a sum: classify the accumulator *)
    pose proof (walker_exitNode_post acc s) as HP.
    destruct (walker_exitNode acc s) as [r s1|e s1]; simpl in HP.
    2:{ subst. split; [done | apply unchanged_outside_refl]. }
    destruct HP as (-> & Ht & Hacc). simpl.
    split; [|split; [apply unchanged_outside_refl|]].
    2:{ rewrite live_return. intros k. rewrite elem_of_app.
        intros [Hk|Hk]; left; [apply Hacc in Hk as ->; by left | by right]. }
    apply NoDup_cons in Hnd as [Hnotin Hnd].
    split; [done| | | |].
    + unfold results_of; simpl. intros x. rewrite elem_of_cons.
      intros [->|Hx]; auto.
    + rewrite live_return. intros k. rewrite elem_of_app. intros [Hk|Hk].
      * by eapply tag_ok_allocated.
      * apply Hlive. by right.
    + rewrite live_return. apply NoDup_app.
      split; [apply NoDup_res_refs|]. split; [|done].
      intros k Hk Hk'. apply Hacc in Hk as ->. done.
    + rewrite live_return. intros k Hck. rewrite elem_of_app. intros [Hk|Hk].
      * apply Hacc in Hk as ->. apply (Hsep acc Hck). by left.
      * apply (Hsep k Hck). by right.
Qed.

Lemma step_return_post E st r s :
  config_ok s (mkConfig st (Return r)) ->
  step_post s (mkConfig st (Return r)) (step E (mkConfig st (Return r)) s).
Proof.
  intros [Hcache Hres Hlive Hnd Hsep]. unfold step_post.
  rewrite live_return in *. unfold results_of in Hres; simpl in Hres.
  unfold step; simpl.
  destruct st as [|[node todo d] rest].
  - (* the root is classified: finalize *)
    unfold bind. pose proof (finalizeResult_post r s) as HP.
    assert (Hun : forall s', heap_effect [] (res_refs r) (heap s) (heap s') ->
                    unchanged_outside (res_refs r ++ stack_refs []) (heap s) (heap s')).
    { intros s' He. eapply heap_effect_unchanged; eauto.
      - intros k Hk. by apply elem_of_nil in Hk.
      - intros k Hk. rewrite elem_of_app. by left. }
    destruct (finalizeResult r s) as [ans s1|e s1]; destruct HP as [He Hc1];
      simpl; (split; [|by apply Hun]);
      (eapply cache_ok_effect; eauto);
      intros k Hck Hk; apply (Hsep k Hck); rewrite elem_of_app; by left.
  - rewrite stack_refs_cons in *. rewrite stack_results_cons in Hres.
    simpl in *. destruct d as [l|acc]; simpl in *.
    + (* append to the list of results *)
      munfold. split; [|split; [apply unchanged_outside_refl|]].
      2:{ rewrite live_next, stack_refs_cons; simpl.
          change (concat (map res_refs (l ++ [r]))) with (refs_of (l ++ [r])).
          rewrite refs_of_app, refs_of_singleton. intros k Hk. left.
          rewrite !elem_of_app in *. tauto. }
      split; [done| | | |].
      * unfold results_of; simpl. rewrite stack_results_cons; simpl.
        intros x. rewrite !elem_of_app. intros [[Hx|Hx]|Hx]; apply Hres.
        -- right. rewrite elem_of_app. by left.
        -- apply list_elem_of_singleton in Hx as ->. by left.
        -- right. rewrite elem_of_app. by right.
      * rewrite live_next, stack_refs_cons; simpl.
        change (concat (map res_refs (l ++ [r]))) with (refs_of (l ++ [r])).
        rewrite refs_of_app, refs_of_singleton. intros k.
        rewrite !elem_of_app. intros [[Hk|Hk]|Hk]; apply Hlive;
          rewrite !elem_of_app; auto.
      * rewrite live_next, stack_refs_cons; simpl.
        change (concat (map res_refs (l ++ [r]))) with (refs_of (l ++ [r])).
        rewrite refs_of_app, refs_of_singleton.
        eapply NoDup_Permutation_proper; [|exact Hnd].
        change (concat (map res_refs l)) with (refs_of l).
        rewrite (Permutation_app_comm (refs_of l) (res_refs r)).
        by rewrite app_assoc.
      * rewrite live_next, stack_refs_cons; simpl.
        change (concat (map res_refs (l ++ [r]))) with (refs_of (l ++ [r])).
        rewrite refs_of_app, refs_of_singleton. intros k Hck.
        specialize (Hsep k Hck). rewrite !elem_of_app in *.
        intros [[Hk|Hk]|Hk]; apply Hsep; auto.
    + (* fold into the accumulator of a sum *)
      unfold bind. pose proof (acceptChildResult_DResult acc r s) as HP.
      unfold acceptChildResult in HP.
      assert (Hun : forall s', heap_effect [] [acc] (heap s) (heap s') ->
                unchanged_outside (res_refs r ++ acc :: stack_refs rest)
                                  (heap s) (heap s')).
      { intros s' He. eapply heap_effect_unchanged; eauto.
        - intros k Hk. by apply elem_of_nil in Hk.
        - intros k ->%list_elem_of_singleton. rewrite elem_of_app. right. by left. }
      destruct (bind (append acc r) (fun _ => ret (DResult acc)) s)
        as [d' s1|e s1] eqn:Hrun; unfold bind in Hrun; rewrite Hrun in *.
      2:{ destruct HP as [He Hc1]. split; [|by apply Hun].
          eapply cache_ok_effect; eauto.
          intros k Hck ->%list_elem_of_singleton. apply (Hsep acc Hck).
          rewrite elem_of_app. right. by left. }
      destruct HP as (-> & He & Hc1). simpl.
      split; [|split; [by apply Hun|]].
      2:{ rewrite live_next, stack_refs_cons; simpl. intros k Hk. left.
          rewrite elem_of_app. by right. }
      apply NoDup_app in Hnd as (Hnd1 & Hdisj & Hnd2).
      apply NoDup_cons in Hnd2 as [Hacc Hnd2].
      split.
      * eapply cache_ok_effect; eauto.
        intros k Hck ->%list_elem_of_singleton. apply (Hsep acc Hck).
        rewrite elem_of_app. right. by left.
      * unfold results_of; simpl. rewrite stack_results_cons; simpl.
        intros x Hx. eapply tag_ok_effect; eauto.
        -- intros k Hk ->%list_elem_of_singleton. apply Hacc.
           by eapply stack_result_ref.
        -- apply Hres. by right.
      * rewrite live_next, stack_refs_cons; simpl. intros k Hk.
        assert (k < length (heap s)).
        { apply Hlive. rewrite elem_of_app. by right. }
        destruct He as [L1 _ _]. lia.
      * rewrite live_next, stack_refs_cons; simpl.
        apply NoDup_cons. by split.
      * rewrite live_next, stack_refs_cons; simpl. intros k (id & t & Hid).
        rewrite Hc1 in Hid. intros Hk.
        apply (Hsep k); [by exists id, t|]. rewrite elem_of_app. by right.
Qed.

(** Every step of the walk keeps the invariants. *)
Lemma step_keeps_invariants E c s :
  config_ok s c -> step_post s c (step E c s).
Proof.
  destruct c as [st [child| |r]]; intros H.
  - by apply step_visit_post.
  - by apply step_next_post.
  - by apply step_return_post.
Qed.

(** ** Walks *)

Lemma initial_config_ok s e : cache_ok s -> config_ok s (mkConfig [] (Visit e)).
Proof.
  intros Hc. split; [done| | |constructor|]; unfold results_of, live; simpl.
  - intros r Hr. by apply elem_of_nil in Hr.
  - intros l Hl. by apply elem_of_nil in Hl.
  - intros l _ Hl. by apply elem_of_nil in Hl.
Qed.

Lemma run_keeps_invariants E n c s :
  config_ok s c ->
  match run E n c s with
  | Ok (inl c') s' => config_ok s' c'
  | Ok (inr _) s' | Raise _ s' => cache_ok s'
  end.
Proof.
  revert c s. induction n as [|n IH]; intros c s Hok; [done|].
  simpl. unfold bind. pose proof (step_keeps_invariants E c s Hok) as HS.
  destruct (step E c s) as [[c1|ans] s1|e s1]; simpl in HS; [|tauto..].
  apply IH. tauto.
Qed.

(** An object that the walker does not hold is never written again. *)
Lemma run_leaves_unheld_objects E n c s l :
  config_ok s c -> l < length (heap s) -> l ∉ live c ->
  heap (final_state (run E n c s)) !! l = heap s !! l.
Proof.
  revert c s. induction n as [|n IH]; intros c s Hok Hl Hout; [done|].
  simpl. unfold bind. pose proof (step_keeps_invariants E c s Hok) as HS.
  destruct (step E c s) as [[c1|ans] s1|e s1]; simpl in HS.
  - destruct HS as (Hok1 & [Hlen Hfr] & Hfrom).
    rewrite IH; [by apply Hfr | done | lia |].
    intros Hin. destruct (Hfrom l Hin); [done | lia].
  - destruct HS as (_ & [Hlen Hfr]). simpl. by apply Hfr.
  - destruct HS as (_ & [Hlen Hfr]). simpl. by apply Hfr.
Qed.

Lemma cache_ok_new : cache_ok new_visitor.
Proof. intros id r H. simpl in H. by rewrite lookup_empty in H. Qed.

Lemma driver_state_cache_ok s : driver_state s -> cache_ok s.
Proof.
  induction 1 as [|s E n e ans s' _ IH Hw|s E n e err s' _ IH Hw];
    [apply cache_ok_new| |];
    pose proof (run_keeps_invariants E n _ s (initial_config_ok s e IH)) as HR;
    unfold walk_expression in Hw; by rewrite Hw in HR.
Qed.

(** C6: at every point of every walk of a driver, each (tag, payload) pair
    that the walker holds, and each pair in the subexpression cache,
    satisfies the invariant of the data model: the tag is CONSTANT iff the
    linear map is empty and there is no nonlinear part (the payload is
    then a bare number), LINEAR iff the linear map is not empty and there
    is no nonlinear part, GENERAL iff there is a nonlinear part. *)
Theorem classification_tag_fits_payload E n e s c s' :
  driver_state s ->
  walk_expression E n e s = Ok (inl c) s' ->
  (forall r, r ∈ results_of c -> classified (heap s') r) /\
  (forall id r, subexpression_cache s' !! id = Some r -> classified (heap s') r).
Proof.
  intros Hd Hw. apply driver_state_cache_ok in Hd.
  pose proof (run_keeps_invariants E n _ s (initial_config_ok s e Hd)) as HR.
  unfold walk_expression in Hw. rewrite Hw in HR.
  destruct HR as [Hcache Hres _ _ _]. split.
  - intros r Hr. apply tag_ok_classified. by apply Hres.
  - intros id r Hr. apply tag_ok_classified. by eapply Hcache.
Qed.

Lemma classification_tag_fits_payload_witness :
  classified
    (heap (final_state (walk_expression free_env 10 e_plus_x new_visitor)))
    (LINEAR, PRef 1).
Proof.
  eapply (proj1 (classification_tag_fits_payload free_env 10 e_plus_x
                   new_visitor _ _ driver_new ltac:(vm_compute; reflexivity))).
  unfold results_of; simpl. by left.
Defined.

(** ** The subexpression cache *)

Lemma _handle_named_ANY_commits id t r s o :
  heap s !! r = Some o ->
  _handle_named_ANY id (t, PRef r) s =
  Ok (t, PRef (length (heap s)))
     (set_heap (heap s ++ [o])
        (set_cache (<[id := (t, PRef r)]> (subexpression_cache s)) s)).
Proof.
  intros Ho. unfold _handle_named_ANY, duplicate. munfold. simpl.
  rewrite Ho. by destruct o.
Qed.

Lemma _before_named_expression_hit id t r s o :
  subexpression_cache s !! id = Some (t, PRef r) ->
  t <> CONSTANT ->
  heap s !! r = Some o ->
  _before_named_expression id s =
  Ok (false, Some (t, PRef (length (heap s)))) (set_heap (heap s ++ [o]) s).
Proof.
  intros Hid Ht Ho. unfold _before_named_expression, duplicate. munfold.
  rewrite Hid. destruct t; [done| |]; rewrite Ho; by destruct o.
Qed.

Lemma update_leaves_other_objects d f s l :
  l <> d ->
  heap (final_state (update d f s)) !! l = heap s !! l /\
  subexpression_cache (final_state (update d f s)) = subexpression_cache s.
Proof.
  intros Hne. unfold update. munfold. destruct (heap s !! d); simpl; [|done].
  split; [|done]. by apply list_lookup_insert_ne.
Qed.

(** C8: when a named subexpression classifies LINEAR or GENERAL, the exit
    handler caches the classified object itself and hands the caller a
    new object with the same contents; a later cache hit hands out another
    new object with the contents of the cached one; an in-place update of
    one object leaves every other object and the cache as they are; and
    from any point of any walk of a driver on, whatever the walker does,
    finalization and raised errors included, the object of every cache
    entry keeps its contents. *)
Theorem cached_payload_is_never_mutated :
  (forall id t r s o, heap s !! r = Some o ->
     _handle_named_ANY id (t, PRef r) s =
     Ok (t, PRef (length (heap s)))
        (set_heap (heap s ++ [o])
           (set_cache (<[id := (t, PRef r)]> (subexpression_cache s)) s))) /\
  (forall id t r s o,
     subexpression_cache s !! id = Some (t, PRef r) ->
     t <> CONSTANT ->
     heap s !! r = Some o ->
     _before_named_expression id s =
     Ok (false, Some (t, PRef (length (heap s)))) (set_heap (heap s ++ [o]) s)) /\
  (forall d f s l, l <> d ->
     heap (final_state (update d f s)) !! l = heap s !! l /\
     subexpression_cache (final_state (update d f s)) = subexpression_cache s) /\
  (forall E n e s c1 s1 m l,
     driver_state s ->
     walk_expression E n e s = Ok (inl c1) s1 ->
     cached_ref s1 l ->
     heap (final_state (run E m c1 s1)) !! l = heap s1 !! l).
Proof.
  split; [|split; [|split]].
  - apply _handle_named_ANY_commits.
  - apply _before_named_expression_hit.
  - apply update_leaves_other_objects.
  - intros E n e s c1 s1 m l Hd Hw Hl. apply driver_state_cache_ok in Hd.
    pose proof (run_keeps_invariants E n _ s (initial_config_ok s e Hd)) as HR.
    unfold walk_expression in Hw. rewrite Hw in HR.
    apply run_leaves_unheld_objects; [done | |].
    + eapply cached_ref_allocated; [apply HR | done].
    + by apply (ok_sep _ _ HR).
Qed.

Lemma cached_payload_is_never_mutated_witness :
  heap (final_state (walk_expression free_env 30 e_plus_y visitor_after_e_plus_x))
    !! 1
  = heap visitor_after_e_plus_x !! 1.
Proof.
  destruct cached_payload_is_never_mutated as (_ & _ & _ & H).
  apply (H free_env 0 e_plus_y visitor_after_e_plus_x
           (mkConfig [] (Visit e_plus_y)) visitor_after_e_plus_x 30 1).
  - eapply (driver_walk new_visitor free_env 30 e_plus_x 0); [apply driver_new|].
    vm_compute. reflexivity.
  - reflexivity.
  - exists 9, LINEAR. vm_compute. reflexivity.
Defined.

(** ** The search for a suffix value *)

Lemma collect_suffixes_app bs1 bs2 :
  collect_suffixes (bs1 ++ bs2) = collect_suffixes bs1 ++ collect_suffixes bs2.
Proof.
  induction bs1 as [|b bs1 IH]; simpl; [done|].
  destruct (block_component b) as [[[|] s]|]; simpl; by rewrite ?IH.
Qed.

Lemma first_match_app k l1 l2 :
  first_match k (l1 ++ l2) =
  match first_match k l1 with
  | Some v => Some v
  | None => first_match k l2
  end.
Proof.
  induction l1 as [|s l1 IH]; simpl; [done|].
  by destruct (suffix_get k s).
Qed.

Lemma first_match_absent k bs :
  key_absent k bs -> first_match k (collect_suffixes bs) = None.
Proof.
  induction bs as [|b bs IH]; intros Ha; simpl; [done|].
  assert (Hrest : key_absent k bs).
  { intros b' s' Hin. apply Ha. by right. }
  destruct (block_component b) as [[[|] s]|] eqn:Hb; simpl; auto.
  rewrite (Ha b s); auto. by left.
Qed.

Lemma first_match_rev_absent k bs :
  key_absent k bs -> first_match k (rev (collect_suffixes bs)) = None.
Proof.
  induction bs as [|b bs IH]; intros Ha; simpl; [done|].
  assert (Hrest : key_absent k bs).
  { intros b' s' Hin. apply Ha. by right. }
  destruct (block_component b) as [[[|] s]|] eqn:Hb; simpl; auto.
  rewrite first_match_app, IH by done. simpl.
  rewrite (Ha b s); auto. by left.
Qed.

Lemma key_absent_app k bs1 bs2 :
  key_absent k (bs1 ++ bs2) <-> key_absent k bs1 /\ key_absent k bs2.
Proof.
  unfold key_absent. split.
  - intros H. split; intros b s Hin; apply H; apply in_or_app; auto.
  - intros [H1 H2] b s Hin. apply in_app_or in Hin as [Hin|Hin]; eauto.
Qed.

(** The suffixes met from the root down to the block [b], when no block
    further out holds the key. *)
Lemma first_match_rev_outermost k inner b outer s v :
  block_component b = Some (true, s) ->
  suffix_get k s = Some v ->
  key_absent k outer ->
  first_match k (rev (collect_suffixes (inner ++ b :: outer))) = Some v.
Proof.
  intros Hb Hs Ho. rewrite collect_suffixes_app. simpl. rewrite Hb.
  rewrite rev_app_distr. simpl. rewrite <- app_assoc.
  rewrite first_match_app, first_match_rev_absent by done.
  simpl. by rewrite Hs.
Qed.

(** X1: a value that a suffix holds for the component itself is what the
    search returns, taken from the suffix nearest the root among those
    that hold one, whatever the suffixes nearer the component hold and
    whatever is stored for the container or as default. *)
Theorem suffix_finder_component_value_nearest_root cd inner b outer s v :
  cd_blocks cd = inner ++ b :: outer ->
  block_component b = Some (true, s) ->
  suffix_get (KComp (cd_id cd)) s = Some v ->
  key_absent (KComp (cd_id cd)) outer ->
  _suffix_finder cd = v.
Proof.
  intros Hbs Hb Hs Ho. unfold _suffix_finder. rewrite Hbs.
  by rewrite (first_match_rev_outermost _ inner b outer s v).
Qed.

Lemma suffix_finder_component_value_nearest_root_witness :
  _suffix_finder indexed_component = PyNum (of_Z 5).
Proof.
  apply (suffix_finder_component_value_nearest_root indexed_component
           [inner_block] outer_block []
           [(KComp 7, PyNum (of_Z 5)); (KComp 3, PyNum (of_Z 4))]);
    try reflexivity.
  intros b s [].
Defined.

(** X2: when no suffix holds a value for the component itself and the
    component belongs to a container, the search returns the value held
    for the container, from the suffix nearest the root among those that
    hold one, whatever defaults are stored. *)
Theorem suffix_finder_container_value cd inner b outer s v :
  cd_parent_component cd <> cd_id cd ->
  key_absent (KComp (cd_id cd)) (cd_blocks cd) ->
  cd_blocks cd = inner ++ b :: outer ->
  block_component b = Some (true, s) ->
  suffix_get (KComp (cd_parent_component cd)) s = Some v ->
  key_absent (KComp (cd_parent_component cd)) outer ->
  _suffix_finder cd = v.
Proof.
  intros Hne Hcomp Hbs Hb Hs Ho. unfold _suffix_finder.
  rewrite first_match_rev_absent by done.
  apply Nat.eqb_neq in Hne. rewrite Hne. simpl. rewrite Hbs.
  by rewrite (first_match_rev_outermost _ inner b outer s v).
Qed.

Lemma suffix_finder_container_value_witness :
  _suffix_finder component_with_container_value = PyNum (of_Z 4).
Proof.
  apply (suffix_finder_container_value component_with_container_value
           [default_block] container_block []
           [(KComp 3, PyNum (of_Z 4)); (KNone, PyNum (of_Z 8))]);
    try reflexivity.
  - simpl. lia.
  - intros b s [<-|[<-|[]]] [= <-]; reflexivity.
  - intros b s [].
Defined.

(** X3: when no suffix holds a value for the component or for its
    container, the search returns the default (the value under [None])
    of the suffix nearest the component among those that hold one. *)
Theorem suffix_finder_default_value_nearest_component cd inner b outer s v :
  key_absent (KComp (cd_id cd)) (cd_blocks cd) ->
  key_absent (KComp (cd_parent_component cd)) (cd_blocks cd) ->
  cd_blocks cd = inner ++ b :: outer ->
  key_absent KNone inner ->
  block_component b = Some (true, s) ->
  suffix_get KNone s = Some v ->
  _suffix_finder cd = v.
Proof.
  intros Hcomp Hcont Hbs Hi Hb Hs. unfold _suffix_finder.
  rewrite !first_match_rev_absent by done.
  assert (Hpass2 : (if negb (cd_parent_component cd =? cd_id cd)
                    then @None pyval else None) = None) by (by destruct (negb _)).
  rewrite Hpass2. rewrite Hbs, collect_suffixes_app, first_match_app.
  rewrite first_match_absent by done. simpl. by rewrite Hb; simpl; rewrite Hs.
Qed.

Lemma suffix_finder_default_value_nearest_component_witness :
  _suffix_finder component_with_defaults = PyNum (of_Z 9).
Proof.
  apply (suffix_finder_default_value_nearest_component component_with_defaults
           [] default_block [mkBlock (Some (true, [(KNone, PyNum (of_Z 8))]))]
           [(KNone, PyNum (of_Z 9))]);
    try reflexivity.
  - intros b s [<-|[<-|[]]] [= <-]; reflexivity.
  - intros b s [<-|[<-|[]]] [= <-]; reflexivity.
  - intros b s [].
Defined.

(** X4: a component of the requested name that is no [Suffix] is not
    searched: when every block on the way up has no such component or one
    that is no [Suffix], the search finds nothing and the scaling factor
    is 1.0. *)
Theorem scaling_factor_without_suffix parse_float float_of_int py_str cd :
  (forall b, In b (cd_blocks cd) -> no_suffix b) ->
  _suffix_finder cd = PyNone /\
  _get_float_scaling_factor parse_float float_of_int py_str cd = inr num_1.
Proof.
  intros Hno.
  assert (Hcol : collect_suffixes (cd_blocks cd) = []).
  { induction (cd_blocks cd) as [|b bs IH]; simpl; [done|].
    pose proof (Hno b (or_introl eq_refl)) as Hb. unfold no_suffix in Hb.
    destruct (block_component b) as [[[|] s]|]; try done;
      apply IH; intros b' Hin; apply Hno; by right. }
  assert (Hf : _suffix_finder cd = PyNone).
  { unfold _suffix_finder. rewrite Hcol. simpl. by destruct (negb _). }
  split; [done|]. unfold _get_float_scaling_factor. by rewrite Hf.
Qed.

Lemma scaling_factor_without_suffix_witness :
  _suffix_finder component_under_plain_blocks = PyNone /\
  _get_float_scaling_factor no_parse float_of_int_example show_text
    component_under_plain_blocks
    = inr num_1.
Proof.
  apply scaling_factor_without_suffix.
  intros b [<-|[<-|[]]]; exact I.
Defined.

(** ** Scaled bounds *)

Lemma Qle_bool_false p q : Qle_bool p q = false -> (q < p)%Q.
Proof.
  intros H. apply Qnot_le_lt. intros Hle.
  apply Qle_bool_iff in Hle. congruence.
Qed.

Lemma scaled_pair_ordered (f p q : Q) :
  (p <= q)%Q ->
  if negb (Qle_bool 0 f) then (q * f <= p * f)%Q else (p * f <= q * f)%Q.
Proof.
  intros Hpq. destruct (Qle_bool 0 f) eqn:Hf; simpl.
  - apply Qle_bool_iff in Hf. by apply Qmult_le_compat_r.
  - apply Qle_bool_false in Hf.
    apply Qopp_le_compat in Hpq.
    assert (H0 : (0 <= - f)%Q).
    { apply (Qopp_le_compat f 0). by apply Qlt_le_weak. }
    pose proof (Qmult_le_compat_r _ _ _ Hpq H0) as H.
    assert (E1 : (- q * - f == q * f)%Q) by ring.
    assert (E2 : (- p * - f == p * f)%Q) by ring.
    by rewrite E1, E2 in H.
Qed.

Lemma factor_zero (f : Q) : (f == 0)%Q -> is_zero (Fin f) = true.
Proof. intros H. simpl. by apply Qeq_bool_iff. Qed.

Lemma factor_nonzero (f : Q) : ~ (f == 0)%Q -> is_zero (Fin f) = false.
Proof.
  intros H. simpl. destruct (Qeq_bool f 0) eqn:E; [|done].
  exfalso. apply H. by apply Qeq_bool_iff.
Qed.

Lemma factor_positive (f : Q) :
  (0 < f)%Q -> is_zero (Fin f) = false /\ num_ltb (Fin f) num_0 = false.
Proof.
  intros H. split.
  - apply factor_nonzero. intros E. rewrite E in H. by apply Qlt_irrefl in H.
  - simpl. apply Qlt_le_weak, Qle_bool_iff in H. by rewrite H.
Qed.

Lemma factor_negative (f : Q) :
  (f < 0)%Q -> is_zero (Fin f) = false /\ num_ltb (Fin f) num_0 = true.
Proof.
  intros H. split.
  - apply factor_nonzero. intros E. rewrite E in H. by apply Qlt_irrefl in H.
  - simpl. destruct (Qle_bool 0 f) eqn:E; [|done].
    apply Qle_bool_iff in E. by apply Qlt_not_le in H.
Qed.

Lemma scaled_ordered_positive (f : Q) lb ub :
  (0 < f)%Q -> ordered_bounds lb ub ->
  ordered_bounds (scaled (Fin f) lb) (scaled (Fin f) ub).
Proof.
  intros Hf. destruct lb as [[p| |]|], ub as [[q| |]|]; simpl; try done.
  intros Hpq. pose proof (scaled_pair_ordered f p q Hpq) as H.
  apply Qlt_le_weak, Qle_bool_iff in Hf. by rewrite Hf in H.
Qed.

Lemma scaled_ordered_negative (f : Q) lb ub :
  (f < 0)%Q -> ordered_bounds lb ub ->
  ordered_bounds (scaled (Fin f) ub) (scaled (Fin f) lb).
Proof.
  intros Hf. destruct lb as [[p| |]|], ub as [[q| |]|]; simpl; try done.
  intros Hpq. pose proof (scaled_pair_ordered f p q Hpq) as H.
  destruct (Qle_bool 0 f) eqn:E; [|done].
  apply Qle_bool_iff in E. by apply Qlt_not_le in Hf.
Qed.

(** X5: the body of the variable loop of [_apply_to], for a finite
    scaling factor: with the factor zero it raises [ZeroDivisionError]
    before any bound is touched; with a positive factor it multiplies
    both bounds and the value by the factor; with a negative factor it
    multiplies them and exchanges the bounds, the new lower bound being
    the old upper bound times the factor and the new upper bound the old
    lower bound times the factor; in both cases finite bounds that were
    in order stay in order, and an absent bound or value stays absent. *)
Theorem scale_variable_keeps_bounds_ordered (f : Q) (v : var_data) :
  ((f == 0)%Q -> scale_variable (Fin f) v = inl ZeroDivisionError) /\
  ((0 < f)%Q ->
   exists v',
     scale_variable (Fin f) v = inr v' /\
     vd_lb v' = scaled (Fin f) (vd_lb v) /\
     vd_ub v' = scaled (Fin f) (vd_ub v) /\
     vd_value v' = scaled (Fin f) (vd_value v) /\
     (ordered_bounds (vd_lb v) (vd_ub v) -> ordered_bounds (vd_lb v') (vd_ub v'))) /\
  ((f < 0)%Q ->
   exists v',
     scale_variable (Fin f) v = inr v' /\
     vd_lb v' = scaled (Fin f) (vd_ub v) /\
     vd_ub v' = scaled (Fin f) (vd_lb v) /\
     vd_value v' = scaled (Fin f) (vd_value v) /\
     (ordered_bounds (vd_lb v) (vd_ub v) -> ordered_bounds (vd_lb v') (vd_ub v'))).
Proof.
  split; [|split].
  - intros Hf. unfold scale_variable. by rewrite (factor_zero f Hf).
  - intros Hf. destruct (factor_positive f Hf) as [Hz Hlt].
    unfold scale_variable. rewrite Hz, Hlt. eexists. split; [reflexivity|].
    destruct v as [lb ub x].
    pose proof (scaled_ordered_positive f lb ub Hf) as Hord.
    destruct lb, ub, x; simpl in *; repeat split; done.
  - intros Hf. destruct (factor_negative f Hf) as [Hz Hlt].
    unfold scale_variable. rewrite Hz, Hlt. eexists. split; [reflexivity|].
    destruct v as [lb ub x].
    pose proof (scaled_ordered_negative f lb ub Hf) as Hord.
    destruct lb, ub, x; simpl in *; repeat split; done.
Qed.

Lemma scale_variable_keeps_bounds_ordered_witness :
  exists v',
    scale_variable (Fin (-2)) var_minus5_5 = inr v' /\
    vd_lb v' = Some (num_mul (of_Z 5) (Fin (-2))) /\
    vd_ub v' = Some (num_mul (of_Z (-5)) (Fin (-2))) /\
    vd_value v' = Some (num_mul (of_Z 1) (Fin (-2))) /\
    ordered_bounds (vd_lb v') (vd_ub v').
Proof.
  destruct (proj2 (proj2 (scale_variable_keeps_bounds_ordered (-2) var_minus5_5)))
    as (v' & Hv & Hlb & Hub & Hx & Ho); [reflexivity|].
  exists v'. split; [exact Hv|]. split; [exact Hlb|]. split; [exact Hub|].
  split; [exact Hx|]. apply Ho. simpl. discriminate.
Defined.

(** X6: what the constraint loop of [_apply_to] does with the right-hand
    sides and the dual of a constraint, for a finite scaling factor: with
    a positive factor both sides are multiplied by the factor; with a
    negative factor they are multiplied and exchanged, the new lower side
    being the old upper side times the factor and the new upper side the
    old lower side times the factor; an equality gets the new lower side
    on both sides; sides that were in order stay in order and an absent
    side stays absent; a dual value is divided by the factor, and with
    the factor zero that division raises [ZeroDivisionError] before the
    sides are set; without a dual value the factor zero sets both sides
    to their products with zero. *)
Theorem scale_constraint_bounds_ordered (f : Q) lower upper equality dual :
  ((f == 0)%Q -> forall d, dual = Some d ->
   scale_constraint (Fin f) lower upper equality dual = inl ZeroDivisionError) /\
  ((f == 0)%Q -> dual = None ->
   scale_constraint (Fin f) lower upper equality dual =
     inr (scaled (Fin f) lower,
          scaled (Fin f) (if equality then lower else upper), None)) /\
  ((0 < f)%Q ->
   exists dual',
     scale_constraint (Fin f) lower upper equality dual =
       inr (scaled (Fin f) lower,
            scaled (Fin f) (if equality then lower else upper), dual') /\
     match dual with
     | Some d => exists x, num_div d (Fin f) = inr x /\ dual' = Some x
     | None => dual' = None
     end /\
     (ordered_bounds lower upper ->
      ordered_bounds (scaled (Fin f) lower)
                     (scaled (Fin f) (if equality then lower else upper)))) /\
  ((f < 0)%Q ->
   exists dual',
     scale_constraint (Fin f) lower upper equality dual =
       inr (scaled (Fin f) upper,
            scaled (Fin f) (if equality then upper else lower), dual') /\
     match dual with
     | Some d => exists x, num_div d (Fin f) = inr x /\ dual' = Some x
     | None => dual' = None
     end /\
     (ordered_bounds lower upper ->
      ordered_bounds (scaled (Fin f) upper)
                     (scaled (Fin f) (if equality then upper else lower)))).
Proof.
  split; [|split; [|split]].
  - intros Hf d ->. unfold scale_constraint, num_div.
    rewrite (factor_zero f Hf). by destruct (num_ltb (Fin f) num_0).
  - intros Hf ->. unfold scale_constraint.
    assert (Hlt : num_ltb (Fin f) num_0 = false).
    { simpl. assert (H : (0 <= f)%Q) by (rewrite Hf; apply Qle_refl).
      apply Qle_bool_iff in H. by rewrite H. }
    rewrite Hlt. simpl. by destruct equality.
  - intros Hf. destruct (factor_positive f Hf) as [Hz Hlt].
    pose proof (scaled_ordered_positive f lower upper Hf) as Hord.
    assert (Hsame : ordered_bounds lower upper ->
      ordered_bounds (scaled (Fin f) lower) (scaled (Fin f) lower)).
    { destruct lower as [[p| |]|], upper as [[q| |]|]; simpl; try done.
      intros _. apply Qle_refl. }
    unfold scale_constraint, num_div. rewrite Hz, Hlt.
    destruct dual as [d|]; simpl; eexists;
      (split; [by destruct equality|]);
      (split; [by eauto|]); by destruct equality.
  - intros Hf. destruct (factor_negative f Hf) as [Hz Hlt].
    pose proof (scaled_ordered_negative f lower upper Hf) as Hord.
    assert (Hsame : ordered_bounds lower upper ->
      ordered_bounds (scaled (Fin f) upper) (scaled (Fin f) upper)).
    { destruct lower as [[p| |]|], upper as [[q| |]|]; simpl; try done.
      intros _. apply Qle_refl. }
    unfold scale_constraint, num_div. rewrite Hz, Hlt.
    destruct dual as [d|]; simpl; eexists;
      (split; [by destruct equality|]);
      (split; [by eauto|]); by destruct equality.
Qed.

(** ** Dictionaries *)

Lemma dict_get_set_eq k v d : dict_get k (dict_set k v d) = Some v.
Proof.
  induction d as [|[k' v'] d IH]; simpl; [by rewrite Nat.eqb_refl|].
  destruct (Nat.eqb_spec k k') as [->|Hne]; simpl.
  - by rewrite Nat.eqb_refl.
  - by destruct (Nat.eqb_spec k k').
Qed.

Lemma dict_get_set_ne k k' v d :
  k <> k' -> dict_get k (dict_set k' v d) = dict_get k d.
Proof.
  intros Hne. induction d as [|[k2 v2] d IH]; simpl.
  - by destruct (Nat.eqb_spec k k').
  - destruct (Nat.eqb_spec k' k2) as [->|Hne2]; simpl.
    + by destruct (Nat.eqb_spec k k2).
    + destruct (Nat.eqb_spec k k2); [done | exact IH].
Qed.

Lemma dict_get_Some_key k c d : dict_get k d = Some c -> k ∈ dict_keys d.
Proof.
  induction d as [|[k' v'] d IH]; simpl; [done|].
  destruct (Nat.eqb_spec k k') as [->|Hne]; intros H; [by left | right; auto].
Qed.

Lemma dict_get_None_key k d : dict_get k d = None <-> k ∉ dict_keys d.
Proof.
  split; [|apply dict_get_notin].
  intros Hget Hin. induction d as [|[k' v'] d IH]; simpl in *.
  - by apply elem_of_nil in Hin.
  - destruct (Nat.eqb_spec k k') as [->|Hne]; [done|].
    apply elem_of_cons in Hin as [?|Hin]; auto.
Qed.

Lemma dict_keys_set_present k v d :
  k ∈ dict_keys d -> dict_keys (dict_set k v d) = dict_keys d.
Proof.
  induction d as [|[k' v'] d IH]; simpl; intros Hin.
  - by apply elem_of_nil in Hin.
  - destruct (Nat.eqb_spec k k') as [->|Hne]; simpl; [done|].
    f_equal. apply IH. apply elem_of_cons in Hin as [?|Hin]; [done | exact Hin].
Qed.

Lemma dict_keys_set_absent k v d :
  k ∉ dict_keys d -> dict_keys (dict_set k v d) = dict_keys d ++ [k].
Proof.
  induction d as [|[k' v'] d IH]; simpl; intros Hn; [done|].
  destruct (Nat.eqb_spec k k') as [->|Hne]; simpl.
  - exfalso. apply Hn. by left.
  - f_equal. apply IH. intros Hin. apply Hn. by right.
Qed.

Lemma dict_keys_set k v d :
  dict_keys (dict_set k v d) =
    if dict_mem k d then dict_keys d else dict_keys d ++ [k].
Proof.
  unfold dict_mem. destruct (dict_get k d) as [c|] eqn:Hget.
  - apply dict_keys_set_present. by eapply dict_get_Some_key.
  - apply dict_keys_set_absent. by apply dict_get_None_key.
Qed.

Lemma dict_set_NoDup k v d :
  NoDup (dict_keys d) -> NoDup (dict_keys (dict_set k v d)).
Proof.
  intros Hnd. rewrite dict_keys_set. unfold dict_mem.
  destruct (dict_get k d) eqn:Hget; [done|].
  apply NoDup_app. split; [done|]. split; [|apply NoDup_singleton].
  intros x Hx ->%list_elem_of_singleton. by apply dict_get_None_key in Hget.
Qed.

Lemma dict_set_key_inv k k' v d :
  k ∈ dict_keys (dict_set k' v d) -> k = k' \/ k ∈ dict_keys d.
Proof.
  rewrite dict_keys_set. destruct (dict_mem k' d); [by right|].
  rewrite elem_of_app, list_elem_of_singleton. tauto.
Qed.

(** ** Merging linear maps *)

Lemma _merge_dict_fold mult self_dict other_dict :
  _merge_dict mult self_dict other_dict =
    fold_left (merge_entry mult) other_dict self_dict.
Proof.
  unfold _merge_dict, merge_entry, merged_coef.
  destruct (num_eqb mult num_1); revert self_dict;
    induction other_dict as [|[vid coef] rest IH]; intros self_dict; simpl;
    try done; apply IH.
Qed.

Lemma merge_entry_get mult d kv k :
  dict_get k (merge_entry mult d kv) =
    if Nat.eqb k (fst kv) then
      match dict_get k d with
      | Some c => Some (num_add c (merged_coef mult (snd kv)))
      | None => Some (merged_coef mult (snd kv))
      end
    else dict_get k d.
Proof.
  unfold merge_entry. destruct (Nat.eqb_spec k (fst kv)) as [->|Hne].
  - destruct (dict_get (fst kv) d); apply dict_get_set_eq.
  - destruct (dict_get (fst kv) d); by apply dict_get_set_ne.
Qed.

Lemma merge_entry_keys mult d kv :
  dict_keys (merge_entry mult d kv) =
    if dict_mem (fst kv) d then dict_keys d else dict_keys d ++ [fst kv].
Proof.
  unfold merge_entry, dict_mem.
  destruct (dict_get (fst kv) d) eqn:Hget; rewrite dict_keys_set; unfold dict_mem;
    by rewrite Hget.
Qed.

Lemma merge_fold_get_absent mult other d k :
  k ∉ dict_keys other ->
  dict_get k (fold_left (merge_entry mult) other d) = dict_get k d.
Proof.
  revert d. induction other as [|[k' v'] other IH]; intros d Hn; simpl; [done|].
  rewrite IH by (intros Hin; apply Hn; by right).
  rewrite merge_entry_get. simpl.
  destruct (Nat.eqb_spec k k') as [->|Hne]; [|done].
  exfalso. apply Hn. by left.
Qed.

Lemma merge_fold_NoDup mult other d :
  NoDup (dict_keys d) -> NoDup (dict_keys (fold_left (merge_entry mult) other d)).
Proof.
  revert d. induction other as [|kv other IH]; intros d Hnd; simpl; [done|].
  apply IH. unfold merge_entry.
  destruct (dict_get (fst kv) d); by apply dict_set_NoDup.
Qed.

Lemma merge_fold_key_inv mult other d k :
  k ∈ dict_keys (fold_left (merge_entry mult) other d) ->
  k ∈ dict_keys d \/ k ∈ dict_keys other.
Proof.
  revert d. induction other as [|kv other IH]; intros d; simpl; [by left|].
  intros [Hin|Hin]%IH; [|right; by right].
  rewrite merge_entry_keys in Hin. destruct (dict_mem (fst kv) d); [by left|].
  apply elem_of_app in Hin as [?|Hin]; [by left|].
  apply list_elem_of_singleton in Hin as ->. right. by left.
Qed.

(** X7: after [_merge_dict(mult, self_dict, other_dict)] the entry of a
    key is the sum of its entry in [self_dict] and of [mult] times its
    entry in [other_dict] (the factor is left out under the test
    [mult == 1]); a key of one dictionary only keeps, or gets, the
    corresponding term alone, and no other key appears. *)
Theorem merge_dict_lookup mult self_dict other_dict k :
  NoDup (dict_keys other_dict) ->
  dict_get k (_merge_dict mult self_dict other_dict) =
    match dict_get k self_dict, dict_get k other_dict with
    | Some c, Some d => Some (num_add c (merged_coef mult d))
    | Some c, None => Some c
    | None, Some d => Some (merged_coef mult d)
    | None, None => None
    end.
Proof.
  rewrite _merge_dict_fold. revert self_dict.
  induction other_dict as [|[k' v'] other IH]; intros self_dict Hnd; simpl.
  - by destruct (dict_get k self_dict).
  - apply NoDup_cons in Hnd as [Hk' Hnd].
    destruct (Nat.eqb_spec k k') as [->|Hne].
    + rewrite merge_fold_get_absent by done.
      rewrite merge_entry_get. simpl. by rewrite Nat.eqb_refl.
    + rewrite IH by done. rewrite merge_entry_get. simpl.
      by destruct (Nat.eqb_spec k k').
Qed.

Lemma merge_dict_lookup_witness :
  dict_get 0 (_merge_dict num_1 dict_3x_2y dict_m3x_4z)
    = Some (num_add (of_Z 3) (merged_coef num_1 (of_Z (-3)))).
Proof.
  apply (merge_dict_lookup num_1 dict_3x_2y dict_m3x_4z 0).
  apply NoDup_ListNoDup. repeat constructor; simpl; lia.
Defined.

(** X8: [_merge_dict] keeps the keys of [self_dict] in their positions
    and appends the keys that only [other_dict] has, in the order of
    [other_dict]. *)
Theorem merge_dict_key_order mult self_dict other_dict :
  NoDup (dict_keys other_dict) ->
  dict_keys (_merge_dict mult self_dict other_dict) =
    dict_keys self_dict ++
    List.filter (fun k => negb (dict_mem k self_dict)) (dict_keys other_dict).
Proof.
  rewrite _merge_dict_fold. revert self_dict.
  induction other_dict as [|[k' v'] other IH]; intros self_dict Hnd; simpl.
  - by rewrite app_nil_r.
  - apply NoDup_cons in Hnd as [Hk' Hnd]. rewrite IH by done.
    rewrite merge_entry_keys. simpl.
    assert (Hmem : forall k, k ∈ dict_keys other ->
      dict_mem k (merge_entry mult self_dict (k', v')) = dict_mem k self_dict).
    { intros k Hk. unfold dict_mem. rewrite merge_entry_get. simpl.
      destruct (Nat.eqb_spec k k') as [->|Hne]; [done | done]. }
    assert (Hfil :
      List.filter (fun k => negb (dict_mem k (merge_entry mult self_dict (k', v'))))
        (dict_keys other) =
      List.filter (fun k => negb (dict_mem k self_dict)) (dict_keys other)).
    { clear IH Hk'. induction (dict_keys other) as [|k ks IHk]; simpl; [done|].
      rewrite Hmem by (by left). rewrite IHk; [done|].
      intros k0 Hk0. apply Hmem. by right. }
    rewrite Hfil. destruct (dict_mem k' self_dict); simpl; [done|].
    by rewrite <- app_assoc.
Qed.

Lemma merge_dict_key_order_witness :
  dict_keys (_merge_dict num_1 dict_3x_2y dict_m3x_4z) = [0; 1; 2].
Proof.
  apply (merge_dict_key_order num_1 dict_3x_2y dict_m3x_4z).
  apply NoDup_ListNoDup. repeat constructor; simpl; lia.
Defined.

(** ** The registry *)

Lemma registry_ok_new : registry_ok ∅ ∅.
Proof.
  split.
  - intros v. by rewrite !lookup_empty.
  - intros v i. by rewrite lookup_empty.
  - intros v w i. by rewrite lookup_empty.
  - intros i. rewrite map_size_empty. lia.
Qed.

Lemma registry_ok_fresh vm vo v :
  registry_ok vm vo -> vm !! v = None -> vo !! v = None.
Proof.
  intros [Hdom _ _ _] Hv. apply eq_None_not_Some. rewrite <- Hdom.
  by rewrite Hv; intros [? ?].
Qed.

Lemma registry_ok_insert vm vo v :
  registry_ok vm vo -> vm !! v = None ->
  registry_ok (<[v := v]> vm) (<[v := size vo]> vo).
Proof.
  intros Hok Hv. pose proof (registry_ok_fresh _ _ _ Hok Hv) as Hvo.
  destruct Hok as [Hdom Hb Hinj Hsurj].
  assert (Hsize : size (<[v := size vo]> vo) = S (size vo))
    by (by apply map_size_insert_None).
  split.
  - intros w. rewrite !lookup_insert_is_Some. by rewrite Hdom.
  - intros w i. rewrite Hsize. rewrite lookup_insert_Some.
    intros [[_ <-]|[_ Hw]]; [lia|]. apply Hb in Hw. lia.
  - intros w1 w2 i. rewrite !lookup_insert_Some.
    intros [[<- <-]|[Hn1 H1]] [[<- E]|[Hn2 H2]]; try done.
    + apply Hb in H2. lia.
    + apply Hb in H1. lia.
    + by eapply Hinj.
  - intros i. rewrite Hsize. intros Hi.
    destruct (decide (i = size vo)) as [->|Hne].
    + exists v. by rewrite lookup_insert_eq.
    + destruct (Hsurj i) as [w Hw]; [lia|]. exists w.
      rewrite lookup_insert_ne; [done|]. intros <-. congruence.
Qed.

Lemma registry_extends_refl s : registry_extends s s.
Proof. by split. Qed.

Lemma registry_extends_trans s1 s2 s3 :
  registry_extends s1 s2 -> registry_extends s2 s3 -> registry_extends s1 s3.
Proof. intros [? ?] [? ?]. split; by etrans. Qed.

Lemma dict_ok_nil vm : dict_ok vm [].
Proof. split; [constructor|]. intros k Hk. by apply elem_of_nil in Hk. Qed.

Lemma dict_ok_mono vm vm' d : vm ⊆ vm' -> dict_ok vm d -> dict_ok vm' d.
Proof.
  intros Hsub [Hnd Hreg]. split; [done|]. intros k Hk.
  destruct (Hreg k Hk) as [x Hx]. exists x. by eapply lookup_weaken.
Qed.

Lemma dict_ok_set vm k v d :
  is_Some (vm !! k) -> dict_ok vm d -> dict_ok vm (dict_set k v d).
Proof.
  intros Hk [Hnd Hreg]. split; [by apply dict_set_NoDup|].
  intros k' [->|Hin]%dict_set_key_inv; auto.
Qed.

Lemma dict_ok_merge vm mult d1 d2 :
  dict_ok vm d1 -> dict_ok vm d2 -> dict_ok vm (_merge_dict mult d1 d2).
Proof.
  intros [Hnd1 Hreg1] [Hnd2 Hreg2]. rewrite _merge_dict_fold. split.
  - by apply merge_fold_NoDup.
  - intros k [Hin|Hin]%merge_fold_key_inv; auto.
Qed.

(** ** Growth *)

Lemma grows_refl s : grows s s.
Proof. intros H. split; [done | apply registry_extends_refl]. Qed.

Lemma grows_trans s1 s2 s3 : grows s1 s2 -> grows s2 s3 -> grows s1 s3.
Proof.
  intros H12 H23 H1. destruct (H12 H1) as [H2 E12].
  destruct (H23 H2) as [H3 E23]. split; [done|].
  by eapply registry_extends_trans.
Qed.

Lemma growing_ret {A} (a : A) : growing (ret a).
Proof. intros s. apply grows_refl. Qed.

Lemma growing_raise {A} e : growing (@raise A e).
Proof. intros s. apply grows_refl. Qed.

Lemma growing_bind {A B} (m : M A) (k : A -> M B) :
  growing m -> (forall a, growing (k a)) -> growing (bind m k).
Proof.
  intros Hm Hk s. unfold bind. specialize (Hm s).
  destruct (m s) as [a s1|e s1]; [|done].
  specialize (Hk a s1). destruct (k a s1); by eapply grows_trans.
Qed.

Lemma growing_readonly {A} (m : M A) : readonly m -> growing m.
Proof.
  intros Hm s. specialize (Hm s). destruct (m s); subst; apply grows_refl.
Qed.

(** ** Computations that build no linear map *)

Lemma same_linear_refl s : same_linear s s.
Proof.
  split; [done|]. split; [done|]. intros l o Ho. right. by exists l, o.
Qed.

Lemma same_linear_grows s0 s : same_linear s0 s -> grows s0 s.
Proof.
  intros (Hvm & Hvo & Hheap) [Hreg Hst]. split; [split|].
  - by rewrite Hvm, Hvo.
  - intros l o Ho. rewrite Hvm. destruct (Hheap l o Ho) as [->|(l0 & o0 & Ho0 & ->)].
    + apply dict_ok_nil.
    + by eapply Hst.
  - split; by rewrite ?Hvm, ?Hvo.
Qed.

Lemma keeps_linear_growing {A} (m : M A) : keeps_linear m -> growing m.
Proof.
  intros Hm s. specialize (Hm s s (same_linear_refl s)).
  destruct (m s); by apply same_linear_grows.
Qed.

Lemma kl_readonly {A} s0 (m : M A) : readonly m -> keeps_linear_from s0 m.
Proof. intros Hm s Hs. specialize (Hm s). by destruct (m s); subst. Qed.

Lemma kl_ret {A} s0 (a : A) : keeps_linear_from s0 (ret a).
Proof. by intros s Hs. Qed.

Lemma kl_raise {A} s0 e : keeps_linear_from s0 (@raise A e).
Proof. by intros s Hs. Qed.

Lemma kl_bind {A B} s0 (m : M A) (k : A -> M B) :
  keeps_linear_from s0 m -> (forall a, keeps_linear_from s0 (k a)) ->
  keeps_linear_from s0 (bind m k).
Proof.
  intros Hm Hk s Hs. unfold bind. specialize (Hm s Hs).
  destruct (m s) as [a s1|e s1]; [|done]. by apply Hk.
Qed.

Lemma kl_try {A} s0 (m : M A) (h : exn -> M A) :
  keeps_linear_from s0 m -> (forall e, keeps_linear_from s0 (h e)) ->
  keeps_linear_from s0 (try_ m h).
Proof.
  intros Hm Hh s Hs. unfold try_. specialize (Hm s Hs).
  destruct (m s) as [a s1|e s1]; [done|]. by apply Hh.
Qed.

Lemma kl_load_bind {A} s0 r (k : LinearRepn -> M A) :
  (forall o, known s0 o -> keeps_linear_from s0 (k o)) ->
  keeps_linear_from s0 (bind (load r) k).
Proof.
  intros Hk s Hs. unfold bind, load.
  destruct (heap s !! r) as [o|] eqn:Ho; [|done].
  apply Hk; [|done]. destruct Hs as (_ & _ & Hh). by eapply Hh.
Qed.

Lemma kl_alloc s0 o : known s0 o -> keeps_linear_from s0 (alloc o).
Proof.
  intros Ho s (Hvm & Hvo & Hh). unfold alloc. split; [done|]. split; [done|].
  simpl. intros l o' Hl. apply lookup_app_Some in Hl as [Hl|[_ Hl]].
  - by eapply Hh.
  - apply list_lookup_singleton_Some in Hl as [_ <-]. done.
Qed.

Lemma kl_store s0 r o : known s0 o -> keeps_linear_from s0 (store r o).
Proof.
  intros Ho s (Hvm & Hvo & Hh). unfold store. split; [done|]. split; [done|].
  simpl. intros l o' Hl. apply list_lookup_insert_Some in Hl as [(_ & <- & _)|[_ Hl]].
  - done.
  - by eapply Hh.
Qed.

Lemma known_same_linear s0 o o' : linear o' = linear o -> known s0 o -> known s0 o'.
Proof. intros E [H|(l0 & o0 & H0 & H)]; [left | right; exists l0, o0]; by rewrite E. Qed.

Lemma kl_update s0 r f :
  (forall o, linear (f o) = linear o) -> keeps_linear_from s0 (update r f).
Proof.
  intros Hf. unfold update. apply kl_load_bind. intros o Ho.
  apply kl_store. eapply known_same_linear; [apply Hf | done].
Qed.

Lemma kl_duplicate s0 r : keeps_linear_from s0 (duplicate r).
Proof.
  unfold duplicate. apply kl_load_bind. intros o Ho.
  apply kl_alloc. eapply known_same_linear; [|exact Ho]. reflexivity.
Qed.

Lemma kl_cache_put s0 id a : keeps_linear_from s0 (cache_put id a).
Proof. by intros s Hs. Qed.

Lemma known_Result s0 : known s0 Result.
Proof. by left. Qed.

(** Decompose a computation into its primitives. *)
Ltac kl :=
  repeat first
    [ apply kl_ret
    | apply kl_raise
    | apply kl_cache_put
    | apply kl_duplicate
    | apply kl_alloc; first [apply known_Result | assumption]
    | apply kl_update; intros; reflexivity
    | apply kl_store; eapply known_same_linear; [|eassumption]; reflexivity
    | apply kl_readonly;
        first [ apply readonly_lift | apply readonly_get | apply readonly_load
              | apply readonly_as_num | apply readonly_as_repn
              | apply readonly_to_expression | apply readonly_ret ]
    | apply kl_load_bind; intros ? ?
    | apply kl_bind; [|intros ?]
    | apply kl_try; [|intros ?]
    | match goal with
      | |- keeps_linear_from _ (match ?x with _ => _ end) => destruct x
      | |- keeps_linear_from _ (let '(_, _) := ?x in _) => destruct x
      end ].

Lemma kl_exit_node_dispatcher E node l : keeps_linear (exit_node_dispatcher E node l).
Proof.
  intros s0.
  unfold exit_node_dispatcher, _handle_negation_constant, _handle_negation_ANY,
    _handle_product_constant_constant, _handle_product_constant_ANY,
    _handle_product_ANY_constant, _handle_product_nonlinear,
    _handle_division_constant_constant, _handle_division_ANY_constant,
    _handle_division_nonlinear, _handle_pow_constant_constant,
    _handle_pow_nonlinear, _handle_pow_ANY_constant, _handle_unary_constant,
    _handle_unary_nonlinear, _handle_named_constant, _handle_named_ANY,
    _handle_expr_if_nonlinear, _handle_expr_if_const, _handle_pow_nonlinear,
    _handle_expr_if_nonlinear.
  kl.
Qed.

Lemma kl_beforeChild_other E child :
  match child with
  | Var _ | Monomial _ _ | Linear _ => True
  | _ => keeps_linear (beforeChild E child)
  end.
Proof.
  destruct child; try exact I; intros s0; unfold beforeChild;
    try destruct (is_potentially_variable _);
    unfold _before_native, _before_npv, _before_named_expression,
      _before_expr_if, _before_external, _before_general_expression;
    kl.
Qed.

Lemma kl_enterNode node : keeps_linear (enterNode node).
Proof. intros s0. unfold enterNode. kl. Qed.

Lemma kl_walker_exitNode r : keeps_linear (walker_exitNode r).
Proof. intros s0. unfold walker_exitNode. kl. Qed.

(** ** The classifiers that register variables *)

Lemma grows_intro s s' :
  (visitor_ok s ->
   registry_ok (var_map s') (var_order s') /\
   var_map s ⊆ var_map s' /\ var_order s ⊆ var_order s' /\
   forall l o', heap s' !! l = Some o' ->
     (exists l0 o, heap s !! l0 = Some o /\ linear o' = linear o) \/
     dict_ok (var_map s') (linear o')) ->
  grows s s'.
Proof.
  intros H Hok. destruct (H Hok) as (Hreg & Hvm & Hvo & Hheap).
  split; [split; [done|] | by split].
  intros l o' Ho'. destruct (Hheap l o' Ho') as [(l0 & o & Ho & ->)|Hd]; [|done].
  eapply dict_ok_mono; [exact Hvm|]. destruct Hok as [_ Hst]. by eapply Hst.
Qed.

Lemma lookup_new_cell (h : list LinearRepn) (o o' : LinearRepn) l :
  (h ++ [o]) !! l = Some o' -> h !! l = Some o' \/ o' = o.
Proof.
  intros Hl. apply lookup_app_Some in Hl as [Hl|[_ Hl]]; [by left|].
  apply list_lookup_singleton_Some in Hl as [_ <-]. by right.
Qed.

Lemma grows_new_object s o vm vo :
  (visitor_ok s ->
   registry_ok vm vo /\ var_map s ⊆ vm /\ var_order s ⊆ vo /\
   dict_ok vm (linear o)) ->
  grows s (mkVisitor (heap s ++ [o]) vm vo (subexpression_cache s)).
Proof.
  intros H. apply grows_intro. intros Hok.
  destruct (H Hok) as (Hreg & Hvm & Hvo & Hd). simpl.
  split; [done|]. split; [done|]. split; [done|].
  intros l o' [Hl| ->]%lookup_new_cell; [left; by exists l, o' | by right].
Qed.

Lemma is_Some_insert_same (vm : gmap nat nat) v x : is_Some (<[v := x]> vm !! v).
Proof. rewrite lookup_insert_eq. by eexists. Qed.

Lemma dict_ok_singleton vm v c : is_Some (vm !! v) -> dict_ok vm [(v, c)].
Proof.
  intros Hv. split; [apply NoDup_singleton|].
  intros k Hk. apply list_elem_of_singleton in Hk as ->. done.
Qed.

Lemma growing__before_var E v : growing (_before_var E v).
Proof.
  intros s. unfold _before_var. munfold.
  destruct (var_map s !! v) eqn:Hv; simpl.
  - rewrite lookup_fresh_cell; simpl. rewrite insert_fresh_cell.
    apply (grows_new_object s). intros [Hreg Hst]. split; [done|].
    split; [done|]. split; [done|]. apply dict_ok_singleton. simpl. by rewrite Hv.
  - destruct (var_fixed E v); simpl; [apply grows_refl|].
    rewrite lookup_fresh_cell; simpl. rewrite insert_fresh_cell.
    apply (grows_new_object s). intros [Hreg Hst].
    split; [by apply registry_ok_insert|].
    split; [by apply insert_subseteq|].
    split; [apply insert_subseteq; by eapply registry_ok_fresh|].
    apply dict_ok_singleton, is_Some_insert_same.
Qed.

Lemma growing__before_monomial E c v : growing (_before_monomial E c v).
Proof.
  intros s. unfold _before_monomial. munfold.
  destruct (coef_value E c) as [|x]; [apply grows_refl|].
  destruct (negb (truthy x) || is_nan x); [apply grows_refl|].
  destruct (var_map s !! v) eqn:Hv; simpl.
  - rewrite lookup_fresh_cell; simpl. rewrite insert_fresh_cell.
    apply (grows_new_object s). intros [Hreg Hst]. split; [done|].
    split; [done|]. split; [done|]. apply dict_ok_singleton. simpl. by rewrite Hv.
  - destruct (var_fixed E v); simpl; [apply grows_refl|].
    rewrite lookup_fresh_cell; simpl. rewrite insert_fresh_cell.
    apply (grows_new_object s). intros [Hreg Hst].
    split; [by apply registry_ok_insert|].
    split; [by apply insert_subseteq|].
    split; [apply insert_subseteq; by eapply registry_ok_fresh|].
    apply dict_ok_singleton, is_Some_insert_same.
Qed.

Lemma _before_linear_arg_ok E arg st st' b :
  _before_linear_arg E arg st = (st', b) ->
  loop_ok st ->
  loop_ok st' /\
  ll_var_map st ⊆ ll_var_map st' /\ ll_var_order st ⊆ ll_var_order st'.
Proof.
  intros Harg (Hreg & Hnext & Hd).
  assert (Hsame : forall c,
    loop_ok (mkLoop c (ll_linear st) (ll_next_i st) (ll_var_map st) (ll_var_order st)) /\
    ll_var_map st ⊆ ll_var_map st /\ ll_var_order st ⊆ ll_var_order st)
    by (intros c; split; [by split | by split]).
  assert (Hrefl : loop_ok st /\
    ll_var_map st ⊆ ll_var_map st /\ ll_var_order st ⊆ ll_var_order st)
    by (split; [by split | by split]).
  unfold _before_linear_arg in Harg.
  destruct arg; try (destruct (call E _); injection Harg as <- <-; auto; fail);
    try (injection Harg as <- <-; auto; fail).
  destruct (coef_value E arg) as [|x]; [injection Harg as <- <-; auto|].
  destruct (negb (truthy x)); [injection Harg as <- <-; auto|].
  destruct (is_nan x); [injection Harg as <- <-; auto|].
  destruct (ll_var_map st !! v) eqn:Hv.
  - assert (Hset : forall c,
      loop_ok (mkLoop (ll_const st) (dict_set v c (ll_linear st)) (ll_next_i st)
                 (ll_var_map st) (ll_var_order st))).
    { intros c. split; [done|]. split; [done|]. simpl.
      apply dict_ok_set; [by rewrite Hv | done]. }
    destruct (dict_get v (ll_linear st)); injection Harg as <- <-; auto.
  - destruct (var_fixed E v); injection Harg as <- <-; [auto|]. simpl.
    split; [|split; apply insert_subseteq; [done | by eapply registry_ok_fresh]].
    split; [rewrite Hnext; by apply registry_ok_insert|]. simpl.
    split.
    + rewrite Hnext. rewrite map_size_insert_None; [done|].
      by eapply registry_ok_fresh.
    + apply dict_ok_set; [apply is_Some_insert_same|].
      eapply dict_ok_mono; [|exact Hd]. by apply insert_subseteq.
Qed.

Lemma _before_linear_loop_ok E l st st' b :
  _before_linear_loop E l st = (st', b) ->
  loop_ok st ->
  loop_ok st' /\
  ll_var_map st ⊆ ll_var_map st' /\ ll_var_order st ⊆ ll_var_order st'.
Proof.
  revert st. induction l as [|arg l IH]; intros st; simpl.
  - intros [= <- <-] H. by split.
  - destruct (_before_linear_arg E arg st) as [st1 [|]] eqn:Harg; intros Hl Hok;
      destruct (_before_linear_arg_ok _ _ _ _ _ Harg Hok) as (Hok1 & Hvm & Hvo).
    + destruct (IH _ Hl Hok1) as (Hok' & Hvm' & Hvo').
      split; [done|]. split; by etrans.
    + injection Hl as <- <-. by split.
Qed.

Lemma growing__before_linear E l : growing (_before_linear E l).
Proof.
  intros s. unfold _before_linear. munfold.
  destruct (_before_linear_loop E l _) as [st finished] eqn:Hloop. simpl.
  assert (Hst : visitor_ok s ->
    loop_ok st /\ var_map s ⊆ ll_var_map st /\ var_order s ⊆ ll_var_order st).
  { intros [Hreg Hstore].
    apply (_before_linear_loop_ok _ _ _ _ _ Hloop).
    split; [done|]. split; [done|]. apply dict_ok_nil. }
  assert (Hdrop : grows s
    (set_vars (ll_var_map st) (ll_var_order st) (set_heap (heap s ++ [Result]) s))).
  { apply (grows_new_object s). intros Hok.
    destruct (Hst Hok) as ((Hreg & _ & _) & Hvm & Hvo).
    split; [done|]. split; [done|]. split; [done|]. apply dict_ok_nil. }
  destruct finished; [|exact Hdrop].
  destruct (ll_linear st) eqn:Hlin; [exact Hdrop|]. simpl.
  rewrite lookup_fresh_cell; simpl. rewrite insert_fresh_cell.
  apply (grows_new_object s). intros Hok.
  destruct (Hst Hok) as ((Hreg & _ & Hd) & Hvm & Hvo).
  split; [done|]. split; [done|]. split; [done|]. simpl. by rewrite <- Hlin.
Qed.

Lemma growing_beforeChild E child : growing (beforeChild E child).
Proof.
  pose proof (kl_beforeChild_other E child) as H.
  destruct child; try (by apply keeps_linear_growing).
  - apply growing__before_var.
  - apply growing__before_monomial.
  - apply growing__before_linear.
Qed.

(** ** Accumulation *)

Lemma update_allocated r f s o :
  heap s !! r = Some o ->
  update r f s = Ok tt (set_heap (<[r := f o]> (heap s)) s).
Proof. intros Hr. unfold update. munfold. by rewrite Hr. Qed.

Lemma update_twice r f o (s : visitor) h :
  r < length h ->
  update r f (set_heap (<[r := o]> h) s) = Ok tt (set_heap (<[r := f o]> h) s).
Proof.
  intros Hr. erewrite update_allocated
    by (simpl; by apply list_lookup_insert_eq).
  simpl. unfold set_heap; simpl. by rewrite list_insert_insert_eq.
Qed.

(** What [append] does to the accumulator, and that it touches nothing
    else; a call that raises has changed nothing. *)
Lemma append_cases acc r s :
  (exists e, append acc r s = Raise e s) \/
  (exists o o',
     heap s !! acc = Some o /\
     append acc r s = Ok tt (set_heap (<[acc := o']> (heap s)) s) /\
     multiplier o' = multiplier o /\
     (linear o' = linear o \/
      exists p oth, heap s !! p = Some oth /\
        linear o' = _merge_dict (multiplier oth) (linear o) (linear oth))).
Proof.
  destruct r as [t p].
  assert (Hconst : forall x,
    (exists e, update acc (fun o => set_constant (num_add (constant o) x) o) s
               = Raise e s) \/
    (exists o o',
       heap s !! acc = Some o /\
       update acc (fun o => set_constant (num_add (constant o) x) o) s
         = Ok tt (set_heap (<[acc := o']> (heap s)) s) /\
       multiplier o' = multiplier o /\
       (linear o' = linear o \/
        exists p oth, heap s !! p = Some oth /\
          linear o' = _merge_dict (multiplier oth) (linear o) (linear oth)))).
  { intros x. destruct (heap s !! acc) as [o|] eqn:Hacc.
    - right. eexists o, _. split; [done|].
      split; [by apply update_allocated|]. split; [done | by left].
    - left. exists AttributeError. unfold update. munfold. by rewrite Hacc. }
  assert (Hrepn :
    (exists e,
       (do r <- as_repn p;
        do oth <- load r;
        do _ <- update acc (fun o =>
                  set_constant
                    (num_add (constant o) (num_mul (multiplier oth) (constant oth))) o);
        do _ <- match linear oth with
                | _ :: _ =>
                    update acc (fun o =>
                      set_linear (_merge_dict (multiplier oth) (linear o) (linear oth)) o)
                | [] => ret tt
                end;
        match nonlinear oth with
        | Some onl =>
            update acc (fun o =>
              set_nonlinear
                match nonlinear o with
                | None =>
                    Some (if negb (num_eqb (multiplier oth) num_1)
                          then expr_mul (Native (multiplier oth)) onl else onl)
                | Some snl =>
                    Some (expr_add snl
                            (if negb (num_eqb (multiplier oth) num_1)
                             then expr_mul (Native (multiplier oth)) onl else onl))
                end o)
        | None => ret tt
        end) s = Raise e s) \/
    (exists o o',
       heap s !! acc = Some o /\
       (do r <- as_repn p;
        do oth <- load r;
        do _ <- update acc (fun o =>
                  set_constant
                    (num_add (constant o) (num_mul (multiplier oth) (constant oth))) o);
        do _ <- match linear oth with
                | _ :: _ =>
                    update acc (fun o =>
                      set_linear (_merge_dict (multiplier oth) (linear o) (linear oth)) o)
                | [] => ret tt
                end;
        match nonlinear oth with
        | Some onl =>
            update acc (fun o =>
              set_nonlinear
                match nonlinear o with
                | None =>
                    Some (if negb (num_eqb (multiplier oth) num_1)
                          then expr_mul (Native (multiplier oth)) onl else onl)
                | Some snl =>
                    Some (expr_add snl
                            (if negb (num_eqb (multiplier oth) num_1)
                             then expr_mul (Native (multiplier oth)) onl else onl))
                end o)
        | None => ret tt
        end) s = Ok tt (set_heap (<[acc := o']> (heap s)) s) /\
       multiplier o' = multiplier o /\
       (linear o' = linear o \/
        exists p oth, heap s !! p = Some oth /\
          linear o' = _merge_dict (multiplier oth) (linear o) (linear oth)))).
  { destruct p as [x|p]; [left; by exists AttributeError|].
    cbv beta iota delta [bind ret as_repn load].
    destruct (heap s !! p) as [oth|] eqn:Hp; [|left; by exists AttributeError].
    destruct (heap s !! acc) as [o|] eqn:Hacc.
    2:{ left. exists AttributeError. unfold update. munfold. by rewrite Hacc. }
    assert (Hlt : acc < length (heap s)) by (by eapply lookup_lt_Some).
    rewrite (update_allocated _ _ _ _ Hacc).
    right. exists o.
    destruct (linear oth) eqn:Hlin; destruct (nonlinear oth) eqn:Hnl;
      rewrite ?update_twice by done; cbv beta iota;
      rewrite ?update_twice by done;
      eexists; (split; [done|]); (split; [reflexivity|]); simpl;
      (split; [done|]); first [by left | right; exists p, oth; by rewrite Hlin]. }
  unfold append. destruct t; [|exact Hrepn..].
  destruct p as [x|p]; [apply Hconst | left; by exists TypeError].
Qed.

Lemma lookup_insert_cases (h : list LinearRepn) r o l o' :
  <[r := o]> h !! l = Some o' -> (l = r /\ o' = o) \/ (l <> r /\ h !! l = Some o').
Proof.
  intros H. apply list_lookup_insert_Some in H as [(-> & <- & _)|[? ?]]; auto.
Qed.

Lemma growing_append acc r : growing (append acc r).
Proof.
  intros s.
  destruct (append_cases acc r s)
    as [[e ->]|(o & o' & Hacc & -> & _ & Hlin)]; [apply grows_refl|].
  apply grows_intro. intros [Hreg Hst]. simpl.
  split; [done|]. split; [done|]. split; [done|].
  intros l o1 [[-> ->]|[_ Hl]]%lookup_insert_cases; [|left; by exists l, o1].
  destruct Hlin as [Hlin|(p & oth & Hp & Hlin)]; [left; by exists acc, o|].
  right. rewrite Hlin. apply dict_ok_merge; by eapply Hst.
Qed.

Lemma growing_acceptChildResult d r : growing (acceptChildResult d r).
Proof.
  unfold acceptChildResult. destruct d; [apply growing_ret|].
  apply growing_bind; [apply growing_append | intros; apply growing_ret].
Qed.

Lemma growing_exitNode E node d : growing (exitNode E node d).
Proof.
  unfold exitNode. destruct d; apply keeps_linear_growing;
    [apply kl_exit_node_dispatcher | apply kl_walker_exitNode].
Qed.

(** ** Finalization *)

Lemma nonzero_entries_sublist (d : dict) : sublist (nonzero_entries d) d.
Proof.
  unfold nonzero_entries. induction d as [|kv d IH]; simpl; [constructor|].
  destruct (truthy (snd kv)); by constructor.
Qed.

Lemma dict_ok_pruned vm (g : nat * num -> nat * num) d :
  (forall kv, fst (g kv) = fst kv) ->
  dict_ok vm d -> dict_ok vm (del_all (zeros d) (map g d)).
Proof.
  intros Hg [Hnd Hreg]. rewrite del_all_zeros by done.
  assert (Hkeys : dict_keys (map g (nonzero_entries d))
                  = dict_keys (nonzero_entries d)).
  { unfold dict_keys. rewrite map_map. apply map_ext. intros kv. apply Hg. }
  assert (Hsub : sublist (dict_keys (nonzero_entries d)) (dict_keys d)).
  { unfold dict_keys. apply (fmap_sublist fst), nonzero_entries_sublist. }
  unfold dict_ok. rewrite Hkeys. split.
  - by eapply sublist_NoDup.
  - intros k Hk. apply Hreg. by eapply elem_of_sublist.
Qed.

(** What [finalizeResult] returns is allocated, and it rewrites one
    linear map at most, into its pruned (and scaled) version. *)
Lemma finalizeResult_cases r s :
  match finalizeResult r s with
  | Ok ans s' =>
      is_Some (heap s' !! ans) /\
      ((exists x, s' = set_heap (heap s ++ [set_constant x Result]) s) \/
       (exists o o',
          heap s !! ans = Some o /\
          s' = set_heap (<[ans := o']> (heap s)) s /\
          (linear o' = del_all (zeros (linear o)) (linear o) \/
           linear o' = del_all (zeros (linear o))
                         (map (scale_entry (multiplier o)) (linear o)))))
  | Raise _ s' =>
      s' = s \/ s' = set_heap (heap s ++ [Result]) s
  end.
Proof.
  unfold finalizeResult. munfold. destruct r as [t [x|ans]]; simpl.
  - destruct t; simpl; rewrite ?lookup_fresh_cell; simpl;
      rewrite ?insert_fresh_cell; try (by right).
    split; [rewrite lookup_fresh_cell; by eexists|]. left. by exists x.
  - destruct (heap s !! ans) as [o|] eqn:Ho; [|by left].
    assert (Hlt : ans < length (heap s)) by (by eapply lookup_lt_Some).
    destruct (num_eqb (multiplier o) num_1); simpl;
      (split; [rewrite list_lookup_insert_eq by done; by eexists|]);
      right; eexists o, _; (split; [done|]); (split; [reflexivity|]); simpl; auto.
Qed.

Lemma growing_finalizeResult r : growing (finalizeResult r).
Proof.
  intros s. pose proof (finalizeResult_cases r s) as H.
  destruct (finalizeResult r s) as [ans s'|e s'].
  - destruct H as [_ [[x ->]|(o & o' & Ho & -> & Hlin)]].
    + apply (grows_new_object s). intros [Hreg Hst].
      split; [done|]. split; [done|]. split; [done|]. apply dict_ok_nil.
    + apply grows_intro. intros [Hreg Hst]. simpl.
      split; [done|]. split; [done|]. split; [done|].
      intros l o1 [[-> ->]|[_ Hl]]%lookup_insert_cases; [|left; by exists l, o1].
      right. specialize (Hst _ _ Ho).
      destruct Hlin as [-> | ->].
      * rewrite <- (map_id (linear o)) at 2. by apply dict_ok_pruned.
      * apply dict_ok_pruned; [apply scale_entry_key | done].
  - destruct H as [-> | ->]; [apply grows_refl|].
    apply (grows_new_object s). intros [Hreg Hst].
    split; [done|]. split; [done|]. split; [done|]. apply dict_ok_nil.
Qed.

(** ** Walks *)

Lemma growing_step E c : growing (step E c).
Proof.
  unfold step. destruct (ctl c) as [child| |r].
  - apply growing_bind; [apply growing_beforeChild|]. intros [walk result].
    destruct walk.
    + apply growing_bind; [apply keeps_linear_growing, kl_enterNode|].
      intros [todo d]. apply growing_ret.
    + destruct result; [apply growing_ret | apply growing_raise].
  - destruct (stack c) as [|fr rest]; [apply growing_raise|].
    destruct (f_todo fr); [|apply growing_ret].
    apply growing_bind; [apply growing_exitNode | intros; apply growing_ret].
  - destruct (stack c) as [|fr rest].
    + apply growing_bind; [apply growing_finalizeResult | intros; apply growing_ret].
    + apply growing_bind; [apply growing_acceptChildResult | intros; apply growing_ret].
Qed.

Lemma growing_run E n c : growing (run E n c).
Proof.
  revert c. induction n as [|n IH]; intros c; simpl; [apply growing_ret|].
  apply growing_bind; [apply growing_step|].
  intros [c'|ans]; [apply IH | apply growing_ret].
Qed.

Lemma visitor_ok_new : visitor_ok new_visitor.
Proof.
  split; [apply registry_ok_new|]. intros l o H. simpl in H.
  by rewrite lookup_nil in H.
Qed.

Lemma driver_state_visitor_ok s : driver_state s -> visitor_ok s.
Proof.
  induction 1 as [|s E n e ans s' _ IH Hw|s E n e err s' _ IH Hw];
    [apply visitor_ok_new| |];
    pose proof (growing_run E n (mkConfig [] (Visit e)) s) as HR;
    unfold walk_expression in Hw; rewrite Hw in HR; by apply HR.
Qed.

Lemma step_result_allocated E c s ans s' :
  step E c s = Ok (inr ans) s' -> is_Some (heap s' !! ans).
Proof.
  unfold step, bind, ret. destruct (ctl c) as [child| |r].
  - destruct (beforeChild E child s) as [[walk result] s1|]; [|done].
    destruct walk; [by destruct (enterNode child s1) as [[todo d] s2|]|].
    by destruct result.
  - destruct (stack c) as [|fr rest]; [done|]. destruct (f_todo fr); [|done].
    by destruct (exitNode E (f_node fr) (f_data fr) s).
  - destruct (stack c) as [|fr rest].
    + pose proof (finalizeResult_cases r s) as H.
      destruct (finalizeResult r s); [|done]. intros [= <- <-]. tauto.
    + by destruct (acceptChildResult (f_data fr) r s).
Qed.

Lemma run_result_allocated E n c s ans s' :
  run E n c s = Ok (inr ans) s' -> is_Some (heap s' !! ans).
Proof.
  revert c s. induction n as [|n IH]; intros c s; simpl; [done|].
  unfold bind. destruct (step E c s) as [[c1|a] s1|e s1] eqn:Hstep; [| |done].
  - apply IH.
  - intros [= <- <-]. by eapply step_result_allocated.
Qed.

(** ** Reconstruction *)

Lemma monomial_terms_registered vm (d : dict) :
  (forall k c, (k, c) ∈ d -> truthy c = true -> is_Some (vm !! k)) ->
  exists ts, monomial_terms vm d = inr ts.
Proof.
  induction d as [|[k c] d IH]; intros Hreg; simpl; [by eexists|].
  destruct IH as [ts Hts]; [intros k' c' Hin; apply Hreg; by right|].
  rewrite Hts. destruct (truthy c) eqn:Hc; [|by eexists].
  destruct (Hreg k c) as [v Hv]; [by left | done|]. rewrite Hv. simpl. by eexists.
Qed.

Lemma monomial_terms_unregistered vm (d : dict) k c :
  (k, c) ∈ d -> truthy c = true -> vm !! k = None ->
  monomial_terms vm d = inl KeyError.
Proof.
  induction d as [|[k' c'] d IH]; intros Hin Hc Hk; simpl.
  - by apply elem_of_nil in Hin.
  - apply elem_of_cons in Hin as [[= <- <-]|Hin].
    + by rewrite Hc, Hk.
    + rewrite (IH Hin Hc Hk). destruct (truthy c'); [|done].
      by destruct (vm !! k').
Qed.

Lemma to_expression_repn_registered r s o :
  heap s !! r = Some o ->
  (forall k c, (k, c) ∈ linear o -> truthy c = true -> is_Some (var_map s !! k)) ->
  exists ex, to_expression_repn r s = Ok ex s.
Proof.
  intros Hr Hreg. unfold to_expression_repn. munfold. rewrite Hr.
  destruct (monomial_terms_registered _ _ Hreg) as [ts Hts].
  destruct (linear o) eqn:Hlin; [by eexists|]. rewrite Hts. by eexists.
Qed.

Lemma elem_of_dict_keys (d : dict) k c : (k, c) ∈ d -> k ∈ dict_keys d.
Proof.
  intros Hin. unfold dict_keys.
  change k with (fst (k, c)). by apply (list_elem_of_fmap_2 fst).
Qed.

(** X9: in every state that a driver reaches, also in the middle of a
    walk and after a walk that raised, [var_map] and [var_order] have the
    same keys and [var_order] numbers them 0, 1, ..., n-1 without gap or
    repetition. *)
Theorem registry_numbers_variables_consecutively E n e s :
  driver_state s ->
  let s' := final_state (walk_expression E n e s) in
  registry_ok (var_map s') (var_order s').
Proof.
  intros Hd s'. apply driver_state_visitor_ok in Hd.
  pose proof (growing_run E n (mkConfig [] (Visit e)) s) as HR.
  unfold s', walk_expression.
  destruct (run E n _ s); simpl; by apply HR.
Qed.

Lemma registry_numbers_variables_consecutively_witness :
  registry_ok
    (var_map (final_state (walk_expression free_env 10 e_plus_y visitor_with_x)))
    (var_order (final_state (walk_expression free_env 10 e_plus_y visitor_with_x))).
Proof.
  apply (registry_numbers_variables_consecutively free_env 10 e_plus_y visitor_with_x).
  eapply (driver_walk new_visitor free_env 20 (Var 0)); [apply driver_new|].
  vm_compute. reflexivity.
Defined.

(** X10: a walk only adds to the registry: a variable that is registered
    when the walk starts keeps its entry in [var_map] and its position in
    [var_order], at every point of the walk and also when the walk
    raises. *)
Theorem walk_only_extends_registry E n e s v i :
  driver_state s ->
  var_order s !! v = Some i ->
  let s' := final_state (walk_expression E n e s) in
  var_order s' !! v = Some i /\ var_map s' !! v = var_map s !! v /\
  is_Some (var_map s !! v).
Proof.
  intros Hd Hv s'. apply driver_state_visitor_ok in Hd.
  pose proof (growing_run E n (mkConfig [] (Visit e)) s) as HR.
  assert (Hg : grows s s').
  { unfold s', walk_expression. by destruct (run E n _ s). }
  destruct (Hg Hd) as [_ [Hvm Hvo]].
  destruct Hd as [[Hdom _ _ _] _].
  destruct (proj2 (Hdom v)) as [x Hx]; [by eexists|].
  split; [by eapply lookup_weaken|]. split; [|by eexists].
  rewrite Hx. by eapply lookup_weaken.
Qed.

Lemma walk_only_extends_registry_witness :
  var_order (final_state (walk_expression free_env 10 e_plus_y visitor_with_x))
    !! 0 = Some 0.
Proof.
  apply (walk_only_extends_registry free_env 10 e_plus_y visitor_with_x 0 0).
  - eapply (driver_walk new_visitor free_env 20 (Var 0)); [apply driver_new|].
    vm_compute. reflexivity.
  - vm_compute. reflexivity.
Defined.

(** X11: the representation that a walk of a driver returns has a linear
    map in which every variable occurs once and is registered, with a
    position in [var_order]; so [to_expression] rebuilds an expression
    from it and does not raise. *)
Theorem walk_result_is_over_registered_variables E n e s ans s' :
  driver_state s ->
  walk_expression E n e s = Ok (inr ans) s' ->
  exists o ex,
    heap s' !! ans = Some o /\
    NoDup (dict_keys (linear o)) /\
    (forall k, k ∈ dict_keys (linear o) ->
       is_Some (var_map s' !! k) /\
       exists i, var_order s' !! k = Some i /\ i < size (var_order s')) /\
    to_expression_repn ans s' = Ok ex s'.
Proof.
  intros Hd Hw. apply driver_state_visitor_ok in Hd.
  pose proof (growing_run E n (mkConfig [] (Visit e)) s) as HR.
  unfold walk_expression in Hw. rewrite Hw in HR.
  destruct (HR Hd) as [[[Hdom Hb _ _] Hst] _].
  destruct (run_result_allocated _ _ _ _ _ _ Hw) as [o Ho].
  destruct (Hst _ _ Ho) as [Hnd Hreg].
  destruct (to_expression_repn_registered ans s' o Ho) as [ex Hex].
  { intros k c Hin _. apply Hreg. by eapply elem_of_dict_keys. }
  exists o, ex. split; [done|]. split; [done|]. split; [|done].
  intros k Hk. split; [by apply Hreg|].
  destruct (proj1 (Hdom k) (Hreg k Hk)) as [i Hi]. exists i. split; [done|].
  by eapply Hb.
Qed.

Lemma walk_result_is_over_registered_variables_witness :
  exists o ex,
    heap (final_state (walk_expression free_env 30 e_plus_y visitor_with_x)) !! 1
      = Some o /\
    to_expression_repn 1
      (final_state (walk_expression free_env 30 e_plus_y visitor_with_x))
      = Ok ex (final_state (walk_expression free_env 30 e_plus_y visitor_with_x)).
Proof.
  destruct (walk_result_is_over_registered_variables free_env 30 e_plus_y
              visitor_with_x 1
              (final_state (walk_expression free_env 30 e_plus_y visitor_with_x)))
    as (o & ex & Ho & _ & _ & Hex).
  - eapply (driver_walk new_visitor free_env 20 (Var 0)); [apply driver_new|].
    vm_compute. reflexivity.
  - vm_compute. reflexivity.
  - by exists o, ex.
Defined.

(** X12: [LinearRepn.to_expression] raises [KeyError] when an entry with
    a nonzero coefficient names a variable that [var_map] does not hold,
    and returns, leaving the driver as it is, when every such entry is
    registered; an entry with a zero coefficient is never looked up. *)
Theorem to_expression_needs_registered_nonzero_terms r s o :
  heap s !! r = Some o ->
  ((exists k c, (k, c) ∈ linear o /\ truthy c = true /\ var_map s !! k = None) ->
   to_expression_repn r s = Raise KeyError s) /\
  ((forall k c, (k, c) ∈ linear o -> truthy c = true -> is_Some (var_map s !! k)) ->
   exists ex, to_expression_repn r s = Ok ex s).
Proof.
  intros Hr. split; [|by apply to_expression_repn_registered].
  intros (k & c & Hin & Hc & Hk). unfold to_expression_repn. munfold. rewrite Hr.
  rewrite (monomial_terms_unregistered _ _ _ _ Hin Hc Hk).
  destruct (linear o); [by apply elem_of_nil in Hin | done].
Qed.

Lemma to_expression_needs_registered_nonzero_terms_witness :
  to_expression_repn 0
    (set_heap [mkRepn num_1 num_0 [(0, num_0); (1, of_Z 2)] None] new_visitor)
  = Raise KeyError
      (set_heap [mkRepn num_1 num_0 [(0, num_0); (1, of_Z 2)] None] new_visitor).
Proof.
  apply (proj1 (to_expression_needs_registered_nonzero_terms 0
                  (set_heap [mkRepn num_1 num_0 [(0, num_0); (1, of_Z 2)] None]
                     new_visitor)
                  (mkRepn num_1 num_0 [(0, num_0); (1, of_Z 2)] None) eq_refl)).
  exists 1, (of_Z 2). split; [|split; reflexivity].
  right. left.
Defined.

(** ** The accumulator of a sum *)

Lemma accumulators_plain_frame s s' st :
  (forall fr r, fr ∈ st -> f_data fr = DResult r ->
     forall o, heap s !! r = Some o -> heap s' !! r = Some o) ->
  accumulators_plain s st -> accumulators_plain s' st.
Proof.
  intros Hfr Hp fr r Hin Hd. destruct (Hp fr r Hin Hd) as (o & Ho & Hm).
  exists o. split; [by eapply Hfr | done].
Qed.

Lemma heap_effect_none h h' l o :
  heap_effect [] [] h h' -> h !! l = Some o -> h' !! l = Some o.
Proof.
  intros [_ Hfr _] Ho. rewrite Hfr; [done| |apply not_elem_of_nil..].
  by eapply lookup_lt_Some.
Qed.

Lemma enterNode_plain node s :
  exists todo d s',
    enterNode node s = Ok (todo, d) s' /\
    (forall l o, heap s !! l = Some o -> heap s' !! l = Some o) /\
    forall r, d = DResult r ->
      exists o, heap s' !! r = Some o /\ multiplier o = num_1.
Proof.
  unfold enterNode.
  assert (Hlist : exists todo d s',
    ret (args node, DList []) s = Ok (todo, d) s' /\
    (forall l o, heap s !! l = Some o -> heap s' !! l = Some o) /\
    forall r, d = DResult r ->
      exists o, heap s' !! r = Some o /\ multiplier o = num_1).
  { eexists _, _, _. split; [reflexivity|]. split; [done|]. done. }
  destruct node; try exact Hlist.
  destruct (is_potentially_variable _); [|exact Hlist].
  munfold. eexists _, _, _. split; [reflexivity|]. simpl. split.
  - intros l o Ho. by apply lookup_app_l_Some.
  - intros r [= <-]. exists Result. split; [apply lookup_fresh_cell | done].
Qed.

Lemma step_keeps_accumulators_plain E c s :
  config_ok s c -> accumulators_plain s (stack c) ->
  match step E c s with
  | Ok (inl c') s' => accumulators_plain s' (stack c')
  | _ => True
  end.
Proof.
  intros [Hcache Hres Hlive Hnd Hsep] Hp. destruct c as [st [child| |r]];
    unfold step; simpl in *.
  - (* a child is classified or entered *)
    pose proof (beforeChild_post E child s Hcache) as HB. unfold bind.
    destruct (beforeChild E child s) as [[walk result] s1|e s1]; [|done].
    simpl in HB. destruct HB as (Heff & _ & _).
    assert (Hp1 : accumulators_plain s1 st).
    { eapply accumulators_plain_frame; [|exact Hp].
      intros fr r _ _ o. by apply heap_effect_none. }
    destruct walk; [|by destruct result].
    destruct (enterNode_plain child s1) as (todo & d & s2 & -> & Hold & Hnew).
    simpl. intros fr r [->|Hin]%elem_of_cons Hd; simpl in *.
    + by apply Hnew.
    + destruct (Hp1 fr r Hin Hd) as (o & Ho & Hm). exists o. auto.
  - (* the innermost node goes on, or exits *)
    destruct st as [|[node todo d] rest]; [done|]. simpl.
    destruct todo as [|child todo]; simpl.
    2:{ intros fr r [->|Hin]%elem_of_cons Hd; simpl in *.
        - apply (Hp (mkFrame node (child :: todo) d)); [by left | done].
        - apply (Hp fr); [by right | done]. }
    unfold bind.
    assert (Hrest : accumulators_plain s rest).
    { intros fr r Hin. apply Hp. by right. }
    destruct d as [l|acc]; simpl.
    + assert (Hl : forall a, a ∈ l -> tag_ok (heap s) a).
      { intros a Ha. apply Hres. unfold results_of. simpl.
        rewrite stack_results_cons. simpl. rewrite elem_of_app. by left. }
      pose proof (exit_node_dispatcher_post E node l s Hl) as HH.
      destruct (exit_node_dispatcher E node l s) as [r1 s1|e s1]; [|done].
      simpl in HH. destruct HH as ([_ Hfr _] & _). simpl.
      eapply accumulators_plain_frame; [|exact Hrest].
      intros fr r Hin Hd o Ho. rewrite Hfr; [done| | |apply not_elem_of_nil].
      * by eapply lookup_lt_Some.
      * unfold live in Hnd. simpl in Hnd. rewrite stack_refs_cons in Hnd.
        simpl in Hnd. apply NoDup_app in Hnd as (_ & Hdis & _).
        intros Hin1. apply (Hdis r Hin1). apply elem_of_stack_refs.
        exists fr. split; [done|]. rewrite Hd. simpl. by left.
    + pose proof (walker_exitNode_post acc s) as HW.
      destruct (walker_exitNode acc s) as [r1 s1|e s1]; [|done].
      destruct HW as (-> & _). done.
  - (* a classification is handed to the innermost node *)
    destruct st as [|[node todo d] rest]; simpl.
    { unfold bind. by destruct (finalizeResult r s). }
    unfold bind, acceptChildResult. destruct d as [l|acc]; simpl.
    + intros fr r0 [->|Hin]%elem_of_cons Hd; simpl in *; [done|].
      apply (Hp fr); [by right | done].
    + unfold bind.
      destruct (append_cases acc r s)
        as [[e ->]|(o & o' & Hacc & -> & Hm & _)]; [done|]. simpl.
      intros fr r0 Hin Hd.
      assert (Hold : exists o0, heap s !! r0 = Some o0 /\ multiplier o0 = num_1).
      { apply elem_of_cons in Hin as [->|Hin].
        - simpl in Hd. injection Hd as <-.
          apply (Hp (mkFrame node todo (DResult acc))); [by left | done].
        - apply (Hp fr); [by right | done]. }
      destruct Hold as (o0 & Ho0 & Hm0).
      destruct (decide (r0 = acc)) as [->|Hne].
      * exists o'. split.
        -- apply list_lookup_insert_eq. by eapply lookup_lt_Some.
        -- rewrite Hm. congruence.
      * exists o0. split; [|done]. simpl. by rewrite list_lookup_insert_ne.
Qed.

Lemma run_keeps_accumulators_plain E n c s :
  config_ok s c -> accumulators_plain s (stack c) ->
  match run E n c s with
  | Ok (inl c') s' => accumulators_plain s' (stack c')
  | _ => True
  end.
Proof.
  revert c s. induction n as [|n IH]; intros c s Hok Hp; [done|].
  simpl. unfold bind.
  pose proof (step_keeps_invariants E c s Hok) as HS.
  pose proof (step_keeps_accumulators_plain E c s Hok Hp) as HP.
  destruct (step E c s) as [[c1|ans] s1|e s1]; simpl in *; [|done..].
  apply IH; tauto.
Qed.

(** X13: as the note in [append] says, an accumulator never has a
    multiplier other than 1: at every point of every walk of a driver, the
    [LinearRepn] that collects the terms of a sum that has been entered
    has the multiplier 1, whatever has been appended to it. *)
Theorem sum_accumulator_multiplier_is_one E n e s c s' fr acc :
  driver_state s ->
  walk_expression E n e s = Ok (inl c) s' ->
  fr ∈ stack c ->
  f_data fr = DResult acc ->
  exists o, heap s' !! acc = Some o /\ multiplier o = num_1.
Proof.
  intros Hd Hw Hin Hacc. apply driver_state_cache_ok in Hd.
  pose proof (run_keeps_accumulators_plain E n (mkConfig [] (Visit e)) s
                (initial_config_ok s e Hd)) as HR.
  unfold walk_expression in Hw. rewrite Hw in HR.
  eapply HR; [|exact Hin|exact Hacc].
  intros fr' r Hfr. by apply elem_of_nil in Hfr.
Qed.

Lemma sum_accumulator_multiplier_is_one_witness :
  exists o,
    heap (final_state (walk_expression free_env 18 e_plus_x new_visitor)) !! 0
      = Some o /\
    multiplier o = num_1 /\
    dict_keys (linear o) = [2; 0].
Proof.
  destruct (sum_accumulator_multiplier_is_one free_env 18 e_plus_x new_visitor
              (mkConfig [mkFrame e_plus_x [] (DResult 0)] Next)
              (final_state (walk_expression free_env 18 e_plus_x new_visitor))
              (mkFrame e_plus_x [] (DResult 0)) 0 driver_new)
    as (o & Ho & Hm).
  - vm_compute. reflexivity.
  - simpl. left.
  - reflexivity.
  - exists o. split; [exact Ho|]. split; [exact Hm|].
    vm_compute in Ho. by injection Ho as <-.
Defined.

(** ** Nodes without exit handler *)

Lemma exit_unhandled E fr s :
  unhandled fr -> exitNode E (f_node fr) (f_data fr) s = Raise KeyError s.
Proof.
  unfold unhandled. destruct fr as [node todo d]; simpl.
  destruct node, d; try done.
Qed.

Lemma step_keeps_unhandled E c s fr :
  fr ∈ stack c -> unhandled fr ->
  match step E c s with
  | Ok (inl c') s' => exists fr', fr' ∈ stack c' /\ unhandled fr'
  | Ok (inr _) _ => False
  | Raise _ _ => True
  end.
Proof.
  intros Hin Hfr. destruct c as [st [child| |r]]; unfold step, bind; simpl in *.
  - destruct (beforeChild E child s) as [[walk result] s1|e s1]; [|done].
    destruct walk.
    + destruct (enterNode child s1) as [[todo d] s2|]; [|done]. simpl.
      exists fr. split; [by right | done].
    + destruct result; [|done]. simpl. by exists fr.
  - destruct st as [|top rest]; [done|].
    destruct (f_todo top) as [|child todo] eqn:Htodo; simpl.
    + apply elem_of_cons in Hin as [->|Hin].
      * by rewrite exit_unhandled.
      * destruct (exitNode E (f_node top) (f_data top) s); [|done]. simpl.
        by exists fr.
    + apply elem_of_cons in Hin as [->|Hin].
      * exists (mkFrame (f_node top) todo (f_data top)).
        split; [by left | done].
      * exists fr. split; [by right | done].
  - destruct st as [|top rest]; [by apply elem_of_nil in Hin|].
    unfold acceptChildResult.
    apply elem_of_cons in Hin as [->|Hin].
    + destruct top as [node todo d]. unfold unhandled in Hfr. simpl in *.
      destruct d as [l|acc]; [|by destruct node]. simpl.
      exists (mkFrame node todo (DList (l ++ [r]))). split; [by left|].
      unfold unhandled. simpl. by destruct node.
    + destruct (f_data top); simpl.
      * exists fr. split; [by right | done].
      * unfold bind. destruct (append r0 r s); [|done]. simpl.
        exists fr. split; [by right | done].
Qed.

Lemma run_unhandled E n c s fr ans s' :
  fr ∈ stack c -> unhandled fr -> run E n c s <> Ok (inr ans) s'.
Proof.
  revert c s fr. induction n as [|n IH]; intros c s fr Hin Hfr; [done|].
  simpl. unfold bind. pose proof (step_keeps_unhandled E c s fr Hin Hfr) as HS.
  destruct (step E c s) as [[c1|a] s1|e s1]; [|done..].
  destruct HS as (fr' & Hin' & Hfr'). by eapply IH.
Qed.

(** X14: a monomial term whose coefficient cannot be evaluated is
    descended into, and no exit handler is registered for monomial terms:
    the walk never returns a result, whatever the variable, the state of
    the driver and the number of steps. *)
Theorem monomial_with_failing_coefficient_yields_no_result E c v err n s ans s' :
  coef_value E c = inl err ->
  walk_expression E n (Monomial c v) s <> Ok (inr ans) s'.
Proof.
  intros Hc. unfold walk_expression. destruct n as [|n]; [done|].
  simpl. unfold bind at 1, step; simpl.
  unfold _before_monomial. rewrite Hc. munfold.
  apply (run_unhandled E n _ s (mkFrame (Monomial c v) [c; Var v] (DList []))).
  - by left.
  - done.
Qed.

Lemma monomial_with_failing_coefficient_yields_no_result_witness :
  final_repn (walk_expression free_env 20 one_over_zero_times_x new_visitor) = None.
Proof.
  destruct (walk_expression free_env 20 one_over_zero_times_x new_visitor)
    as [[c|ans] s'|e s'] eqn:Hw; try reflexivity.
  exfalso.
  exact (monomial_with_failing_coefficient_yields_no_result free_env
           (Division (Param (of_Z 1)) (Param (of_Z 0))) 0 ZeroDivisionError
           20 new_visitor ans s' eq_refl Hw).
Defined.

(** X15: a linear expression with a term whose evaluation raises is
    descended into as well, and linear expressions have no exit handler
    either: the walk never returns a result. *)
Theorem linear_with_failing_term_yields_no_result E l arg n s ans s' :
  arg ∈ l -> evaluation_fails E arg ->
  walk_expression E n (Linear l) s <> Ok (inr ans) s'.
Proof.
  intros Hin Hfail. unfold walk_expression. destruct n as [|n]; [done|].
  simpl. unfold bind at 1, step; simpl.
  unfold _before_linear. munfold.
  pose proof (_before_linear_loop_fails E l
    (mkLoop num_0 [] (size (var_order s)) (var_map s) (var_order s))
    arg Hin Hfail) as Hloop.
  destruct (_before_linear_loop E l _) as [st finished]. simpl in Hloop.
  subst finished. simpl.
  apply (run_unhandled E n _ _ (mkFrame (Linear l) l (DList []))).
  - by left.
  - done.
Qed.

Lemma linear_with_failing_term_yields_no_result_witness :
  final_repn (walk_expression free_env 20 y_plus_one_over_zero_times_x new_visitor)
    = None.
Proof.
  destruct (walk_expression free_env 20 y_plus_one_over_zero_times_x new_visitor)
    as [[c|ans] s'|e s'] eqn:Hw; try reflexivity.
  exfalso.
  apply (linear_with_failing_term_yields_no_result free_env
           [Monomial (Native (of_Z 1)) 1; one_over_zero_times_x]
           one_over_zero_times_x 20 new_visitor ans s'); [| |exact Hw].
  - right. left.
  - exists ZeroDivisionError. reflexivity.
Defined.

(** ** Division by a constant *)

Lemma is_zero_not_nan y : is_zero y = true -> is_nan y = false.
Proof. by destruct y. Qed.

(** X16: the exit of a division whose divisor is a constant equal to zero
    raises [ZeroDivisionError], whether the dividend is a constant, linear
    or general, and leaves the driver and the dividend as they were: the
    division handlers have no test like the one that lets a product with
    zero return zero. *)
Theorem division_by_zero_constant_raises E a b r1 y s :
  tag_ok (heap s) r1 ->
  is_zero y = true ->
  exit_node_dispatcher E (Division a b) [r1; (CONSTANT, PNum y)] s
    = Raise ZeroDivisionError s.
Proof.
  intros Htag Hz. destruct r1 as [t [x|l]]; destruct t; simpl in Htag; try done;
    unfold exit_node_dispatcher; simpl;
    unfold _handle_division_constant_constant, _handle_division_ANY_constant;
    munfold; rewrite ?(is_zero_not_nan _ Hz).
  - unfold num_div. by rewrite Hz.
  - destruct Htag as (o & -> & _). unfold num_div. by rewrite Hz.
  - destruct Htag as (o & -> & _). unfold num_div. by rewrite Hz.
Qed.

Lemma division_by_zero_constant_raises_witness :
  exit_node_dispatcher free_env (Division (Var 0) (Native num_0))
    [(LINEAR, PRef 0); (CONSTANT, PNum num_0)] visitor_with_3x
  = Raise ZeroDivisionError visitor_with_3x.
Proof.
  apply (division_by_zero_constant_raises free_env (Var 0) (Native num_0)
           (LINEAR, PRef 0) num_0 visitor_with_3x).
  - eexists. split; [reflexivity|]. by split.
  - reflexivity.
Defined.

(** ** Cached named expressions *)

Lemma _before_named_expression_no_descent id r s :
  subexpression_cache s !! id = Some r ->
  match _before_named_expression id s with
  | Ok (walk, _) _ => walk = false
  | Raise _ _ => True
  end.
Proof.
  intros Hid. unfold _before_named_expression, duplicate. munfold.
  destruct (subexpression_cache s !! id) as [[t [x|l]]|] eqn:Hid'.
  - by destruct t.
  - destruct t; simpl; try done; by destruct (heap s !! l).
  - done.
Qed.

Lemma run_root_return E E' n r s :
  run E n (mkConfig [] (Return r)) s = run E' n (mkConfig [] (Return r)) s.
Proof.
  destruct n as [|n]; [done|]. simpl. unfold step; simpl. unfold bind, ret.
  by destruct (finalizeResult r s).
Qed.

(** X17: a named expression that has an entry in the subexpression cache
    is not walked: the result comes from the entry alone, whatever the
    expression now is and whatever the state of the model. *)
Theorem cached_named_expression_is_not_walked E E' n id e e' r s :
  subexpression_cache s !! id = Some r ->
  walk_expression E (S n) (Named id e) s
    = walk_expression E' (S n) (Named id e') s.
Proof.
  intros Hid. unfold walk_expression. simpl. unfold step; simpl.
  pose proof (_before_named_expression_no_descent id r s Hid) as Hb.
  cbv beta iota delta [bind].
  destruct (_before_named_expression id s) as [[walk result] s1|err s1]; [|done].
  subst walk. destruct result as [r1|]; [|done]. cbv beta iota delta [ret].
  apply run_root_return.
Qed.

Lemma cached_named_expression_is_not_walked_witness :
  walk_expression free_env 20 (Named 9 (Var 0)) visitor_with_cached_3x
    = walk_expression fixed_env 20 (Named 9 (Native NaN)) visitor_with_cached_3x.
Proof.
  apply (cached_named_expression_is_not_walked free_env fixed_env 19 9
           (Var 0) (Native NaN) (LINEAR, PRef 0) visitor_with_cached_3x).
  reflexivity.
Defined.

(** ** Finalizing twice *)

Lemma zeros_nonzero_entries (d : dict) : zeros (nonzero_entries d) = [].
Proof.
  unfold zeros, nonzero_entries. induction d as [|[k v] d IH]; simpl; [done|].
  destruct (truthy v) eqn:Hv; simpl; [|done]. by rewrite Hv.
Qed.

(** X18: with the multiplier 1, finalizing a result that has been
    finalized changes nothing: the second call returns the same object
    and leaves the driver as the first call left it. *)
Theorem finalizeResult_twice_with_multiplier_one t t' r s o :
  heap s !! r = Some o ->
  NoDup (dict_keys (linear o)) ->
  num_eqb (multiplier o) num_1 = true ->
  exists s1,
    finalizeResult (t, PRef r) s = Ok r s1 /\
    finalizeResult (t', PRef r) s1 = Ok r s1.
Proof.
  intros Hr Hnd Hm. unfold finalizeResult. munfold. rewrite Hr, Hm. simpl.
  assert (Hlt : r < length (heap s)) by (by eapply lookup_lt_Some).
  eexists. split; [reflexivity|]. simpl.
  rewrite list_lookup_insert_eq by done. simpl. rewrite Hm. simpl.
  rewrite list_insert_insert_eq.
  assert (Hd : del_all (zeros (linear o)) (linear o) = nonzero_entries (linear o)).
  { rewrite <- (map_id (linear o)) at 2.
    rewrite <- (map_id (nonzero_entries (linear o))). by apply del_all_zeros. }
  rewrite Hd, zeros_nonzero_entries. reflexivity.
Qed.

Lemma finalizeResult_twice_with_multiplier_one_witness :
  exists s1,
    finalizeResult (LINEAR, PRef 0) visitor_with_3x = Ok 0 s1 /\
    finalizeResult (LINEAR, PRef 0) s1 = Ok 0 s1.
Proof.
  apply (finalizeResult_twice_with_multiplier_one LINEAR LINEAR 0 visitor_with_3x
           (mkRepn num_1 num_0 [(0, of_Z 3)] None)).
  - reflexivity.
  - apply NoDup_singleton.
  - reflexivity.
Defined.

(** ** Every walk finishes *)

Lemma run_add E n m c s :
  run E (n + m) c s =
    match run E n c s with
    | Ok (inl c') s' => run E m c' s'
    | x => x
    end.
Proof.
  revert c s. induction n as [|n IH]; intros c s; simpl; [done|].
  unfold bind. destruct (step E c s) as [[c1|ans] s1|e s1]; [apply IH|done..].
Qed.

Lemma run_finished_more E n m c s :
  finished (run E n c s) -> run E (n + m) c s = run E n c s.
Proof.
  intros Hf. rewrite run_add. by destruct (run E n c s) as [[c1|ans] s1|e s1].
Qed.

Lemma args_smaller e child : In child (args e) -> expr_size child < expr_size e.
Proof.
  assert (Hl : forall l, In child l ->
    expr_size child <=
      (fix sizes (l : list expr) : nat :=
         match l with
         | [] => 0
         | x :: l' => expr_size x + sizes l'
         end) l).
  { induction l as [|x l IH]; simpl; [done|].
    intros [->|Hin]; [lia|]. specialize (IH Hin). lia. }
  destruct e; simpl; try done;
    try (intros H; apply Hl in H; lia);
    intuition (subst; simpl; lia).
Qed.

Lemma enterNode_args node s :
  exists d s', enterNode node s = Ok (args node, d) s'.
Proof.
  unfold enterNode. destruct node; try (by eexists _, _).
  destruct (is_potentially_variable _); by eexists _, _.
Qed.

Lemma returns_to_todo E node todo :
  (forall child, In child todo ->
     forall st s, exists n, returns_to st (run E n (mkConfig st (Visit child)) s)) ->
  forall d st s,
    exists n, returns_to st (run E n (mkConfig (mkFrame node todo d :: st) Next) s).
Proof.
  induction todo as [|child todo IH]; intros Hch d st s.
  - exists 1. simpl. unfold bind, step; simpl. unfold bind, ret.
    destruct (exitNode E node d s) as [r s1|e s1]; simpl; [by exists r | done].
  - destruct (Hch child (or_introl eq_refl) (mkFrame node todo d :: st) s)
      as [n1 H1].
    destruct (run E n1 (mkConfig (mkFrame node todo d :: st) (Visit child)) s)
      as [[c1|ans] s1|e s1] eqn:Hrun1; simpl in H1; [|done|].
    + destruct H1 as [r ->].
      destruct (acceptChildResult d r s1) as [d' s2|e s2] eqn:Hacc.
      * destruct (IH (fun c Hc => Hch c (or_intror Hc)) d' st s2) as [n2 H2].
        exists (1 + (n1 + (1 + n2))).
        change (run E (1 + (n1 + (1 + n2))) ?c s)
          with (run E (S (n1 + (1 + n2))) c s).
        simpl run at 1. unfold bind at 1, step at 1; simpl.
        cbv beta iota delta [ret]. rewrite run_add, Hrun1.
        simpl run at 1. unfold bind at 1, step at 1; simpl.
        unfold bind at 1. rewrite Hacc. cbv beta iota delta [ret]. exact H2.
      * exists (1 + (n1 + 1)).
        change (run E (1 + (n1 + 1)) ?c s) with (run E (S (n1 + 1)) c s).
        simpl run at 1. unfold bind at 1, step at 1; simpl.
        cbv beta iota delta [ret]. rewrite run_add, Hrun1.
        simpl. unfold bind at 1, step at 1; simpl.
        unfold bind at 1. by rewrite Hacc.
    + exists (1 + n1).
      change (run E (1 + n1) ?c s) with (run E (S n1) c s).
      simpl run at 1. unfold bind at 1, step at 1; simpl.
      cbv beta iota delta [ret]. by rewrite Hrun1.
Qed.

Lemma returns_to_visit E e :
  forall st s, exists n, returns_to st (run E n (mkConfig st (Visit e)) s).
Proof.
  remember (expr_size e) as k eqn:Hk. revert e Hk.
  induction k as [k IH] using lt_wf_ind. intros e -> st s.
  destruct (beforeChild E e s) as [[walk result] s1|err s1] eqn:Hb.
  2:{ exists 1. simpl. unfold bind, step; simpl. unfold bind. by rewrite Hb. }
  destruct walk.
  - destruct (enterNode_args e s1) as (d & s2 & Henter).
    destruct (returns_to_todo E e (args e)) with (d := d) (st := st) (s := s2)
      as [n Hn].
    { intros child Hin. eapply IH; [|reflexivity]. by apply args_smaller. }
    exists (1 + n). change (run E (1 + n) ?c s) with (run E (S n) c s).
    simpl run at 1. unfold bind at 1, step at 1; simpl.
    unfold bind at 1. rewrite Hb. unfold bind at 1. rewrite Henter.
    cbv beta iota delta [ret]. exact Hn.
  - exists 1. simpl. unfold bind, step; simpl. unfold bind. rewrite Hb.
    destruct result as [r|]; simpl; [by exists r | done].
Qed.

(** X19: every walk finishes: for every expression, model and driver
    there is a number of steps after which the walk has returned a result
    or raised, and further steps change nothing. *)
Theorem walk_finishes E e s :
  exists n,
    finished (walk_expression E n e s) /\
    forall m, n <= m -> walk_expression E m e s = walk_expression E n e s.
Proof.
  destruct (returns_to_visit E e [] s) as [n Hn].
  assert (Hfin : finished (walk_expression E (n + 1) e s)).
  { unfold walk_expression. rewrite run_add.
    destruct (run E n (mkConfig [] (Visit e)) s) as [[c1|ans] s1|err s1];
      simpl in Hn; [|done..].
    destruct Hn as [r ->]. simpl. unfold bind, step; simpl. unfold bind, ret.
    by destruct (finalizeResult r s1). }
  exists (n + 1). split; [exact Hfin|].
  intros m Hm. replace m with ((n + 1) + (m - (n + 1))) by lia.
  unfold walk_expression in *. by apply run_finished_more.
Qed.

(** ** Objects and cache entries that a walk finds *)

(** X20: a walk writes only to objects that it has created: every object
    that the store held when the walk started, the results of earlier
    walks among them, keeps its contents at every point of the walk, and
    also when the walk raises. *)
Theorem walk_leaves_existing_objects E n e s l :
  driver_state s ->
  l < length (heap s) ->
  heap (final_state (walk_expression E n e s)) !! l = heap s !! l.
Proof.
  intros Hd Hl. apply driver_state_cache_ok in Hd. unfold walk_expression.
  apply run_leaves_unheld_objects; [by apply initial_config_ok | done |].
  unfold live; simpl. apply not_elem_of_nil.
Qed.

Lemma walk_leaves_existing_objects_witness :
  heap (final_state (walk_expression free_env 30 e_plus_y visitor_after_e_plus_x))
    !! 0
  = heap visitor_after_e_plus_x !! 0.
Proof.
  apply (walk_leaves_existing_objects free_env 30 e_plus_y visitor_after_e_plus_x 0).
  - eapply (driver_walk new_visitor free_env 30 e_plus_x 0); [apply driver_new|].
    vm_compute. reflexivity.
  - vm_compute. lia.
Defined.

Lemma kc_ret {A} (a : A) : keeps_cache (ret a).
Proof. by intros s. Qed.

Lemma kc_raise {A} e : keeps_cache (@raise A e).
Proof. by intros s. Qed.

Lemma kc_readonly {A} (m : M A) : readonly m -> keeps_cache m.
Proof. intros Hm s. specialize (Hm s). by destruct (m s); subst. Qed.

Lemma kc_bind {A B} (m : M A) (k : A -> M B) :
  keeps_cache m -> (forall a, keeps_cache (k a)) -> keeps_cache (bind m k).
Proof.
  intros Hm Hk s. unfold bind. specialize (Hm s).
  destruct (m s) as [a s1|e s1]; [|done].
  specialize (Hk a s1). destruct (k a s1); congruence.
Qed.

Lemma kc_try {A} (m : M A) (h : exn -> M A) :
  keeps_cache m -> (forall e, keeps_cache (h e)) -> keeps_cache (try_ m h).
Proof.
  intros Hm Hh s. unfold try_. specialize (Hm s).
  destruct (m s) as [a s1|e s1]; [done|].
  specialize (Hh e s1). destruct (h e s1); congruence.
Qed.

Lemma kc_alloc o : keeps_cache (alloc o).
Proof. by intros s. Qed.

Lemma kc_store r o : keeps_cache (store r o).
Proof. by intros s. Qed.

Lemma kc_update r f : keeps_cache (update r f).
Proof.
  unfold update. apply kc_bind; [apply kc_readonly, readonly_load|].
  intros o. apply kc_store.
Qed.

Lemma kc_duplicate r : keeps_cache (duplicate r).
Proof.
  unfold duplicate. apply kc_bind; [apply kc_readonly, readonly_load|].
  intros o. apply kc_alloc.
Qed.

Lemma kc_register_var v : keeps_cache (register_var v).
Proof. by intros s. Qed.

(** Decompose a computation into its primitives. *)
Ltac kc :=
  repeat first
    [ apply kc_ret
    | apply kc_raise
    | apply kc_alloc
    | apply kc_store
    | apply kc_update
    | apply kc_duplicate
    | apply kc_register_var
    | apply kc_readonly;
        first [ apply readonly_lift | apply readonly_get | apply readonly_load
              | apply readonly_as_num | apply readonly_as_repn
              | apply readonly_to_expression | apply readonly_ret ]
    | apply kc_bind; [|intros ?]
    | apply kc_try; [|intros ?]
    | match goal with
      | |- keeps_cache (match ?x with _ => _ end) => destruct x
      | |- keeps_cache (let '(_, _) := ?x in _) => destruct x
      end ].

Lemma kc__before_linear E l : keeps_cache (_before_linear E l).
Proof.
  intros s. unfold _before_linear. munfold.
  destruct (_before_linear_loop E l _) as [st [|]]; simpl; [|done].
  destruct (ll_linear st); simpl; [done|].
  by rewrite lookup_fresh_cell.
Qed.

Lemma kc_beforeChild E child : keeps_cache (beforeChild E child).
Proof.
  unfold beforeChild.
  destruct child; try destruct (is_potentially_variable _);
    try apply kc__before_linear;
    unfold _before_native, _before_npv, _before_named_expression,
      _before_expr_if, _before_external, _before_general_expression,
      _before_var, _before_monomial;
    kc.
Qed.

Lemma kc_enterNode node : keeps_cache (enterNode node).
Proof. unfold enterNode. kc. Qed.

Lemma kc_append acc r : keeps_cache (append acc r).
Proof. intros s. pose proof (effect_only_append acc r s) as H.
  destruct (append acc r s); tauto.
Qed.

Lemma kc_finalizeResult r : keeps_cache (finalizeResult r).
Proof.
  intros s. pose proof (finalizeResult_post r s) as H.
  destruct (finalizeResult r s); tauto.
Qed.

(** The exit of a node writes the cache only under the identity of the
    node, which is then a named expression. *)
Lemma exitNode_cache E node d s :
  match exitNode E node d s with
  | Ok _ s' | Raise _ s' =>
      subexpression_cache s' = subexpression_cache s \/
      exists id e a, node = Named id e /\
        subexpression_cache s' = <[id := a]> (subexpression_cache s)
  end.
Proof.
  assert (Hkeep : forall m : M res, keeps_cache m ->
    match m s with
    | Ok _ s' | Raise _ s' =>
        subexpression_cache s' = subexpression_cache s \/
        exists id e a, node = Named id e /\
          subexpression_cache s' = <[id := a]> (subexpression_cache s)
    end).
  { intros m Hm. specialize (Hm s). destruct (m s); by left. }
  unfold exitNode. destruct d as [l|acc].
  2:{ apply Hkeep. unfold walker_exitNode. kc. }
  unfold exit_node_dispatcher.
  destruct node;
    try (apply Hkeep;
         unfold _handle_negation_constant, _handle_negation_ANY,
           _handle_product_constant_constant, _handle_product_constant_ANY,
           _handle_product_ANY_constant, _handle_product_nonlinear,
           _handle_division_constant_constant, _handle_division_ANY_constant,
           _handle_division_nonlinear, _handle_pow_constant_constant,
           _handle_pow_nonlinear, _handle_pow_ANY_constant, _handle_unary_constant,
           _handle_unary_nonlinear, _handle_expr_if_nonlinear,
           _handle_expr_if_const, _handle_pow_nonlinear,
           _handle_expr_if_nonlinear;
         kc; fail).
  destruct l as [|a [|b l]]; try (by left).
  assert (Hput : forall k : M res, keeps_cache k ->
    match (do _ <- cache_put id a; k) s with
    | Ok _ s' | Raise _ s' =>
        subexpression_cache s' = subexpression_cache s \/
        exists id0 e0 a0, Named id node = Named id0 e0 /\
          subexpression_cache s' = <[id0 := a0]> (subexpression_cache s)
    end).
  { intros k Hk. unfold bind, cache_put.
    specialize (Hk (set_cache (<[id := a]> (subexpression_cache s)) s)).
    destruct (k _); right; exists id, node, a; by split. }
  unfold _handle_named_constant, _handle_named_ANY.
  destruct (fst a); apply Hput; kc.
Qed.

Lemma _before_named_expression_descent id s r s1 :
  _before_named_expression id s = Ok (true, r) s1 ->
  subexpression_cache s !! id = None.
Proof.
  intros Hb. destruct (subexpression_cache s !! id) as [r0|] eqn:Hid; [|done].
  pose proof (_before_named_expression_no_descent id r0 s Hid) as H.
  by rewrite Hb in H.
Qed.

Lemma step_keeps_cache E cache0 c s :
  cache_kept cache0 s c ->
  match step E c s with
  | Ok (inl c') s' => cache_kept cache0 s' c'
  | Ok (inr _) s' | Raise _ s' => cache0 ⊆ subexpression_cache s'
  end.
Proof.
  intros [Hsub Hst]. destruct c as [st [child| |r]]; unfold step; simpl in *.
  - pose proof (kc_beforeChild E child s) as Hb. unfold bind.
    destruct (beforeChild E child s) as [[walk result] s1|err s1] eqn:Hbc;
      [|by rewrite Hb].
    destruct walk.
    + pose proof (kc_enterNode child s1) as He.
      destruct (enterNode child s1) as [[todo d] s2|err s2]; [|by rewrite He, Hb].
      simpl. split; [by rewrite He, Hb|].
      intros fr id e [->|Hin]%elem_of_cons Hn; [|by eapply Hst].
      simpl in Hn. subst child. simpl in Hbc.
      apply _before_named_expression_descent in Hbc.
      by eapply lookup_weaken_None.
    + destruct result; simpl; [|by rewrite Hb]. split; [by rewrite Hb | done].
  - destruct st as [|top rest]; [done|].
    destruct (f_todo top) as [|child todo] eqn:Htodo; simpl.
    + unfold bind. pose proof (exitNode_cache E (f_node top) (f_data top) s) as Hx.
      assert (Hsub' : forall s', 
        subexpression_cache s' = subexpression_cache s \/
        (exists id e a, f_node top = Named id e /\
           subexpression_cache s' = <[id := a]> (subexpression_cache s)) ->
        cache0 ⊆ subexpression_cache s').
      { intros s' [->|(id & e & a & Hn & ->)]; [done|].
        apply insert_subseteq_r; [|done]. eapply Hst; [by left | done]. }
      destruct (exitNode E (f_node top) (f_data top) s) as [r s1|err s1];
        [|by apply Hsub'].
      simpl. split; [by apply Hsub'|].
      intros fr id e Hin. apply Hst. by right.
    + split; [done|]. intros fr id e [->|Hin]%elem_of_cons Hn.
      * simpl in Hn. eapply Hst; [by left | done].
      * eapply Hst; [by right | done].
  - destruct st as [|top rest].
    + unfold bind. pose proof (kc_finalizeResult r s) as Hf.
      destruct (finalizeResult r s); simpl; by rewrite Hf.
    + unfold bind, acceptChildResult. destruct (f_data top) eqn:Hd; simpl.
      * split; [done|]. intros fr id e [->|Hin]%elem_of_cons Hn.
        -- simpl in Hn. eapply Hst; [by left | done].
        -- eapply Hst; [by right | done].
      * unfold bind. pose proof (kc_append r0 r s) as Ha.
        destruct (append r0 r s); simpl; [|by rewrite Ha].
        split; [by rewrite Ha|]. intros fr id e [->|Hin]%elem_of_cons Hn.
        -- simpl in Hn. eapply Hst; [by left | done].
        -- eapply Hst; [by right | done].
Qed.

Lemma run_keeps_cache E cache0 n c s :
  cache_kept cache0 s c ->
  cache0 ⊆ subexpression_cache (final_state (run E n c s)).
Proof.
  revert c s. induction n as [|n IH]; intros c s Hk; [by destruct Hk|].
  simpl. unfold bind. pose proof (step_keeps_cache E cache0 c s Hk) as HS.
  destruct (step E c s) as [[c1|ans] s1|e s1]; [by apply IH | done..].
Qed.

(** X21: a walk never removes or replaces an entry that the subexpression
    cache held when the walk started, whatever the driver: the entry is
    there, with the same tag and payload, at every point of the walk and
    after it, also when the walk raises. *)
Theorem walk_keeps_cache_entries E n e s id r :
  subexpression_cache s !! id = Some r ->
  subexpression_cache (final_state (walk_expression E n e s)) !! id = Some r.
Proof.
  intros Hid. eapply lookup_weaken; [exact Hid|].
  unfold walk_expression. apply run_keeps_cache. split; [done|].
  simpl. intros fr id0 e0 Hin. by apply elem_of_nil in Hin.
Qed.

Lemma walk_keeps_cache_entries_witness :
  subexpression_cache
    (final_state (walk_expression free_env 30 e_plus_y visitor_with_cached_3x))
    !! 9
  = Some (LINEAR, PRef 0).
Proof.
  apply (walk_keeps_cache_entries free_env 30 e_plus_y visitor_with_cached_3x 9).
  reflexivity.
Defined.
